(** * slms-geo-portal: the configuration store and its schema

    A shallow embedding of [src/store/index.js] (the Vuex store: state,
    mutations, getters and the time aggregator [setContextsTimes]) and of the
    JSON schema of the configuration document, with the properties of the
    specification proved or refuted on them.

    The store works on a graph of shared, mutable JavaScript objects (groups
    and contexts, with [parent] back-references), so the embedding keeps an
    explicit heap of those objects, addressed by location.  Handlers are
    computations in a state-and-exception monad: a JavaScript [TypeError]
    aborts the handler and leaves the writes done so far in place. *)

From Stdlib Require Import ZArith QArith List Sorted Permutation Ascii String Bool Lia.
From stdpp Require Import base option list strings gmap.

Local Open Scope Z_scope.
Local Open Scope list_scope.

(** ** The JavaScript fragment the store relies on *)

Module JS.

(** Exceptions raised by the runtime. [TypeError]: a property is read from
    (or written to) [undefined] or [null].  [RangeError]: the call stack is
    exhausted by unbounded recursion. *)
Inductive Exn := TypeError | RangeError.

Inductive result (A : Type) : Type :=
| Ok (a : A)
| Throw (e : Exn).
Arguments Ok {A} a.
Arguments Throw {A} e.

#[export] Instance result_ret : MRet result := fun A a => Ok a.
#[export] Instance result_bind : MBind result := fun A B f m =>
  match m with
  | Ok a => f a
  | Throw e => Throw e
  end.

(** Reading through a reference that may be [undefined]/[null]. *)
Definition defined {A} (o : option A) : result A :=
  match o with
  | Some a => Ok a
  | None => Throw TypeError
  end.

(** [arr.map(f)] where [f] may throw. *)
Fixpoint mapM {A B} (f : A -> result B) (l : list A) : result (list B) :=
  match l with
  | [] => Ok []
  | x :: l' => y ← f x; ys ← mapM f l'; Ok (y :: ys)
  end.

(** [arr.find(p)]: the first element satisfying [p], or [undefined]. *)
Fixpoint find {A} (p : A -> bool) (l : list A) : option A :=
  match l with
  | [] => None
  | x :: l' => if p x then Some x else find p l'
  end.

(** [arr.find(p)] where the callback dereferences objects and may throw. *)
Fixpoint findM {A} (p : A -> result bool) (l : list A) : result (option A) :=
  match l with
  | [] => Ok None
  | x :: l' => b ← p x; if (b : bool) then Ok (Some x) else findM p l'
  end.

(** [arr.findIndex(p)]: the index of the first element satisfying [p],
    or -1. *)
Fixpoint findIndex {A} (p : A -> bool) (l : list A) : Z :=
  match l with
  | [] => -1
  | x :: l' =>
      if p x then 0
      else let i := findIndex p l' in if i <? 0 then -1 else i + 1
  end.

Fixpoint findIndexM {A} (p : A -> result bool) (l : list A) : result Z :=
  match l with
  | [] => Ok (-1)
  | x :: l' =>
      b ← p x;
      if (b : bool) then Ok 0
      else i ← findIndexM p l'; Ok (if i <? 0 then -1 else i + 1)
  end.

(** [arr.indexOf(x)] on an array of numbers. *)
Definition indexOf (x : Z) (l : list Z) : Z := findIndex (Z.eqb x) l.

(** [arr.splice(i, 1)] for an index [0 <= i]: the array without its
    [i]-th element (unchanged when [i] is not an index of [arr]). *)
Definition splice1 {A} (i : Z) (l : list A) : list A :=
  take (Z.to_nat i) l ++ drop (S (Z.to_nat i)) l.

(** [arr.filter((elem, pos, arr) => p(elem, pos, arr))]. *)
Fixpoint filter_from {A} (p : A -> Z -> bool) (pos : Z) (l : list A) : list A :=
  match l with
  | [] => []
  | x :: l' =>
      if p x pos then x :: filter_from p (pos + 1) l'
      else filter_from p (pos + 1) l'
  end.
Definition filter_pos {A} (p : A -> Z -> list A -> bool) (arr : list A) : list A :=
  filter_from (fun elem pos => p elem pos arr) 0 arr.

(** [arr.sort(cmp)].  Since ECMAScript 2019 the sort is stable; for a
    consistent comparator the result is the stable ordering of [arr], which
    this insertion sort computes.  [cmp a b <= 0] keeps [a] before [b].
    For a comparator that is not consistent ECMAScript leaves the order to
    the engine: the result is a permutation of [arr], of which this
    function gives one; the order of a sorted array is described below for
    consistent comparators only. *)
Fixpoint insert_sorted {A} (cmp : A -> A -> Z) (x : A) (l : list A) : list A :=
  match l with
  | [] => [x]
  | y :: l' => if cmp x y <=? 0 then x :: y :: l' else y :: insert_sorted cmp x l'
  end.
Fixpoint sort {A} (cmp : A -> A -> Z) (l : list A) : list A :=
  match l with
  | [] => []
  | x :: l' => insert_sorted cmp x (sort cmp l')
  end.

(** [arr.reduce(f, init)]. *)
Definition reduce {A B} (f : B -> A -> B) (init : B) (l : list A) : B :=
  fold_left f l init.

(** Truthiness of a property holding an array or [undefined]: every
    object, the empty array included, is truthy; [undefined] is falsy. *)
Definition truthy {A} (o : option A) : bool :=
  match o with
  | Some _ => true
  | None => false
  end.

End JS.
Import JS.

(** ** Sparse arrays

    A JavaScript array some indices of which were never assigned, kept as
    the map of its assigned entries.  An array index is an integer from 0 to
    2^32 - 2; any other key is an ordinary property of the array object and
    does not count for [length]. *)

Module SparseArray.

Definition max_length : Z := 4294967295.

Definition is_index (k : Z) : bool := (0 <=? k) && (k <? max_length).

(** [arr.length] of an array made by [[]], assignments [arr[k] = v] and
    [splice]: one more than the greatest index assigned, 0 when no index
    is. *)
Definition length {A} (arr : gmap Z A) : Z :=
  map_fold (fun k _ len => if is_index k then Z.max len (k + 1) else len) 0 arr.

(** [arr.splice(start, 1, item)].  A negative [start] counts from the end;
    the position is clamped to [0 .. length].  Below [length] the entry at
    the position is replaced, were it assigned or not; at [length] nothing
    is deleted and [item] is appended.  No entry moves in either case.
    Appending to an array of the greatest length writes the property and
    then raises a [RangeError], the new length being no valid length. *)
Definition splice_one {A} (start : Z) (item : A) (arr : gmap Z A)
    : result unit * gmap Z A :=
  let len := length arr in
  let actualStart := if start <? 0 then Z.max (len + start) 0 else Z.min start len in
  (if actualStart =? max_length then Throw RangeError else Ok tt,
   <[actualStart := item]> arr).

End SparseArray.

(** ** [Date.parse] on the date-time string format *)

Module JSDate.

Definition digit (c : ascii) : option Z :=
  let n := Z.of_nat (nat_of_ascii c) in
  if (48 <=? n) && (n <=? 57) then Some (n - 48) else None.

(** Exactly [n] decimal digits at the head of [cs]: their value and the
    rest of the text. *)
Fixpoint number (n : nat) (acc : Z) (cs : list ascii) : option (Z * list ascii) :=
  match n with
  | O => Some (acc, cs)
  | S n' =>
      match cs with
      | c :: cs' => d ← digit c; number n' (10 * acc + d) cs'
      | [] => None
      end
  end.

(** The digits of a fraction of a second, read as milliseconds: the first
    three count, further digits are dropped. *)
Fixpoint fraction (scale : Z) (acc : Z) (cs : list ascii) : Z * list ascii :=
  match cs with
  | c :: cs' =>
      match digit c with
      | Some d => fraction (scale / 10) (acc + scale * d) cs'
      | None => (acc, cs)
      end
  | [] => (acc, cs)
  end.

(** Days from 1970-01-01 to the given day of the proleptic Gregorian
    calendar. *)
Definition days_from_civil (y m d : Z) : Z :=
  let y' := if m <=? 2 then y - 1 else y in
  let era := y' / 400 in
  let yoe := y' - era * 400 in
  let mp := (m + 9) mod 12 in
  let doy := (153 * mp + 2) / 5 + d - 1 in
  let doe := yoe * 365 + yoe / 4 - yoe / 100 + doy in
  era * 146097 + doe - 719468.

Definition msPerDay : Z := 86400000.

(** The date part: [YYYY], [YYYY-MM] or [YYYY-MM-DD]. *)
Definition date_part (cs : list ascii) : option (Z * list ascii) :=
  '(y, r) ← number 4 0 cs;
  match r with
  | "-"%char :: r1 =>
      '(m, r2) ← number 2 0 r1;
      if (1 <=? m) && (m <=? 12) then
        match r2 with
        | "-"%char :: r3 =>
            '(d, r4) ← number 2 0 r3;
            if (1 <=? d) && (d <=? 31)
            then Some (days_from_civil y m d * msPerDay, r4)
            else None
        | _ => Some (days_from_civil y m 1 * msPerDay, r2)
        end
      else None
  | _ => Some (days_from_civil y 1 1 * msPerDay, r)
  end.

(** The time of day after [T]: [HH:mm], [HH:mm:ss] or [HH:mm:ss.sss]. *)
Definition time_part (cs : list ascii) : option (Z * list ascii) :=
  '(h, r) ← number 2 0 cs;
  match r with
  | ":"%char :: r1 =>
      '(mi, r2) ← number 2 0 r1;
      '(sec, ms, r5) ←
        match r2 with
        | ":"%char :: r3 =>
            '(sec, r4) ← number 2 0 r3;
            match r4 with
            | "."%char :: (c :: _) as r5 =>
                _ ← digit c;
                let '(ms, r6) := fraction 100 0 r5 in Some (sec, ms, r6)
            | _ => Some (sec, 0, r4)
            end
        | _ => Some (0, 0, r2)
        end;
      if (h <=? 23) && (mi <=? 59) && (sec <=? 59)
         || (h =? 24) && (mi =? 0) && (sec =? 0) && (ms =? 0)
      then Some (h * 3600000 + mi * 60000 + sec * 1000 + ms, r5)
      else None
  | _ => None
  end.

(** The UTC offset: [Z] or [+HH:mm] or [-HH:mm], in milliseconds; [None]
    inside when the text ends without one. *)
Definition offset_part (cs : list ascii) : option (option Z) :=
  match cs with
  | [] => Some None
  | ["Z"%char] => Some (Some 0)
  | sign :: r =>
      sgn ← (if Ascii.eqb sign "+" then Some 1
             else if Ascii.eqb sign "-" then Some (-1) else None);
      '(h, r1) ← number 2 0 r;
      match r1 with
      | ":"%char :: r2 =>
          '(mi, r3) ← number 2 0 r2;
          match r3 with
          | [] => if (h <=? 23) && (mi <=? 59)
                  then Some (Some (sgn * (h * 60 + mi) * 60000))
                  else None
          | _ => None
          end
      | _ => None
      end
  end.

(** [Date.parse(s)] for the ECMAScript date-time string format with a
    four-digit year.  A date alone is a UTC instant; a date with a time and
    no offset is local time, [localOffset] being the offset of the host's
    time zone in milliseconds.  What a text outside the format gives is left
    to the engine, which may read it by rules of its own; this function
    answers [None] ([NaN]) there, and is applied below to texts of the
    format only. *)
Definition parse (localOffset : Z) (s : string) : option Z :=
  '(day, r) ← date_part (list_ascii_of_string s);
  match r with
  | [] => Some day
  | "T"%char :: r1 =>
      '(time, r2) ← time_part r1;
      off ← offset_part r2;
      Some (day + time - default localOffset off)
  | _ => None
  end.

End JSDate.

(** ** Entities *)

(** Modelled from the spec: the time objects of a layer, built by
    [layersConfig], which is not among the sources.  A layer carries "an
    ordered sequence of ISO-8601 time strings"; the store reads the text of
    a time as its property [iso8601]. *)
Record Time := mkTime { iso8601 : string }.

#[global] Instance Time_eq_dec : EqDecision Time.
Proof. solve_decision. Defined.

(** Modelled from the spec: the [type] of a layer, "variants: wms,
    bing-aerial, osm". *)
Inductive LayerType := wms | bing_aerial | osm.

#[global] Instance LayerType_eq_dec : EqDecision LayerType.
Proof. solve_decision. Defined.

(** Modelled from the spec: the statistics descriptors of a layer, "of kind
    attributes or url". *)
Inductive Statistics :=
| AttributesStatistics (attributes : list string)
| UrlStatistics (url : string).

(** Heap locations: the identity of a JavaScript object. *)
Abbreviation loc := positive.

(** Modelled from the spec: the class [Layer] of [layersConfig], which is
    not among the sources, with the properties the store reads: the numeric
    [id], the [type], the [times] and the optional [statistics].  The store
    never writes to a layer object, so a layer is kept as a value together
    with its identity [ref]; [===] on layers compares [ref]. *)
Module Layer.
Record t := mk {
  ref : loc;
  id : Z;
  type : LayerType;
  times : list Time;
  statistics : option (list Statistics)
}.
End Layer.

(** Modelled from the spec: the classes [Group] and [Context] of
    [layersConfig], which are not among the sources, with the properties the
    store reads and writes.  A node of the tree is a Group or a Context
    object; as in JavaScript one object shape serves both, and a property an
    object does not have is [None] ([undefined]).  [items] lists child
    objects by reference, [parent] is the back-reference, and [layers] may
    hold [undefined] entries. *)
Module Item.
Record t := mk {
  id : Z;
  isGroup : bool;
  label : string;
  labels : list (string * string);
  infoFile : option string;
  exclusive : bool;
  active : bool;
  inlineLegendUrl : option string;
  items : option (list loc);
  layers : option (list (option Layer.t));
  times : list Time;
  parent : option loc
}.

Definition set_parent (p : option loc) (i : t) : t :=
  mk (id i) (isGroup i) (label i) (labels i) (infoFile i) (exclusive i)
     (active i) (inlineLegendUrl i) (items i) (layers i) (times i) p.
Definition set_items (v : option (list loc)) (i : t) : t :=
  mk (id i) (isGroup i) (label i) (labels i) (infoFile i) (exclusive i)
     (active i) (inlineLegendUrl i) v (layers i) (times i) (parent i).
Definition set_layers (v : option (list (option Layer.t))) (i : t) : t :=
  mk (id i) (isGroup i) (label i) (labels i) (infoFile i) (exclusive i)
     (active i) (inlineLegendUrl i) (items i) v (times i) (parent i).
Definition set_times (v : list Time) (i : t) : t :=
  mk (id i) (isGroup i) (label i) (labels i) (infoFile i) (exclusive i)
     (active i) (inlineLegendUrl i) (items i) (layers i) v (parent i).
(** The label bundle written by [save_context]. *)
Definition set_context_fields (label' : string) (labels' : list (string * string))
    (infoFile' : option string) (active' : bool) (inlineLegendUrl' : option string)
    (i : t) : t :=
  mk (id i) (isGroup i) label' labels' infoFile' (exclusive i)
     active' inlineLegendUrl' (items i) (layers i) (times i) (parent i).
(** The label bundle written by [save_group]. *)
Definition set_group_fields (label' : string) (labels' : list (string * string))
    (exclusive' : bool) (infoFile' : option string) (i : t) : t :=
  mk (id i) (isGroup i) label' labels' infoFile' exclusive'
     (active i) (inlineLegendUrl i) (items i) (layers i) (times i) (parent i).
End Item.

(** ** The store state

    [heap] holds the Group and Context objects; every other field is a
    property of the Vuex state object.  [contextsTimes] is the sparse array
    indexed by context id, kept as the map of its assigned entries. *)
Record State := mkState {
  heap : gmap loc Item.t;
  layers : list Layer.t;
  contexts : list loc;
  groups : option loc;
  layerInfo : option (string * string);
  contextsTimes : gmap Z Time;
  kmlOverlay : option string;
  enableFeedback : bool;
  activeContextsIds : list Z;
  editing : bool;
  editGroup : option loc;
  editContext : option loc;
  editLayers : bool
}.

Definition set_heap (h : gmap loc Item.t) (s : State) : State :=
  mkState h (layers s) (contexts s) (groups s) (layerInfo s) (contextsTimes s)
          (kmlOverlay s) (enableFeedback s) (activeContextsIds s) (editing s)
          (editGroup s) (editContext s) (editLayers s).
Definition set_layers (v : list Layer.t) (s : State) : State :=
  mkState (heap s) v (contexts s) (groups s) (layerInfo s) (contextsTimes s)
          (kmlOverlay s) (enableFeedback s) (activeContextsIds s) (editing s)
          (editGroup s) (editContext s) (editLayers s).
Definition set_contexts (v : list loc) (s : State) : State :=
  mkState (heap s) (layers s) v (groups s) (layerInfo s) (contextsTimes s)
          (kmlOverlay s) (enableFeedback s) (activeContextsIds s) (editing s)
          (editGroup s) (editContext s) (editLayers s).
Definition set_groups (v : option loc) (s : State) : State :=
  mkState (heap s) (layers s) (contexts s) v (layerInfo s) (contextsTimes s)
          (kmlOverlay s) (enableFeedback s) (activeContextsIds s) (editing s)
          (editGroup s) (editContext s) (editLayers s).
Definition set_contextsTimes (v : gmap Z Time) (s : State) : State :=
  mkState (heap s) (layers s) (contexts s) (groups s) (layerInfo s) v
          (kmlOverlay s) (enableFeedback s) (activeContextsIds s) (editing s)
          (editGroup s) (editContext s) (editLayers s).
Definition set_activeContextsIds (v : list Z) (s : State) : State :=
  mkState (heap s) (layers s) (contexts s) (groups s) (layerInfo s) (contextsTimes s)
          (kmlOverlay s) (enableFeedback s) v (editing s)
          (editGroup s) (editContext s) (editLayers s).
Definition set_editGroup (v : option loc) (s : State) : State :=
  mkState (heap s) (layers s) (contexts s) (groups s) (layerInfo s) (contextsTimes s)
          (kmlOverlay s) (enableFeedback s) (activeContextsIds s) (editing s)
          v (editContext s) (editLayers s).
Definition set_editContext (v : option loc) (s : State) : State :=
  mkState (heap s) (layers s) (contexts s) (groups s) (layerInfo s) (contextsTimes s)
          (kmlOverlay s) (enableFeedback s) (activeContextsIds s) (editing s)
          (editGroup s) v (editLayers s).
Definition set_layerInfo (v : option (string * string)) (s : State) : State :=
  mkState (heap s) (layers s) (contexts s) (groups s) v (contextsTimes s)
          (kmlOverlay s) (enableFeedback s) (activeContextsIds s) (editing s)
          (editGroup s) (editContext s) (editLayers s).
Definition set_kmlOverlay (v : option string) (s : State) : State :=
  mkState (heap s) (layers s) (contexts s) (groups s) (layerInfo s) (contextsTimes s)
          v (enableFeedback s) (activeContextsIds s) (editing s)
          (editGroup s) (editContext s) (editLayers s).
Definition set_enableFeedback (v : bool) (s : State) : State :=
  mkState (heap s) (layers s) (contexts s) (groups s) (layerInfo s) (contextsTimes s)
          (kmlOverlay s) v (activeContextsIds s) (editing s)
          (editGroup s) (editContext s) (editLayers s).
Definition set_editing (v : bool) (s : State) : State :=
  mkState (heap s) (layers s) (contexts s) (groups s) (layerInfo s) (contextsTimes s)
          (kmlOverlay s) (enableFeedback s) (activeContextsIds s) v
          (editGroup s) (editContext s) (editLayers s).
Definition set_editLayers (v : bool) (s : State) : State :=
  mkState (heap s) (layers s) (contexts s) (groups s) (layerInfo s) (contextsTimes s)
          (kmlOverlay s) (enableFeedback s) (activeContextsIds s) (editing s)
          (editGroup s) (editContext s) v.

(** The root state object the store starts from: nothing loaded, no tree. *)
Definition state : State :=
  mkState ∅ [] [] None None ∅ None false [] false None None false.

(** ** Handlers as computations *)

(** A handler runs on the state and ends normally or with an exception; in
    both cases the state it leaves behind is part of the outcome. *)
Definition M (A : Type) : Type := State -> result A * State.

#[global] Instance M_ret : MRet M := fun A a s => (Ok a, s).
#[global] Instance M_bind : MBind M := fun A B f m s =>
  match m s with
  | (Ok a, s') => f a s'
  | (Throw e, s') => (Throw e, s')
  end.

Definition get : M State := fun s => (Ok s, s).
Definition modify (f : State -> State) : M unit := fun s => (Ok tt, f s).
Definition lift {A} (r : result A) : M A := fun s => (r, s).

(** [arr.forEach(f)]. *)
Fixpoint forEach {A} (f : A -> M unit) (l : list A) : M unit :=
  match l with
  | [] => mret tt
  | x :: l' => f x;; forEach f l'
  end.

(** Reading an object through its reference. *)
Definition load (l : loc) : M Item.t := fun s => (defined (heap s !! l), s).

(** Writing properties of the object at [l]. *)
Definition store (l : loc) (f : Item.t -> Item.t) : M unit := fun s =>
  match heap s !! l with
  | Some i => (Ok tt, set_heap (<[l := f i]> (heap s)) s)
  | None => (Throw TypeError, s)
  end.

(** ** Tree lookup *)

(** The first element of [l] on which [f] answers, if any. *)
Fixpoint first_hit {A B} (f : A -> result (option B)) (l : list A) : result (option B) :=
  match l with
  | [] => Ok None
  | x :: l' =>
      r ← f x;
      match r with
      | Some y => Ok (Some y)
      | None => first_hit f l'
      end
  end.

(** Modelled from the spec: [Group.findById] of [layersConfig], which is not
    among the sources.  "Depth-first search over [items], returning the first
    Group or Context whose [id] matches": the receiver is tested first, then
    its items in order, each with its own subtree.  The recursion is bounded
    by [fuel]; a search that exhausts it has gone deeper than the number of
    objects on the heap, so it runs around a cycle of [items] and would
    recurse until the stack overflows. *)
Fixpoint findById_from (fuel : nat) (h : gmap loc Item.t) (l : loc) (id : Z)
    : result (option loc) :=
  match fuel with
  | O => Throw RangeError
  | S n =>
      it ← defined (h !! l);
      if Item.id it =? id then Ok (Some l)
      else match Item.items it with
           | None => Ok None
           | Some children => first_hit (fun c => findById_from n h c id) children
           end
  end.

Definition findById (h : gmap loc Item.t) (root : loc) (id : Z) : result (option loc) :=
  findById_from (S (size h)) h root id.

(** [state.groups.findById(id)]: a [TypeError] when no tree is loaded. *)
Definition resolve (s : State) (id : Z) : result (option loc) :=
  root ← defined (groups s); findById (heap s) root id.

Definition groups_findById (id : Z) : M (option loc) := fun s => (resolve s id, s).

(** [arr.filter(p)] where the callback dereferences objects and may throw. *)
Fixpoint filterM {A} (p : A -> result bool) (l : list A) : result (list A) :=
  match l with
  | [] => Ok []
  | x :: l' =>
      b ← p x; r ← filterM p l';
      Ok (if (b : bool) then x :: r else r)
  end.

(** Payload of [save_context]. *)
Record SaveContext := mkSaveContext {
  sc_id : Z;
  sc_label : string;
  sc_labels : list (string * string);
  sc_infoFile : option string;
  sc_active : bool;
  sc_inlineLegendUrl : option string;
  sc_layerIds : list Z
}.

(** Payload of [save_group]. *)
Record SaveGroup := mkSaveGroup {
  sg_id : Z;
  sg_label : string;
  sg_labels : list (string * string);
  sg_exclusive : bool;
  sg_infoFile : option string
}.

(** Payload of [receive_layers]: the configuration built by the loader. *)
Record LayersConf := mkLayersConf {
  conf_layers : list Layer.t;
  conf_contexts : list loc;
  conf_groups : option loc
}.

(** A commit: the type of a mutation with its payload. *)
Inductive Mutation :=
| Enable_edit (editing : bool)
| Edit_item (id : Z)
| Delete_item (id : Z)
| Edit_layers (edit : bool)
| Save_group (p : SaveGroup)
| Save_context (p : SaveContext)
| Receive_layers (layersConf : LayersConf)
| Toggle_context (contextId : Z)
| Show_layer_info (fileName label : string)
| Set_context_time (contextId : Z) (time : Time)
| Overlay_kml (kml : option string)
| Enable_feedback (enable : bool)
| Update_group (groupId : Z) (value : list loc)
| Update_layers (value : list Layer.t).

Section Store.

(** [Date.parse] of the host: the instant of a date string in milliseconds,
    or [None] for [NaN]. *)
Variable Date_parse : string -> option Z.

(** The comparator of the sort in [setContextsTimes]:
    [Date.parse(t1.iso8601) - Date.parse(t2.iso8601)]; a [NaN] difference
    counts as 0 for the sort.  The comparator is consistent when every text
    compared is one [Date.parse] reads. *)
Definition compareTimes (t1 t2 : Time) : Z :=
  match Date_parse (iso8601 t1), Date_parse (iso8601 t2) with
  | Some a, Some b => a - b
  | _, _ => 0
  end.

(** The [times] computed for one context from its [layers].  The filter
    callback reads [l.type] on every entry, so an [undefined] entry raises
    a [TypeError]. *)
Definition contextTimes (c : Item.t) : result (list Time) :=
  ls ← defined (Item.layers c);
  ws ← mapM defined ls;
  Ok (sort compareTimes
        (filter_pos (fun elem pos arr =>
                       findIndex (fun el => String.eqb (iso8601 el) (iso8601 elem)) arr =? pos)
           (reduce (fun contextTimes l => contextTimes ++ Layer.times l) []
              (List.filter (fun l => bool_decide (Layer.type l = wms)
                                     && negb (length (Layer.times l) =? 0)%nat) ws)))).

(** One round of the [forEach] in [setContextsTimes], on the local array
    [contextsTimes] under construction. *)
Definition setContextTimes (acc : gmap Z Time) (c : loc) : M (gmap Z Time) :=
  it ← load c;
  times ← lift (contextTimes it);
  store c (Item.set_times times);;
  mret (match last times with
        | Some t => <[Item.id it := t]> acc
        | None => acc
        end).

Fixpoint setContextsTimes_loop (acc : gmap Z Time) (cs : list loc) : M (gmap Z Time) :=
  match cs with
  | [] => mret acc
  | c :: cs' => acc' ← setContextTimes acc c; setContextsTimes_loop acc' cs'
  end.

Definition setContextsTimes : M unit :=
  s ← get;
  contextsTimes ← setContextsTimes_loop ∅ (contexts s);
  modify (set_contextsTimes contextsTimes).

(** *** Mutations *)

Definition edit_item (id : Z) : M unit :=
  item ← groups_findById id;
  match item with
  | Some l =>
      it ← load l;
      if Item.isGroup it then modify (set_editGroup (Some l))
      else modify (set_editContext (Some l))
  | None =>
      modify (set_editGroup None);;
      modify (set_editContext None)
  end.

Definition delete_item (id : Z) : M unit :=
  item ← groups_findById id;
  l ← lift (defined item);
  it ← load l;
  p ← lift (defined (Item.parent it));
  pit ← load p;
  pitems ← lift (defined (Item.items pit));
  s ← get;
  index ← lift (findIndexM (fun i => x ← defined (heap s !! i);
                                     Ok (Item.id x =? id)) pitems);
  if index >? -1 then store p (Item.set_items (Some (splice1 index pitems)))
  else mret tt.

Definition save_group (p : SaveGroup) : M unit :=
  group ← groups_findById (sg_id p);
  l ← lift (defined group);
  store l (Item.set_group_fields (sg_label p) (sg_labels p) (sg_exclusive p)
             (sg_infoFile p)).

Definition save_context (p : SaveContext) : M unit :=
  context ← groups_findById (sc_id p);
  l ← lift (defined context);
  store l (Item.set_context_fields (sc_label p) (sc_labels p) (sc_infoFile p)
             (sc_active p) (sc_inlineLegendUrl p));;
  s ← get;
  store l (Item.set_layers
             (Some (map (fun id => find (fun layer => Layer.id layer =? id) (layers s))
                        (sc_layerIds p))));;
  setContextsTimes.

Definition receive_layers (layersConf : LayersConf) : M unit :=
  modify (set_layers (conf_layers layersConf));;
  modify (set_contexts (conf_contexts layersConf));;
  modify (set_groups (conf_groups layersConf));;
  setContextsTimes;;
  s ← get;
  cs ← lift (mapM (fun c => defined (heap s !! c)) (contexts s));
  modify (set_activeContextsIds
            (reduce (fun a c => if Item.active c then a ++ [Item.id c] else a) [] cs)).

(** [state.contexts.find(c => c.id === contextId)]. *)
Definition context_by_id (s : State) (contextId : Z) : result (option loc) :=
  findM (fun c => it ← defined (heap s !! c); Ok (Item.id it =? contextId)) (contexts s).

Definition toggle_context (contextId : Z) : M unit :=
  s ← get;
  context ← lift (context_by_id s contextId);
  match context with
  | Some _ =>
      let idx := indexOf contextId (activeContextsIds s) in
      if idx =? -1
      then modify (set_activeContextsIds (activeContextsIds s ++ [contextId]))
      else modify (set_activeContextsIds (splice1 idx (activeContextsIds s)))
  | None => mret tt
  end.

Definition update_group (groupId : Z) (value : list loc) : M unit :=
  group ← groups_findById groupId;
  match group with
  | Some g => store g (Item.set_items (Some value))
  | None => mret tt
  end;;
  g ← lift (defined group);
  git ← load g;
  its ← lift (defined (Item.items git));
  forEach (fun item => store item (Item.set_parent (Some g))) its.

(** The callback of [contextLayers.map] in [update_layers]:
    [value.find(l => l.id === layer.id)].  [layer.id] is read inside the
    callback of [find], once for every layer of [value] that is tried: an
    [undefined] entry raises a [TypeError] at the first layer of [value],
    and nothing when [value] is empty. *)
Definition swap_layer (value : list Layer.t) (layer : option Layer.t)
    : result (option Layer.t) :=
  findM (fun l' => l ← defined layer; Ok (Layer.id l' =? Layer.id l)) value.

(** One round of the [forEach] in [update_layers]. *)
Definition swap_context_layers (value : list Layer.t) (context : loc) : M unit :=
  c ← load context;
  contextLayers ← lift (defined (Item.layers c));
  found ← lift (mapM (swap_layer value) contextLayers);
  store context (Item.set_layers (Some (List.filter truthy found))).

Definition update_layers (value : list Layer.t) : M unit :=
  modify (set_layers value);;
  s ← get;
  forEach (swap_context_layers value) (contexts s);;
  setContextsTimes.

Definition enable_edit (editing : bool) : M unit := modify (set_editing editing).

Definition edit_layers (edit : bool) : M unit := modify (set_editLayers edit).

Definition show_layer_info (fileName label : string) : M unit :=
  modify (set_layerInfo (Some (fileName, label))).

Definition set_context_time (contextId : Z) (time : Time) : M unit := fun s =>
  let '(r, arr) := SparseArray.splice_one contextId time (contextsTimes s) in
  (r, set_contextsTimes arr s).

Definition overlay_kml (kml : option string) : M unit := modify (set_kmlOverlay kml).

Definition enable_feedback (enable : bool) : M unit := modify (set_enableFeedback enable).

(** [store.commit(type, payload)]: the handler of the table [mutations]
    registered under [type], run on the payload.  [add_group] and
    [add_context] build their objects with the constructors of
    [layersConfig], which is not among the sources; they are left out. *)
Definition commit (m : Mutation) : M unit :=
  match m with
  | Enable_edit editing => enable_edit editing
  | Edit_item id => edit_item id
  | Delete_item id => delete_item id
  | Edit_layers edit => edit_layers edit
  | Save_group p => save_group p
  | Save_context p => save_context p
  | Receive_layers layersConf => receive_layers layersConf
  | Toggle_context contextId => toggle_context contextId
  | Show_layer_info fileName label => show_layer_info fileName label
  | Set_context_time contextId time => set_context_time contextId time
  | Overlay_kml kml => overlay_kml kml
  | Enable_feedback enable => enable_feedback enable
  | Update_group groupId value => update_group groupId value
  | Update_layers value => update_layers value
  end.

(** *** Getters *)

(** [===] on two entries of a [layers] array. *)
Definition same_layer (a b : option Layer.t) : bool :=
  match a, b with
  | Some x, Some y => Pos.eqb (Layer.ref x) (Layer.ref y)
  | None, None => true
  | _, _ => false
  end.

Definition activeLayers (s : State) : result (list (option Layer.t)) :=
  cs ← mapM (fun c => defined (heap s !! c)) (contexts s);
  pushed ← mapM (fun context => defined (Item.layers context))
                (List.filter (fun context =>
                                negb (indexOf (Item.id context) (activeContextsIds s) =? -1))
                             cs);
  Ok (filter_pos (fun elem pos arr => findIndex (same_layer elem) arr =? pos)
                 (concat pushed)).

Definition queryableLayers (s : State) : result (list (option Layer.t)) :=
  al ← activeLayers s;
  filterM (fun layer => l ← defined layer; Ok (truthy (Layer.statistics l))) al.

End Store.

(** * The schema of the configuration document *)

(** ** JSON documents *)

Inductive json :=
| JNull
| JBool (b : bool)
| JNum (n : Q)
| JStr (s : string)
| JArr (elements : list json)
| JObj (members : list (string * json)).

Inductive jtype := TObject | TArray | TString | TNumber | TBoolean | TNull.

Definition type_of (j : json) : jtype :=
  match j with
  | JNull => TNull
  | JBool _ => TBoolean
  | JNum _ => TNumber
  | JStr _ => TString
  | JArr _ => TArray
  | JObj _ => TObject
  end.

#[global] Instance jtype_eq_dec : EqDecision jtype.
Proof. solve_decision. Defined.

(** Nesting depth of a document. *)
Fixpoint depth (j : json) : nat :=
  match j with
  | JArr es => S (list_max (map depth es))
  | JObj ms => S (list_max (map (fun m => depth (snd m)) ms))
  | _ => O
  end.

(** ** Schemas *)

(** A schema is the list of the keywords it is written with.  [KRef] is
    [$ref]; the enumerations of this schema list strings only. *)
Inductive keyword :=
| KType (t : jtype)
| KEnum (values : list string)
| KPattern (regex : string)
| KProperties (properties : list (string * list keyword))
| KRequired (keys : list string)
| KAdditionalProperties (allowed : bool)
| KItems (items : list keyword)
| KOneOf (alternatives : list (list keyword))
| KRef (pointer : string).

Abbreviation schema := (list keyword).

(** Where in the document a violation lies. *)
Inductive segment := Key (k : string) | Index (i : nat).

Inductive reason :=
| WrongType (expected : jtype)
| NotInEnum (values : list string)
| PatternMismatch (regex : string)
| MissingProperty (k : string)
| AdditionalProperty (k : string)
| OneOfMismatch (matching : nat)
| UnresolvedRef (pointer : string).

Record violation := mkViolation { v_path : list segment; v_reason : reason }.

(** ** Validation *)

(** [Some] of all results when every one is there. *)
Fixpoint all_results {A B} (f : A -> option B) (l : list A) : option (list B) :=
  match l with
  | [] => Some []
  | x :: l' =>
      match f x, all_results f l' with
      | Some y, Some ys => Some (y :: ys)
      | _, _ => None
      end
  end.

(** The violations found over a list, when every validation came to an
    end. *)
Definition all_violations {A B} (f : A -> option (list B)) (l : list A)
    : option (list B) :=
  match all_results f l with
  | Some rs => Some (concat rs)
  | None => None
  end.

(** The elements of an array with their indices, from [i] on. *)
Fixpoint indexed_from {A} (i : nat) (l : list A) : list (nat * A) :=
  match l with
  | [] => []
  | x :: l' => (i, x) :: indexed_from (S i) l'
  end.

Definition has_key (k : string) (ms : list (string * json)) : bool :=
  existsb (fun m => String.eqb (fst m) k) ms.

Fixpoint property (k : string) (ps : list (string * schema)) : option schema :=
  match ps with
  | [] => None
  | (k', s) :: ps' => if String.eqb k' k then Some s else property k ps'
  end.

(** The properties a schema declares. *)
Fixpoint declared (s : schema) : list (string * schema) :=
  match s with
  | [] => []
  | KProperties ps :: _ => ps
  | _ :: s' => declared s'
  end.

(** The [$ref] of a schema, if it has one; its other keywords are then left
    aside. *)
Fixpoint find_ref (s : schema) : option string :=
  match s with
  | [] => None
  | KRef pointer :: _ => Some pointer
  | _ :: s' => find_ref s'
  end.

Definition count_valid (rs : list (list violation)) : nat :=
  length (List.filter (fun r => match r with [] => true | _ => false end) rs).

Section Validator.

(** The regular expressions of the host: [regex_match re s] tells whether
    [s] matches [re]. *)
Variable regex_match : string -> string -> bool.

(** The table [definitions] of the schema document, by name. *)
Variable definitions : list (string * schema).

(** [#/definitions/<name>] resolved in the table. *)
Definition resolve_ref (pointer : string) : option schema :=
  if String.prefix "#/definitions/" pointer
  then property (String.substring 14 (String.length pointer - 14) pointer) definitions
  else None.

(** Modelled from the spec: the validator that applies the schema is not
    among the sources.  "Validation failure is reported as a structured list
    of (path, reason) violations": one keyword of a schema applied to the
    document [j] found at [path], as JSON Schema draft-04 defines the
    keyword; [rec] validates the parts of [j] against sub-schemas and [None]
    stands for a validation that did not come to an end. *)
Definition validate_keyword
    (rec : list segment -> schema -> json -> option (list violation))
    (siblings : schema) (path : list segment) (k : keyword) (j : json)
    : option (list violation) :=
  match k with
  | KType t =>
      Some (if decide (type_of j = t) then [] else [mkViolation path (WrongType t)])
  | KEnum values =>
      Some (match j with
            | JStr s => if existsb (String.eqb s) values then []
                        else [mkViolation path (NotInEnum values)]
            | _ => [mkViolation path (NotInEnum values)]
            end)
  | KPattern regex =>
      Some (match j with
            | JStr s => if regex_match regex s then []
                        else [mkViolation path (PatternMismatch regex)]
            | _ => []
            end)
  | KRequired keys =>
      Some (match j with
            | JObj ms =>
                flat_map (fun k => if has_key k ms then []
                                   else [mkViolation path (MissingProperty k)]) keys
            | _ => []
            end)
  | KAdditionalProperties allowed =>
      Some (match j with
            | JObj ms =>
                if allowed then []
                else flat_map (fun m =>
                                 match property (fst m) (declared siblings) with
                                 | Some _ => []
                                 | None => [mkViolation (path ++ [Key (fst m)])
                                                        (AdditionalProperty (fst m))]
                                 end) ms
            | _ => []
            end)
  | KProperties ps =>
      match j with
      | JObj ms =>
          all_violations (fun m =>
                                    match property (fst m) ps with
                                    | Some s' => rec (path ++ [Key (fst m)]) s' (snd m)
                                    | None => Some []
                                    end) ms
      | _ => Some []
      end
  | KItems s' =>
      match j with
      | JArr es =>
          all_violations (fun ie => rec (path ++ [Index (fst ie)]) s' (snd ie))
                                 (indexed_from 0 es)
      | _ => Some []
      end
  | KOneOf alternatives =>
      rs ← all_results (fun s' => rec path s' j) alternatives;
      Some (if (count_valid rs =? 1)%nat then []
            else [mkViolation path (OneOfMismatch (count_valid rs))])
  | KRef _ => Some []
  end.

(** Modelled from the spec: validation of [j] at [path] against [s].  A
    schema with [$ref] stands for the schema it points to.  [fuel] bounds
    the nesting of schemas entered. *)
Fixpoint validate (fuel : nat) (path : list segment) (s : schema) (j : json)
    : option (list violation) :=
  match fuel with
  | O => None
  | S n =>
      match find_ref s with
      | Some pointer =>
          match resolve_ref pointer with
          | Some s' => validate n path s' j
          | None => Some [mkViolation path (UnresolvedRef pointer)]
          end
      | None =>
          all_violations (fun k => validate_keyword (validate n) s path k j) s
      end
  end.

End Validator.

(** ** The schema document *)

Module ConfigSchema.

Definition ref (name : string) : schema := [KRef ("#/definitions/" ++ name)].
Definition string_ : schema := [KType TString].
Definition number_ : schema := [KType TNumber].
Definition boolean_ : schema := [KType TBoolean].

Definition labels : schema :=
  [KType TArray;
   KItems [KProperties [("language", string_); ("label", string_)];
           KRequired ["language"; "label"];
           KAdditionalProperties false]].

Definition time_pattern : string :=
  "^([0-9]{4})(-([0-9]{2})(-([0-9]{2})(T([0-9]{2}):([0-9]{2})(:([0-9]{2})(\.([0-9]+))?)?(Z|(([-+])([0-9]{2}):([0-9]{2})))?)?)?)?$".

Definition wms : schema :=
  [KType TObject;
   KProperties
     [("type", [KEnum ["wms"]]);
      ("id", number_);
      ("serverUrls", [KType TArray; KItems string_]);
      ("name", string_);
      ("imageFormat", string_);
      ("legend", [KType TObject; KOneOf [ref "wmsLegend"; ref "urlLegend"]]);
      ("sourceLink", string_);
      ("sourceLabel", string_);
      ("times", [KType TArray; KItems [KType TString; KPattern time_pattern]]);
      ("styles", ref "labels");
      ("visible", boolean_);
      ("statistics",
       [KType TArray;
        KItems [KOneOf [ref "attributesStatistics"; ref "urlStatistics"]]])];
   KRequired ["id"; "name"; "serverUrls"];
   KAdditionalProperties false].

Definition bingAerial : schema :=
  [KType TObject;
   KProperties [("type", [KEnum ["bing-aerial"]]); ("id", number_); ("visible", boolean_)];
   KRequired ["type"; "id"];
   KAdditionalProperties false].

Definition osm : schema :=
  [KType TObject;
   KProperties [("type", [KEnum ["osm"]]); ("id", number_); ("visible", boolean_)];
   KRequired ["type"; "id"];
   KAdditionalProperties false].

Definition items : schema :=
  [KType TArray; KItems [KType TObject; KOneOf [ref "group"; ref "context"]]].

Definition context : schema :=
  [KType TObject;
   KProperties [("context", number_)];
   KRequired ["context"];
   KAdditionalProperties false].

Definition group : schema :=
  [KType TObject;
   KProperties
     [("group",
       [KType TObject;
        KProperties [("labels", ref "labels"); ("infoFile", string_);
                     ("exclusive", boolean_); ("items", ref "items")];
        KRequired ["labels"];
        KAdditionalProperties false])];
   KRequired ["group"];
   KAdditionalProperties false].

Definition attributesStatistics : schema :=
  [KType TObject;
   KProperties
     [("type", [KEnum ["attributes"]]);
      ("labels", ref "labels");
      ("attributes",
       [KType TArray;
        KItems [KProperties [("labels", ref "labels"); ("attribute", string_)];
                KRequired ["labels"; "attribute"];
                KAdditionalProperties false]])];
   KAdditionalProperties false;
   KRequired ["type"]].

Definition urlStatistics : schema :=
  [KType TObject;
   KProperties [("type", [KEnum ["url"]]); ("labels", ref "labels"); ("url", string_)];
   KAdditionalProperties false;
   KRequired ["type"; "url"]].

Definition wmsLegend : schema :=
  [KProperties [("type", [KEnum ["wms"]]); ("style", string_)];
   KAdditionalProperties false;
   KRequired ["type"; "style"]].

Definition urlLegend : schema :=
  [KProperties [("type", [KEnum ["url"]]); ("url", string_)];
   KAdditionalProperties false;
   KRequired ["type"; "url"]].

Definition definitions : list (string * schema) :=
  [("labels", labels); ("wms", wms); ("bingAerial", bingAerial); ("osm", osm);
   ("items", items); ("context", context); ("group", group);
   ("attributesStatistics", attributesStatistics); ("urlStatistics", urlStatistics);
   ("wmsLegend", wmsLegend); ("urlLegend", urlLegend)].

(** The schema of the whole document. *)
Definition document : schema :=
  [KType TObject;
   KProperties
     [("$schema", string_);
      ("layers", [KType TArray; KItems [KOneOf [ref "wms"; ref "bingAerial"; ref "osm"]]]);
      ("contexts",
       [KType TArray;
        KItems [KType TObject;
                KProperties
                  [("id", number_); ("infoFile", string_); ("labels", ref "labels");
                   ("inlineLegendUrl", string_); ("downloadUrl", string_);
                   ("layers", [KType TArray; KItems number_]);
                   ("active", boolean_)];
                KRequired ["id"];
                KAdditionalProperties false]]);
      ("group",
       [KType TObject;
        KProperties [("items", ref "items"); ("exclusive", boolean_)];
        KAdditionalProperties false])];
   KAdditionalProperties false;
   KRequired ["layers"; "contexts"; "group"]].

End ConfigSchema.

(** Enough fuel for a document: validation against this schema enters at
    most six schemas for each level of the document. *)
Definition fuel_for (doc : json) : nat := 6 * depth doc + 12.

(** The validator of the configuration document. *)
Definition validate_document (regex_match : string -> string -> bool) (doc : json)
    : option (list violation) :=
  validate regex_match ConfigSchema.definitions (fuel_for doc) [] ConfigSchema.document doc.


(** * A sample configuration *)

Module Sample.

Definition t01 := mkTime "2020-01-01".
Definition t02 := mkTime "2020-01-02".
Definition t03 := mkTime "2020-01-03".

(** Layer A: wms, two times, an empty [statistics] array. *)
Definition layerA : Layer.t := Layer.mk 1 1 wms [t01; t02] (Some []).
(** Layer B: wms, two times, one statistics descriptor. *)
Definition layerB : Layer.t :=
  Layer.mk 2 2 wms [t02; t03] (Some [UrlStatistics "stats"]).
(** Layer C: an OpenStreetMap base layer, no [statistics]. *)
Definition layerC : Layer.t := Layer.mk 3 3 osm [] None.
(** A replacement for layer B, a new object with the same id. *)
Definition layerB' : Layer.t := Layer.mk 4 2 wms [t03] None.

Definition group (id : Z) (items : list loc) (parent : option loc) : Item.t :=
  Item.mk id true "group" [("en", "group")] None false false None
          (Some items) None [] parent.
Definition context (id : Z) (active : bool) (layers : list (option Layer.t))
    (parent : option loc) : Item.t :=
  Item.mk id false "context" [("en", "context")] None false active None
          None (Some layers) [] parent.

(** The tree: root (at 1) holds a subgroup (at 2) and context 10 (at 3);
    the subgroup holds context 11 (at 4). *)
Definition objects : gmap loc Item.t :=
  <[1%positive := group 100 [2; 3]%positive None]>
  (<[2%positive := group 101 [4%positive] (Some 1%positive)]>
  (<[3%positive := context 10 true [Some layerA; Some layerB] (Some 1%positive)]>
  (<[4%positive := context 11 false [Some layerB; Some layerC] (Some 2%positive)]> ∅))).

Definition state : State :=
  mkState objects [layerA; layerB; layerC] [3; 4]%positive (Some 1%positive) None
          ∅ None false [10] true (Some 2%positive) None false.

Definition parse : string -> option Z := JSDate.parse 0.

End Sample.

(** * Properties of the store *)

(** ** Running handlers *)

Lemma run_bind {A B} (m : M A) (f : A -> M B) (s : State) :
  (m ≫= f) s = match m s with
               | (Ok a, s') => f a s'
               | (Throw e, s') => (Throw e, s')
               end.
Proof. reflexivity. Qed.

Lemma run_bind_ok {A B} (m : M A) (f : A -> M B) (s s' : State) (a : A) :
  m s = (Ok a, s') -> (m ≫= f) s = f a s'.
Proof. intros H. rewrite run_bind, H. reflexivity. Qed.

Lemma run_load (l : loc) (s : State) (it : Item.t) :
  heap s !! l = Some it -> load l s = (Ok it, s).
Proof. intros H. unfold load. rewrite H. reflexivity. Qed.

Lemma run_store (l : loc) (f : Item.t -> Item.t) (s : State) (it : Item.t) :
  heap s !! l = Some it -> store l f s = (Ok tt, set_heap (<[l := f it]> (heap s)) s).
Proof. intros H. unfold store. rewrite H. reflexivity. Qed.

Lemma run_groups_findById (id : Z) (s : State) (r : option loc) :
  resolve s id = Ok r -> groups_findById id s = (Ok r, s).
Proof. intros H. unfold groups_findById. rewrite H. reflexivity. Qed.

Lemma run_lift {A} (r : result A) (s : State) : lift r s = (r, s).
Proof. reflexivity. Qed.

Lemma run_get (s : State) : get s = (Ok s, s).
Proof. reflexivity. Qed.

Lemma run_modify (f : State -> State) (s : State) : modify f s = (Ok tt, f s).
Proof. reflexivity. Qed.

Lemma run_bind_inv {A B} (m : M A) (f : A -> M B) (s s' : State) (b : B) :
  (m ≫= f) s = (Ok b, s') -> exists a s1, m s = (Ok a, s1) /\ f a s1 = (Ok b, s').
Proof.
  rewrite run_bind. destruct (m s) as [[a|e] s1]; [|discriminate]. eauto.
Qed.

Lemma run_lift_inv {A} (r : result A) (s s' : State) (a : A) :
  lift r s = (Ok a, s') -> r = Ok a /\ s' = s.
Proof. unfold lift. intros H. injection H as -> ->. auto. Qed.

Lemma run_store_inv (l : loc) (f : Item.t -> Item.t) (s s' : State) :
  store l f s = (Ok tt, s') ->
  exists it, heap s !! l = Some it /\ s' = set_heap (<[l := f it]> (heap s)) s.
Proof.
  unfold store. destruct (heap s !! l) as [it|]; [|discriminate].
  intros H. injection H as <-. eauto.
Qed.

(** One step of a handler whose first action ends normally. *)
Tactic Notation "run_step" uconstr(H) :=
  rewrite run_bind; erewrite H; cbv beta iota.

(** ** Tree lookup returns live objects carrying the requested id *)

Lemma first_hit_Some {A B} (f : A -> result (option B)) (l : list A) (y : B) :
  first_hit f l = Ok (Some y) -> exists x, In x l /\ f x = Ok (Some y).
Proof.
  induction l as [|x l IH]; simpl; [discriminate|].
  destruct (f x) as [[b|]|e] eqn:Hfx; simpl; intros H.
  - injection H as <-. exists x. auto.
  - destruct (IH H) as (x' & Hin & Hx'). exists x'. auto.
  - discriminate.
Qed.

Lemma findById_from_Some (fuel : nat) (h : gmap loc Item.t) (r : loc) (id : Z) (l : loc) :
  findById_from fuel h r id = Ok (Some l) ->
  exists it, h !! l = Some it /\ Item.id it = id.
Proof.
  revert r. induction fuel as [|n IH]; intros r; simpl; [discriminate|].
  destruct (h !! r) as [it|] eqn:Hr; simpl; [|discriminate].
  destruct (Item.id it =? id) eqn:Hid.
  - intros H. injection H as <-. exists it. split; [assumption|]. lia.
  - destruct (Item.items it) as [children|]; [|discriminate].
    intros H. apply first_hit_Some in H as (c & _ & Hc). eauto.
Qed.

Lemma resolve_Some (s : State) (id : Z) (l : loc) :
  resolve s id = Ok (Some l) -> exists it, heap s !! l = Some it /\ Item.id it = id.
Proof.
  unfold resolve. destruct (groups s) as [root|]; simpl; [|discriminate].
  apply findById_from_Some.
Qed.

(** ** Selecting an item for editing *)

Lemma edit_item_resolved (s : State) (id : Z) (l : loc) (it : Item.t) :
  resolve s id = Ok (Some l) -> heap s !! l = Some it ->
  edit_item id s =
    (Ok tt, if Item.isGroup it then set_editGroup (Some l) s
            else set_editContext (Some l) s).
Proof.
  intros Hres Hl. unfold edit_item.
  run_step (run_groups_findById _ _ _ Hres).
  run_step (run_load _ _ _ Hl).
  destruct (Item.isGroup it); reflexivity.
Qed.

Lemma edit_item_unresolved (s : State) (id : Z) :
  resolve s id = Ok None ->
  edit_item id s = (Ok tt, set_editContext None (set_editGroup None s)).
Proof.
  intros Hres. unfold edit_item.
  run_step (run_groups_findById _ _ _ Hres).
  reflexivity.
Qed.

(** C10: an edit-select whose id resolves updates only the editing reference
    of the node's kind: a Group sets [editGroup] and keeps [editContext], a
    Context sets [editContext] and keeps [editGroup]; hence after selecting a
    Group and then a Context both references are set.  Only an id that does
    not resolve clears both. *)
Theorem edit_item_updates_reference_of_kind (s : State) (id : Z) :
  (forall l, resolve s id = Ok (Some l) ->
     exists it s', heap s !! l = Some it /\ edit_item id s = (Ok tt, s') /\
       (if Item.isGroup it
        then editGroup s' = Some l /\ editContext s' = editContext s
        else editContext s' = Some l /\ editGroup s' = editGroup s) /\
       (is_Some (editGroup s) -> is_Some (editGroup s')) /\
       (is_Some (editContext s) -> is_Some (editContext s'))) /\
  (forall idc lg lc itg itc,
     resolve s id = Ok (Some lg) -> heap s !! lg = Some itg -> Item.isGroup itg = true ->
     resolve s idc = Ok (Some lc) -> heap s !! lc = Some itc -> Item.isGroup itc = false ->
     exists s2, (edit_item id;; edit_item idc) s = (Ok tt, s2) /\
       editGroup s2 = Some lg /\ editContext s2 = Some lc) /\
  (resolve s id = Ok None ->
     exists s', edit_item id s = (Ok tt, s') /\
       editGroup s' = None /\ editContext s' = None).
Proof.
  split; [|split].
  - intros l Hres. destruct (resolve_Some _ _ _ Hres) as (it & Hl & _).
    exists it. eexists. split; [exact Hl|]. split; [exact (edit_item_resolved _ _ _ _ Hres Hl)|].
    destruct (Item.isGroup it); simpl; auto.
  - intros idc lg lc itg itc Hg Hlg Hig Hc Hlc Hic.
    eexists. split.
    + rewrite (run_bind_ok _ _ s _ tt (edit_item_resolved _ _ _ _ Hg Hlg)).
      rewrite Hig. apply (edit_item_resolved (set_editGroup (Some lg) s) idc lc itc).
      * exact Hc.
      * exact Hlc.
    + rewrite Hic. simpl. auto.
  - intros Hres. eexists. split; [exact (edit_item_unresolved _ _ Hres)|]. simpl. auto.
Qed.

(** ** Arrays: [findIndex], [indexOf] and [splice] *)

Lemma findIndex_range {A} (p : A -> bool) (l : list A) :
  findIndex p l = -1 \/ 0 <= findIndex p l < Z.of_nat (length l).
Proof.
  induction l as [|x l IH]; simpl; [left; reflexivity|].
  destruct (p x); [right; lia|].
  destruct (findIndex p l <? 0) eqn:E; [left; reflexivity|].
  right. apply Z.ltb_ge in E. lia.
Qed.

Lemma findIndex_none {A} (p : A -> bool) (l : list A) :
  findIndex p l = -1 <-> (forall x, In x l -> p x = false).
Proof.
  induction l as [|x l IH]; simpl.
  - split; [intros _ y []|reflexivity].
  - destruct (p x) eqn:Hpx.
    + split; [discriminate|]. intros H. rewrite (H x) in Hpx by auto. discriminate.
    + destruct (findIndex_range p l) as [E|E].
      * rewrite E. simpl. split; [|reflexivity].
        intros _ y [<-|Hy]; [assumption|]. now apply IH.
      * destruct (findIndex p l <? 0) eqn:Hlt; [apply Z.ltb_lt in Hlt; lia|].
        split; [lia|]. intros H. assert (findIndex p l = -1) by (apply IH; auto). lia.
Qed.

(** When [findIndex] answers an index, the array splits there: nothing
    before it satisfies [p], and [splice(index, 1)] removes that element. *)
Lemma findIndex_split {A} (p : A -> bool) (l : list A) :
  0 <= findIndex p l ->
  exists l1 x l2,
    l = l1 ++ x :: l2 /\ p x = true /\ (forall y, In y l1 -> p y = false) /\
    findIndex p l = Z.of_nat (length l1) /\
    splice1 (findIndex p l) l = l1 ++ l2.
Proof.
  induction l as [|x l IH]; simpl; [lia|].
  destruct (p x) eqn:Hpx.
  - intros _. exists [], x, l. repeat split; auto. intros y [].
  - destruct (findIndex p l <? 0) eqn:Hlt; [lia|]. apply Z.ltb_ge in Hlt.
    intros _. destruct (IH Hlt) as (l1 & y & l2 & -> & Hy & Hl1 & Hidx & Hsp).
    exists (x :: l1), y, l2. repeat split; auto.
    + intros z [<-|Hz]; auto.
    + simpl length. lia.
    + unfold splice1 in *. rewrite Hidx in *.
      replace (Z.to_nat (Z.of_nat (length l1) + 1)) with (S (length l1)) by lia.
      rewrite Nat2Z.id in Hsp. simpl. f_equal. exact Hsp.
Qed.

Lemma indexOf_absent (x : Z) (l : list Z) : indexOf x l = -1 <-> ~ In x l.
Proof.
  unfold indexOf. rewrite findIndex_none. split.
  - intros H Hin. specialize (H x Hin). rewrite Z.eqb_refl in H. discriminate.
  - intros H y Hy. apply Z.eqb_neq. intros ->. auto.
Qed.

Lemma indexOf_split (x : Z) (l : list Z) :
  In x l ->
  exists l1 l2, l = l1 ++ x :: l2 /\ ~ In x l1 /\ splice1 (indexOf x l) l = l1 ++ l2.
Proof.
  intros Hin.
  assert (0 <= indexOf x l) as Hge.
  { destruct (findIndex_range (Z.eqb x) l) as [E|E]; [|unfold indexOf; lia].
    apply indexOf_absent in E. contradiction. }
  destruct (findIndex_split _ _ Hge) as (l1 & y & l2 & Hl & Hy & Hl1 & _ & Hsp).
  apply Z.eqb_eq in Hy. subst y. exists l1, l2. repeat split; auto.
  intros H. specialize (Hl1 x H). rewrite Z.eqb_refl in Hl1. discriminate.
Qed.

(** ** Toggling a context *)

Lemma toggle_context_absent (s : State) (contextId : Z) (c : loc) :
  context_by_id s contextId = Ok (Some c) ->
  ~ In contextId (activeContextsIds s) ->
  toggle_context contextId s =
    (Ok tt, set_activeContextsIds (activeContextsIds s ++ [contextId]) s).
Proof.
  intros Hc Habs. unfold toggle_context.
  run_step (run_get s). rewrite run_bind, run_lift, Hc. cbv beta iota zeta.
  apply indexOf_absent in Habs. rewrite Habs. reflexivity.
Qed.

Lemma toggle_context_present (s : State) (contextId : Z) (c : loc) :
  context_by_id s contextId = Ok (Some c) ->
  In contextId (activeContextsIds s) ->
  exists l1 l2,
    activeContextsIds s = l1 ++ contextId :: l2 /\ ~ In contextId l1 /\
    toggle_context contextId s = (Ok tt, set_activeContextsIds (l1 ++ l2) s).
Proof.
  intros Hc Hin. destruct (indexOf_split _ _ Hin) as (l1 & l2 & Hl & Hl1 & Hsp).
  exists l1, l2. repeat split; auto. unfold toggle_context.
  run_step (run_get s). rewrite run_bind, run_lift, Hc. cbv beta iota zeta.
  destruct (indexOf contextId (activeContextsIds s) =? -1) eqn:E.
  - apply Z.eqb_eq, indexOf_absent in E. contradiction.
  - rewrite Hsp. reflexivity.
Qed.

Lemma toggle_context_unresolved (s : State) (contextId : Z) :
  context_by_id s contextId = Ok None -> toggle_context contextId s = (Ok tt, s).
Proof.
  intros Hc. unfold toggle_context.
  run_step (run_get s). rewrite run_bind, run_lift, Hc. reflexivity.
Qed.

(** C6: for a context id that resolves, one toggle adds the id to
    [activeContextsIds] when it is absent and removes it when it is present,
    keeping every other id; toggling twice gives back the same set of active
    ids.  The active ids form a set: [activeContextsIds] holds no id twice.
    Nothing else in the state changes. *)
Theorem toggle_context_flips_membership (s : State) (contextId : Z) (c : loc) :
  context_by_id s contextId = Ok (Some c) ->
  List.NoDup (activeContextsIds s) ->
  exists s1 s2,
    toggle_context contextId s = (Ok tt, s1) /\
    toggle_context contextId s1 = (Ok tt, s2) /\
    (In contextId (activeContextsIds s1) <-> ~ In contextId (activeContextsIds s)) /\
    (forall x, x <> contextId ->
       (In x (activeContextsIds s1) <-> In x (activeContextsIds s))) /\
    List.NoDup (activeContextsIds s1) /\
    Permutation (activeContextsIds s2) (activeContextsIds s) /\
    s1 = set_activeContextsIds (activeContextsIds s1) s /\
    s2 = set_activeContextsIds (activeContextsIds s2) s.
Proof.
  intros Hc Hnd.
  destruct (in_dec Z.eq_dec contextId (activeContextsIds s)) as [Hin|Hout].
  - destruct (toggle_context_present _ _ _ Hc Hin) as (l1 & l2 & Hl & Hl1 & Hrun).
    assert (~ In contextId (l1 ++ l2)) as Hgone
      by (rewrite Hl in Hnd; now apply List.NoDup_remove_2 in Hnd).
    eexists. eexists. split; [exact Hrun|]. split.
    { apply (toggle_context_absent _ _ c); [exact Hc|exact Hgone]. }
    simpl. repeat split; try tauto.
    + intros Hx. rewrite Hl, in_app_iff in *. simpl. tauto.
    + rewrite Hl, !in_app_iff. simpl. intros [?|[?|?]]; auto. congruence.
    + rewrite Hl in Hnd. now apply List.NoDup_remove_1 in Hnd.
    + rewrite Hl. rewrite <- Permutation_cons_append. apply Permutation_middle.
  - pose proof (toggle_context_absent _ _ _ Hc Hout) as Hrun.
    assert (In contextId (activeContextsIds s ++ [contextId])) as Hin
      by (apply in_app_iff; simpl; auto).
    destruct (toggle_context_present
                (set_activeContextsIds (activeContextsIds s ++ [contextId]) s)
                contextId c Hc Hin) as (l1 & l2 & Hl & Hl1 & Hrun2).
    simpl in Hl.
    eexists. eexists. split; [exact Hrun|]. split; [exact Hrun2|].
    simpl. repeat split; try tauto.
    + intros Hx. apply in_app_iff in Hx. simpl in Hx. intuition congruence.
    + intros Hx. apply in_app_iff. auto.
    + apply List.NoDup_app; [exact Hnd|repeat constructor; intros []|].
      intros x Hx [<-|[]]. contradiction.
    + apply (Permutation_cons_inv (a := contextId)).
      rewrite Permutation_middle, <- Hl. symmetry. apply Permutation_cons_append.
Qed.

(** ** The set of active ids *)

Lemma reduce_active_ids (cs : list Item.t) (acc : list Z) :
  reduce (fun a c => if Item.active c then a ++ [Item.id c] else a) acc cs
  = acc ++ map Item.id (List.filter Item.active cs).
Proof.
  unfold reduce. revert acc. induction cs as [|c cs IH]; intros acc; simpl.
  - now rewrite app_nil_r.
  - rewrite IH. destruct (Item.active c); simpl; [now rewrite <- app_assoc|reflexivity].
Qed.

Lemma NoDup_map_filter {A B} (f : A -> B) (p : A -> bool) (l : list A) :
  List.NoDup (map f l) -> List.NoDup (map f (List.filter p l)).
Proof.
  induction l as [|x l IH]; simpl; [auto|]. intros H. apply List.NoDup_cons_iff in H as (Hx & Hl).
  destruct (p x); simpl; [|auto]. constructor; [|auto].
  intros Hin. apply Hx. apply in_map_iff in Hin as (y & Hy & Hin).
  apply filter_In in Hin as (Hin & _). apply in_map_iff. eauto.
Qed.

(** Only [receive_layers] and [toggle_context] write [activeContextsIds].
    After the initial load it lists the ids of the contexts flagged active,
    in the order of the contexts, so it holds no id twice when the contexts
    have distinct ids; a toggle keeps this (C6). *)
Lemma receive_layers_active_ids (Date_parse : string -> option Z)
    (layersConf : LayersConf) (s s' : State) :
  receive_layers Date_parse layersConf s = (Ok tt, s') ->
  exists cs,
    mapM (fun c => defined (heap s' !! c)) (contexts s') = Ok cs /\
    activeContextsIds s' = map Item.id (List.filter Item.active cs) /\
    (List.NoDup (map Item.id cs) -> List.NoDup (activeContextsIds s')).
Proof.
  unfold receive_layers. intros H.
  apply run_bind_inv in H as ([] & s1 & _ & H).
  apply run_bind_inv in H as ([] & s2 & _ & H).
  apply run_bind_inv in H as ([] & s3 & _ & H).
  apply run_bind_inv in H as ([] & s4 & _ & H).
  apply run_bind_inv in H as (s5 & s6 & Hget & H). injection Hget as <- <-.
  apply run_bind_inv in H as (cs & s6 & Hcs & H). apply run_lift_inv in Hcs as (Hcs & ->).
  rewrite run_modify in H. injection H as <-.
  exists cs. cbn [heap contexts activeContextsIds set_activeContextsIds].
  split; [exact Hcs|]. rewrite reduce_active_ids. simpl.
  split; [reflexivity|apply NoDup_map_filter].
Qed.

(** ** Reparenting *)

(** The loop [items.forEach(item => { item.parent = group })]: it ends
    normally when every item is a live object, stamps exactly the listed
    objects and writes nothing but their [parent]. *)
Lemma forEach_set_parent (g : loc) (value : list loc) (s : State) :
  (forall item, In item value -> is_Some (heap s !! item)) ->
  exists h',
    forEach (fun item => store item (Item.set_parent (Some g))) value s
      = (Ok tt, set_heap h' s) /\
    (forall l, In l value -> h' !! l = Item.set_parent (Some g) <$> heap s !! l) /\
    (forall l, ~ In l value -> h' !! l = heap s !! l).
Proof.
  revert s. induction value as [|x value IH]; intros s Hlive.
  - exists (heap s). simpl. split; [destruct s; reflexivity|]. split; [intros l []|auto].
  - destruct (Hlive x (or_introl eq_refl)) as [ix Hx].
    destruct (IH (set_heap (<[x := Item.set_parent (Some g) ix]> (heap s)) s))
      as (h' & Hrun & Hin & Hout).
    { intros item Hitem. simpl. destruct (decide (x = item)) as [->|Hne].
      - rewrite lookup_insert_eq. eauto.
      - rewrite lookup_insert_ne by assumption. apply Hlive. now right. }
    exists h'. split; [|split].
    + simpl forEach. run_step (run_store _ _ _ _ Hx). rewrite Hrun. reflexivity.
    + intros l [->|Hl].
      * destruct (in_dec Pos.eq_dec l value) as [Hl|Hl].
        -- rewrite (Hin l Hl). simpl. rewrite lookup_insert_eq, Hx. reflexivity.
        -- rewrite (Hout l Hl). simpl. rewrite lookup_insert_eq, Hx. reflexivity.
      * rewrite (Hin l Hl). simpl. destruct (decide (x = l)) as [->|Hne].
        -- rewrite lookup_insert_eq, Hx. reflexivity.
        -- rewrite lookup_insert_ne by assumption. reflexivity.
    + intros l Hl. simpl in Hl. rewrite Hout by tauto. simpl.
      rewrite lookup_insert_ne by (intros ->; tauto). reflexivity.
Qed.

(** What one [update_group] does when the group id resolves and the new
    list holds live objects. *)
Lemma update_group_resolved (s : State) (groupId : Z) (g : loc) (value : list loc) :
  resolve s groupId = Ok (Some g) ->
  (forall item, In item value -> is_Some (heap s !! item)) ->
  exists h' git,
    update_group groupId value s = (Ok tt, set_heap h' s) /\
    heap s !! g = Some git /\
    (forall l, In l value ->
       h' !! l = Item.set_parent (Some g)
                   <$> (<[g := Item.set_items (Some value) git]> (heap s)) !! l) /\
    (forall l, ~ In l value ->
       h' !! l = (<[g := Item.set_items (Some value) git]> (heap s)) !! l).
Proof.
  intros Hres Hlive. destruct (resolve_Some _ _ _ Hres) as (git & Hg & _).
  set (s1 := set_heap (<[g := Item.set_items (Some value) git]> (heap s)) s).
  destruct (forEach_set_parent g value s1) as (h' & Hrun & Hin & Hout).
  { intros item Hitem. simpl. destruct (decide (g = item)) as [->|Hne].
    - rewrite lookup_insert_eq. eauto.
    - rewrite lookup_insert_ne by assumption. auto. }
  exists h', git. split; [|split; [exact Hg|split; assumption]].
  unfold update_group.
  run_step (run_groups_findById _ _ _ Hres).
  run_step (run_store _ _ _ _ Hg). fold s1.
  rewrite run_bind, run_lift. simpl defined. cbv beta iota.
  assert (heap s1 !! g = Some (Item.set_items (Some value) git)) as Hg1
    by (simpl; apply lookup_insert_eq).
  run_step (run_load _ _ _ Hg1).
  rewrite run_bind, run_lift. simpl defined. cbv beta iota.
  exact Hrun.
Qed.

Lemma update_group_effect (s : State) (groupId : Z) (g : loc) (value : list loc) :
  resolve s groupId = Ok (Some g) ->
  (forall item, In item value -> is_Some (heap s !! item)) ->
  exists s',
    update_group groupId value s = (Ok tt, s') /\
    s' = set_heap (heap s') s /\
    (exists git, heap s' !! g = Some git /\ Item.items git = Some value) /\
    (forall item, In item value ->
       exists it, heap s' !! item = Some it /\ Item.parent it = Some g) /\
    (forall l it, heap s !! l = Some it -> l <> g ->
       exists it', heap s' !! l = Some it' /\ Item.items it' = Item.items it).
Proof.
  intros Hres Hlive.
  destruct (update_group_resolved _ _ _ _ Hres Hlive) as (h' & git & Hrun & Hg & Hin & Hout).
  exists (set_heap h' s). split; [exact Hrun|]. split; [reflexivity|]. simpl.
  assert (forall l, exists it0, (<[g := Item.set_items (Some value) git]> (heap s)) !! l = it0 /\
            h' !! l = it0 \/ h' !! l = Item.set_parent (Some g) <$> it0) as Hcases.
  { intros l. eexists. destruct (in_dec Pos.eq_dec l value) as [Hl|Hl].
    - right. apply (Hin l Hl).
    - left. split; [reflexivity|]. apply (Hout l Hl). }
  split; [|split].
  - destruct (in_dec Pos.eq_dec g value) as [Hl|Hl].
    + rewrite (Hin g Hl), lookup_insert_eq. simpl. eauto.
    + rewrite (Hout g Hl), lookup_insert_eq. eauto.
  - intros item Hitem. rewrite (Hin item Hitem).
    destruct (decide (g = item)) as [->|Hne].
    + rewrite lookup_insert_eq. simpl. eauto.
    + rewrite lookup_insert_ne by assumption.
      destruct (Hlive item Hitem) as [it Hit]. rewrite Hit. simpl. eauto.
  - intros l it Hl Hne. destruct (in_dec Pos.eq_dec l value) as [Hv|Hv].
    + rewrite (Hin l Hv), lookup_insert_ne, Hl by congruence. simpl. eauto.
    + rewrite (Hout l Hv), lookup_insert_ne, Hl by congruence. eauto.
Qed.

(** C8: when the group id resolves to [G] and [V] lists live items, the
    reparent operation leaves [G.items] equal to [V] and the [parent] of
    every item of [V] equal to [G].  Hence moving an item [x] from [G1] to
    [G2] by two such updates (the list of [G1] without [x], the list of [G2]
    with [x] inserted) shortens [G1.items] by one, lengthens [G2.items] by
    one and leaves [x.parent] at [G2]. *)
Theorem update_group_restamps_parent :
  (forall (s : State) (groupId : Z) (G : loc) (V : list loc),
     resolve s groupId = Ok (Some G) ->
     (forall item, In item V -> is_Some (heap s !! item)) ->
     exists s',
       update_group groupId V s = (Ok tt, s') /\
       (exists git, heap s' !! G = Some git /\ Item.items git = Some V) /\
       (forall item, In item V ->
          exists it, heap s' !! item = Some it /\ Item.parent it = Some G)) /\
  (forall (s s1 : State) (id1 id2 : Z) (G1 G2 x : loc) (it1 it2 : Item.t)
          (pre post its2 : list loc) (k : nat),
     G1 <> G2 ->
     resolve s id1 = Ok (Some G1) -> heap s !! G1 = Some it1 ->
     Item.items it1 = Some (pre ++ x :: post) ->
     heap s !! G2 = Some it2 -> Item.items it2 = Some its2 ->
     (forall item, In item (pre ++ x :: post ++ its2) -> is_Some (heap s !! item)) ->
     update_group id1 (pre ++ post) s = (Ok tt, s1) ->
     resolve s1 id2 = Ok (Some G2) ->
     exists s2 it1' it2' itx,
       update_group id2 (take k its2 ++ x :: drop k its2) s1 = (Ok tt, s2) /\
       heap s2 !! G1 = Some it1' /\ heap s2 !! G2 = Some it2' /\ heap s2 !! x = Some itx /\
       (exists l1, Item.items it1' = Some l1 /\
                   (length l1 + 1 = length (pre ++ x :: post))%nat) /\
       (exists l2, Item.items it2' = Some l2 /\
                   (length l2 = length its2 + 1)%nat) /\
       Item.parent itx = Some G2).
Proof.
  split.
  - intros s groupId G V Hres Hlive.
    destruct (update_group_effect _ _ _ _ Hres Hlive) as (s' & Hrun & _ & HG & HV & _).
    exists s'. auto.
  - intros s s1 id1 id2 G1 G2 x it1 it2 pre post its2 k Hne Hres1 HG1 Hits1 HG2 Hits2
           Hlive Hrun1 Hres2.
    destruct (update_group_effect s id1 G1 (pre ++ post) Hres1)
      as (s1' & Hrun1' & _ & (g1a & Hg1a & Hg1items) & _ & Hframe1).
    { intros item Hitem. apply Hlive. rewrite in_app_iff in *. simpl.
      rewrite in_app_iff. tauto. }
    rewrite Hrun1 in Hrun1'. injection Hrun1' as <-.
    assert (forall l, is_Some (heap s !! l) -> is_Some (heap s1 !! l)) as Hdom.
    { intros l [it Hl]. destruct (decide (l = G1)) as [->|Hl1]; [eauto|].
      destruct (Hframe1 l it Hl Hl1) as (it' & Hl' & _). eauto. }
    destruct (update_group_effect s1 id2 G2 (take k its2 ++ x :: drop k its2) Hres2)
      as (s2 & Hrun2 & _ & (g2b & Hg2b & Hg2items) & Hpar2 & Hframe2).
    { intros item Hitem. apply Hdom, Hlive. rewrite in_app_iff in Hitem. simpl in Hitem.
      rewrite !in_app_iff. simpl. rewrite in_app_iff.
      assert (In item (take k its2) \/ In item (drop k its2) -> In item its2) as Hin2
        by (rewrite <- (take_drop k its2) at 3; apply in_or_app).
      destruct Hitem as [H|[H|H]]; auto 6. }
    destruct (Hframe2 G1 g1a Hg1a Hne) as (it1' & Hit1' & Hitems1').
    destruct (Hpar2 x) as (itx & Hx & Hparent).
    { apply in_app_iff. simpl. auto. }
    exists s2, it1', g2b, itx. repeat split; auto.
    + exists (pre ++ post). split; [congruence|]. rewrite !length_app. simpl. lia.
    + eexists. split; [exact Hg2items|].
      rewrite length_app. simpl. rewrite length_take, length_drop. lia.
Qed.

(** ** Arrays: concatenation, first occurrences, sorting *)

Lemma reduce_concat {A B} (f : A -> list B) (l : list A) (acc : list B) :
  reduce (fun acc x => acc ++ f x) acc l = acc ++ concat (map f l).
Proof.
  unfold reduce. revert acc. induction l as [|x l IH]; intros acc; simpl.
  - now rewrite app_nil_r.
  - rewrite IH, app_assoc. reflexivity.
Qed.

(** De-duplication by ISO-8601 text, first occurrence kept: [seen] holds the
    texts met so far. *)
Fixpoint keep_first (seen : list string) (l : list Time) : list Time :=
  match l with
  | [] => []
  | t :: l' =>
      if existsb (String.eqb (iso8601 t)) seen then keep_first seen l'
      else t :: keep_first (iso8601 t :: seen) l'
  end.

Lemma findIndex_app_hit {A} (p : A -> bool) (pre : list A) (x : A) (l : list A) :
  p x = true ->
  findIndex p (pre ++ x :: l) =
    if existsb p pre then findIndex p pre else Z.of_nat (length pre).
Proof.
  intros Hx. induction pre as [|y pre IH]; simpl.
  - now rewrite Hx.
  - destruct (p y); simpl; [reflexivity|]. rewrite IH.
    destruct (existsb p pre) eqn:E; [reflexivity|].
    destruct (Z.of_nat (length pre) <? 0) eqn:Hlt; [apply Z.ltb_lt in Hlt; lia|].
    lia.
Qed.

Lemma findIndex_first_occurrence {A} (p : A -> bool) (pre : list A) (x : A) (l : list A) :
  p x = true ->
  (findIndex p (pre ++ x :: l) =? Z.of_nat (length pre)) = negb (existsb p pre).
Proof.
  intros Hx. rewrite findIndex_app_hit by assumption.
  destruct (existsb p pre) eqn:E; simpl; [|apply Z.eqb_refl].
  apply Z.eqb_neq. destruct (findIndex_range p pre) as [H|H]; lia.
Qed.

Lemma existsb_iso_seen (t : Time) (pre : list Time) :
  existsb (fun el => String.eqb (iso8601 el) (iso8601 t)) pre
  = existsb (String.eqb (iso8601 t)) (map iso8601 pre).
Proof.
  induction pre as [|y pre IH]; simpl; [reflexivity|].
  rewrite IH, (String.eqb_sym (iso8601 y)). reflexivity.
Qed.

Lemma existsb_ext_perm (x : string) (l1 l2 : list string) :
  (forall y, In y l1 <-> In y l2) ->
  existsb (String.eqb x) l1 = existsb (String.eqb x) l2.
Proof.
  intros H. apply eq_true_iff_eq. rewrite !existsb_exists.
  split; intros (y & Hy & E); exists y; split; auto; now apply H.
Qed.

Lemma keep_first_seen_ext (seen1 seen2 : list string) (l : list Time) :
  (forall y, In y seen1 <-> In y seen2) -> keep_first seen1 l = keep_first seen2 l.
Proof.
  revert seen1 seen2. induction l as [|t l IH]; intros seen1 seen2 H; simpl; [reflexivity|].
  rewrite (existsb_ext_perm _ _ _ H).
  destruct (existsb _ seen2); [now apply IH|].
  f_equal. apply IH. intros y. simpl. rewrite H. reflexivity.
Qed.

(** The filter [(elem, pos, arr) => arr.findIndex(same text) === pos] keeps
    exactly the first occurrence of every text. *)
Lemma filter_from_keep_first (pre l : list Time) :
  filter_from
    (fun elem pos =>
       findIndex (fun el => String.eqb (iso8601 el) (iso8601 elem)) (pre ++ l) =? pos)
    (Z.of_nat (length pre)) l
  = keep_first (map iso8601 pre) l.
Proof.
  revert pre. induction l as [|t l IH]; intros pre; simpl; [reflexivity|].
  rewrite findIndex_first_occurrence by apply String.eqb_refl.
  rewrite existsb_iso_seen.
  replace (Z.of_nat (length pre) + 1) with (Z.of_nat (length (pre ++ [t])))
    by (rewrite length_app; simpl; lia).
  replace (pre ++ t :: l) with ((pre ++ [t]) ++ l) by (now rewrite <- app_assoc).
  rewrite (IH (pre ++ [t])).
  assert (keep_first (map iso8601 (pre ++ [t])) l = keep_first (iso8601 t :: map iso8601 pre) l)
    as -> by (apply keep_first_seen_ext; intros y; rewrite map_app, in_app_iff; simpl; tauto).
  destruct (existsb _ (map iso8601 pre)) eqn:E; simpl.
  - apply keep_first_seen_ext. intros y. simpl. split; [|tauto].
    intros [<-|?]; [|assumption]. apply existsb_exists in E as (z & Hz & Ez).
    apply String.eqb_eq in Ez. now subst.
  - reflexivity.
Qed.

Lemma filter_pos_keep_first (arr : list Time) :
  filter_pos (fun elem pos arr =>
                findIndex (fun el => String.eqb (iso8601 el) (iso8601 elem)) arr =? pos) arr
  = keep_first [] arr.
Proof. exact (filter_from_keep_first [] arr). Qed.

Lemma keep_first_In (seen : list string) (l : list Time) (t : Time) :
  In t (keep_first seen l) <-> In t l /\ ~ In (iso8601 t) seen.
Proof.
  revert seen. induction l as [|x l IH]; intros seen; simpl; [tauto|].
  destruct (existsb (String.eqb (iso8601 x)) seen) eqn:E.
  - rewrite IH. apply existsb_exists in E as (z & Hz & Ez). apply String.eqb_eq in Ez.
    subst z. split; [tauto|]. intros [[<-|H] Hs]; [contradiction|tauto].
  - assert (~ In (iso8601 x) seen) as Hx.
    { intros H. apply not_true_iff_false in E. apply E, existsb_exists.
      exists (iso8601 x). split; [assumption|apply String.eqb_refl]. }
    simpl. rewrite IH. simpl. split.
    + intros [<-|(H1 & H2)]; [tauto|]. tauto.
    + intros [[<-|H] Hs]; [tauto|].
      destruct (Time_eq_dec x t) as [->|Hne]; [tauto|]. right. split; [assumption|].
      intros [H'|H']; [|contradiction]. destruct x, t. simpl in H'. congruence.
Qed.

Lemma keep_first_NoDup (seen : list string) (l : list Time) :
  List.NoDup (map iso8601 (keep_first seen l)).
Proof.
  revert seen. induction l as [|x l IH]; intros seen; simpl; [constructor|].
  destruct (existsb (String.eqb (iso8601 x)) seen); [apply IH|].
  simpl. constructor; [|apply IH].
  intros H. apply in_map_iff in H as (t & Ht & Hin).
  apply keep_first_In in Hin as (_ & Hin). apply Hin. simpl. auto.
Qed.

Lemma insert_sorted_perm {A} (cmp : A -> A -> Z) (x : A) (l : list A) :
  Permutation (insert_sorted cmp x l) (x :: l).
Proof.
  induction l as [|y l IH]; simpl; [reflexivity|].
  destruct (cmp x y <=? 0); [reflexivity|].
  rewrite IH. apply perm_swap.
Qed.

Lemma sort_perm {A} (cmp : A -> A -> Z) (l : list A) : Permutation (JS.sort cmp l) l.
Proof.
  induction l as [|x l IH]; simpl; [reflexivity|].
  rewrite insert_sorted_perm. now constructor.
Qed.

Section TimeOrder.

Variable Date_parse : string -> option Z.

(** [t] carries a text [Date.parse] understands. *)
Definition parses (t : Time) : Prop := is_Some (Date_parse (iso8601 t)).

(** [t1] is an instant not after [t2]. *)
Definition instant_le (t1 t2 : Time) : Prop :=
  exists a b, Date_parse (iso8601 t1) = Some a /\
              Date_parse (iso8601 t2) = Some b /\ a <= b.


Lemma instant_le_trans (t1 t2 t3 : Time) :
  instant_le t1 t2 -> instant_le t2 t3 -> instant_le t1 t3.
Proof.
  intros (a & b & Ha & Hb & Hab) (b' & c & Hb' & Hc & Hbc).
  exists a, c. repeat split; auto. rewrite Hb in Hb'. injection Hb' as <-. lia.
Qed.

Lemma compareTimes_le (t1 t2 : Time) :
  parses t1 -> parses t2 ->
  (compareTimes Date_parse t1 t2 <= 0 <-> instant_le t1 t2).
Proof.
  intros [a Ha] [b Hb]. unfold compareTimes, instant_le. rewrite Ha, Hb. split.
  - intros H. exists a, b. repeat split; auto. lia.
  - intros (a' & b' & Ha' & Hb' & H). injection Ha' as <-. injection Hb' as <-. lia.
Qed.

Lemma compareTimes_gt (t1 t2 : Time) :
  parses t1 -> parses t2 ->
  0 < compareTimes Date_parse t1 t2 -> instant_le t2 t1.
Proof.
  intros [a Ha] [b Hb]. unfold compareTimes, instant_le. rewrite Ha, Hb.
  intros H. exists b, a. repeat split; auto. lia.
Qed.

Lemma insert_sorted_sorted (x : Time) (l : list Time) :
  parses x -> Forall parses l ->
  StronglySorted instant_le l ->
  StronglySorted instant_le (insert_sorted (compareTimes Date_parse) x l).
Proof.
  intros Hx Hl Hs. induction Hs as [|y l Hs IH Hy]; simpl.
  - repeat constructor.
  - apply Forall_cons_iff in Hl as [Hpy Hl].
    destruct (compareTimes Date_parse x y <=? 0) eqn:E.
    + apply Z.leb_le, compareTimes_le in E; try assumption.
      constructor; [now constructor|]. constructor; [assumption|].
      eapply List.Forall_impl; [|exact Hy]. intros z Hz. now apply (instant_le_trans x y z).
    + apply Z.leb_gt in E. constructor; [now apply IH|].
      rewrite insert_sorted_perm.
      constructor; [now apply compareTimes_gt|assumption].
Qed.

Lemma sort_sorted (l : list Time) :
  Forall parses l -> StronglySorted instant_le (JS.sort (compareTimes Date_parse) l).
Proof.
  induction l as [|x l IH]; intros Hl; simpl; [constructor|].
  apply Forall_cons_iff in Hl as [Hx Hl]. apply insert_sorted_sorted; auto.
  now rewrite sort_perm.
Qed.


End TimeOrder.

(** ** The time aggregator *)

Lemma mapM_defined_Some {A} (l : list A) : mapM defined (map Some l) = Ok l.
Proof. induction l as [|x l IH]; simpl; [reflexivity|]. now rewrite IH. Qed.

Lemma mapM_defined_Ok {A} (l : list (option A)) (r : list A) :
  mapM defined l = Ok r -> l = map Some r.
Proof.
  revert r. induction l as [|[x|] l IH]; intros r; simpl.
  - intros H. now injection H as <-.
  - destruct (mapM defined l) as [r'|]; simpl; [|discriminate].
    intros H. injection H as <-. simpl. now rewrite (IH r').
  - discriminate.
Qed.

(** Every context of the list is a live object whose [layers] array holds
    layers only. *)
Definition contexts_resolved (h : gmap loc Item.t) (cs : list loc) : Prop :=
  forall c, In c cs ->
    exists it ls, h !! c = Some it /\ Item.layers it = Some (map Some ls).

Section Aggregator.

Variable Date_parse : string -> option Z.

(** The member layers that contribute times: [wms] layers that declare at
    least one time. *)
Definition contributes (l : Layer.t) : bool :=
  bool_decide (Layer.type l = wms) && negb (length (Layer.times l) =? 0)%nat.

(** The aggregate as the specification words it: concatenate the times of
    the contributing layers, keep the first occurrence of every text, sort
    by instant. *)
Definition aggregate (ls : list Layer.t) : list Time :=
  JS.sort (compareTimes Date_parse)
    (keep_first [] (concat (map Layer.times (List.filter contributes ls)))).

Lemma contextTimes_aggregate (c : Item.t) (ls : list Layer.t) :
  Item.layers c = Some (map Some ls) ->
  contextTimes Date_parse c = Ok (aggregate ls).
Proof.
  intros Hls. unfold contextTimes. rewrite Hls. simpl.
  rewrite mapM_defined_Some. simpl.
  rewrite reduce_concat, filter_pos_keep_first. reflexivity.
Qed.

Lemma contextTimes_Ok (c : Item.t) (ts : list Time) :
  contextTimes Date_parse c = Ok ts ->
  exists ls, Item.layers c = Some (map Some ls) /\ ts = aggregate ls.
Proof.
  unfold contextTimes. destruct (Item.layers c) as [ls|]; simpl; [|discriminate].
  destruct (mapM defined ls) as [ws|] eqn:Hws; simpl; [|discriminate].
  intros H. injection H as <-. exists ws. split.
  - now rewrite (mapM_defined_Ok _ _ Hws).
  - rewrite reduce_concat, filter_pos_keep_first. reflexivity.
Qed.

(** The object of a context once its times are recomputed. *)
Definition retime (it : Item.t) : Item.t :=
  match contextTimes Date_parse it with
  | Ok ts => Item.set_times ts it
  | Throw _ => it
  end.

(** The entry a context contributes to the array [contextsTimes]. *)
Definition record_time (h : gmap loc Item.t) (acc : gmap Z Time) (c : loc)
    : gmap Z Time :=
  match h !! c with
  | Some it =>
      match last (Item.times (retime it)) with
      | Some t => <[Item.id it := t]> acc
      | None => acc
      end
  | None => acc
  end.

Lemma retime_retime (it : Item.t) : retime (retime it) = retime it.
Proof.
  unfold retime. destruct (contextTimes Date_parse it) as [ts|e] eqn:E.
  - change (contextTimes Date_parse (Item.set_times ts it))
      with (contextTimes Date_parse it). now rewrite E.
  - now rewrite E.
Qed.

Lemma retime_id (it : Item.t) : Item.id (retime it) = Item.id it.
Proof. unfold retime. now destruct (contextTimes Date_parse it). Qed.

Lemma retime_layers (it : Item.t) : Item.layers (retime it) = Item.layers it.
Proof. unfold retime. now destruct (contextTimes Date_parse it). Qed.

Lemma record_time_retimed (h : gmap loc Item.t) (c : loc) (it : Item.t) :
  h !! c = Some it ->
  forall acc c', record_time (<[c := retime it]> h) acc c' = record_time h acc c'.
Proof.
  intros Hc acc c'. unfold record_time. destruct (decide (c = c')) as [<-|Hne].
  - now rewrite lookup_insert_eq, Hc, retime_retime, retime_id.
  - now rewrite lookup_insert_ne.
Qed.

Lemma fold_left_ext {A B} (f g : A -> B -> A) (l : list B) (a : A) :
  (forall a b, f a b = g a b) -> fold_left f l a = fold_left g l a.
Proof.
  intros H. revert a. induction l as [|b l IH]; intros a; simpl; [reflexivity|].
  now rewrite H, IH.
Qed.

(** The loop of [setContextsTimes], when it ends normally: every context
    was a live object whose layers could be read; each gets its recomputed
    times, no other object is written, and the local array holds what the
    contexts recorded in turn. *)
Lemma setContextsTimes_loop_inv (cs : list loc) :
  forall (s s' : State) (acc acc' : gmap Z Time),
    setContextsTimes_loop Date_parse acc cs s = (Ok acc', s') ->
    s' = set_heap (heap s') s /\
    (forall c, In c cs ->
       exists it ts, heap s !! c = Some it /\ contextTimes Date_parse it = Ok ts) /\
    (forall l, heap s' !! l =
               if in_dec Pos.eq_dec l cs then retime <$> heap s !! l else heap s !! l) /\
    acc' = fold_left (record_time (heap s)) cs acc.
Proof.
  induction cs as [|c cs IH]; intros s s' acc acc'; simpl.
  - intros H. injection H as <- <-. destruct s; simpl. repeat split; auto. intros c [].
  - rewrite run_bind. unfold setContextTimes at 1. rewrite run_bind. unfold load at 1.
    destruct (heap s !! c) as [it|] eqn:Hc; simpl; [|discriminate].
    rewrite run_bind, run_lift.
    destruct (contextTimes Date_parse it) as [ts|e] eqn:Hts; [|discriminate].
    cbv beta iota. rewrite run_bind. erewrite run_store by exact Hc. cbv beta iota.
    assert (Item.set_times ts it = retime it) as Hre by (unfold retime; now rewrite Hts).
    rewrite Hre.
    assert (ts = Item.times (retime it)) as Hts' by (now rewrite <- Hre).
    intros Hrun. apply IH in Hrun as (Hs' & Hlive & Hheap & Hacc).
    cbn [heap set_heap] in Hs', Hlive, Hheap, Hacc.
    split; [|split; [|split]].
    + rewrite Hs'. reflexivity.
    + intros c' [<-|Hc']; [eauto|]. destruct (Hlive c' Hc') as (it' & ts' & Hit' & Hts'').
      destruct (decide (c = c')) as [<-|Hne].
      * eauto.
      * rewrite lookup_insert_ne in Hit' by assumption. eauto.
    + intros l. rewrite Hheap. destruct (decide (c = l)) as [<-|Hne].
      * rewrite lookup_insert_eq, Hc. cbn [fmap option_fmap option_map]. rewrite retime_retime.
        cbn [in_dec list_rec list_rect]. destruct (Pos.eq_dec c c); [|congruence].
        now destruct (in_dec Pos.eq_dec c cs).
      * rewrite lookup_insert_ne by assumption. cbn [in_dec list_rec list_rect].
        destruct (Pos.eq_dec c l); [congruence|]. now destruct (in_dec Pos.eq_dec l cs).
    + rewrite Hacc. rewrite (fold_left_ext _ _ _ _ (record_time_retimed _ _ _ Hc)).
      f_equal. unfold record_time. rewrite Hc, <- Hts'. reflexivity.
Qed.

(** Distinct contexts of the list carry distinct ids. *)
Definition ids_unique (h : gmap loc Item.t) (cs : list loc) : Prop :=
  forall c1 c2 it1 it2,
    In c1 cs -> In c2 cs -> h !! c1 = Some it1 -> h !! c2 = Some it2 ->
    Item.id it1 = Item.id it2 -> c1 = c2.

Lemma ids_unique_app_l (h : gmap loc Item.t) (cs1 cs2 : list loc) :
  ids_unique h (cs1 ++ cs2) -> ids_unique h cs1.
Proof.
  intros H c1 c2 it1 it2 H1 H2. apply H; apply in_app_iff; auto.
Qed.

Lemma record_table_lookup_in (h : gmap loc Item.t) (cs : list loc) (acc : gmap Z Time)
    (c : loc) (it : Item.t) (t : Time) :
  ids_unique h cs -> In c cs -> h !! c = Some it ->
  last (Item.times (retime it)) = Some t ->
  fold_left (record_time h) cs acc !! Item.id it = Some t.
Proof.
  induction cs as [|x cs IH] using rev_ind; intros Huniq Hin Hc Ht; [destruct Hin|].
  rewrite fold_left_app. simpl. unfold record_time at 1.
  destruct (decide (x = c)) as [->|Hne].
  - rewrite Hc, Ht. apply lookup_insert_eq.
  - assert (In c cs) as Hcs
      by (apply in_app_iff in Hin as [?|[?|[]]]; [assumption|congruence]).
    specialize (IH (ids_unique_app_l _ _ _ Huniq) Hcs Hc Ht).
    destruct (h !! x) as [itx|] eqn:Hx; [|exact IH].
    destruct (last (Item.times (retime itx))) as [tx|]; [|exact IH].
    rewrite lookup_insert_ne; [exact IH|].
    intros Hid. apply Hne. apply (Huniq x c itx it); auto.
    apply in_app_iff. simpl. auto.
Qed.

Lemma record_table_lookup_inv (h : gmap loc Item.t) (cs : list loc) (acc : gmap Z Time)
    (k : Z) (t : Time) :
  fold_left (record_time h) cs acc !! k = Some t ->
  acc !! k = Some t \/
  exists c it, In c cs /\ h !! c = Some it /\ Item.id it = k /\
               last (Item.times (retime it)) = Some t.
Proof.
  induction cs as [|x cs IH] using rev_ind; simpl; [auto|].
  rewrite fold_left_app. simpl. unfold record_time at 1.
  assert (fold_left (record_time h) cs acc !! k = Some t ->
          acc !! k = Some t \/
          exists c it, In c (cs ++ [x]) /\ h !! c = Some it /\ Item.id it = k /\
                       last (Item.times (retime it)) = Some t) as IH'.
  { intros H. destruct (IH H) as [?|(c & it & Hc & Hrest)]; [auto|].
    right. exists c, it. split; [apply in_app_iff; auto|exact Hrest]. }
  destruct (h !! x) as [itx|] eqn:Hx; [|exact IH'].
  destruct (last (Item.times (retime itx))) as [tx|] eqn:Htx; [|exact IH'].
  destruct (decide (Item.id itx = k)) as [<-|Hne].
  - rewrite lookup_insert_eq. intros H. injection H as <-. right.
    exists x, itx. repeat split; auto. apply in_app_iff. simpl. auto.
  - rewrite lookup_insert_ne by assumption. exact IH'.
Qed.

(** The state the aggregator leaves: every context of the list has its
    [times] equal to the aggregate of its layers; [contextsTimes] holds, for
    every context with a non-empty sequence, the last element of the
    sequence, and nothing else. *)
Definition aggregated (s : State) : Prop :=
  (forall c, In c (contexts s) ->
     exists it ls, heap s !! c = Some it /\ Item.layers it = Some (map Some ls) /\
                   Item.times it = aggregate ls) /\
  (ids_unique (heap s) (contexts s) ->
   forall c it t, In c (contexts s) -> heap s !! c = Some it ->
     last (Item.times it) = Some t -> contextsTimes s !! Item.id it = Some t) /\
  (forall k t, contextsTimes s !! k = Some t ->
     exists c it, In c (contexts s) /\ heap s !! c = Some it /\ Item.id it = k /\
                  last (Item.times it) = Some t).

Lemma setContextsTimes_inv (s s' : State) :
  setContextsTimes Date_parse s = (Ok tt, s') ->
  s' = set_contextsTimes (contextsTimes s') (set_heap (heap s') s) /\
  (forall c, In c (contexts s) ->
     exists it ts, heap s !! c = Some it /\ contextTimes Date_parse it = Ok ts) /\
  (forall l, heap s' !! l =
             if in_dec Pos.eq_dec l (contexts s) then retime <$> heap s !! l
             else heap s !! l) /\
  contextsTimes s' = fold_left (record_time (heap s)) (contexts s) ∅.
Proof.
  unfold setContextsTimes. rewrite run_bind, run_get. cbv beta iota. rewrite run_bind.
  destruct (setContextsTimes_loop Date_parse ∅ (contexts s) s) as [[acc'|e] s1] eqn:Hloop;
    [|discriminate].
  apply setContextsTimes_loop_inv in Hloop as (Hs1 & Hlive & Hheap & Hacc).
  rewrite run_modify. intros H. injection H as <-. simpl.
  repeat split; auto. rewrite Hs1 at 1. reflexivity.
Qed.

Lemma setContextsTimes_aggregated (s s' : State) :
  setContextsTimes Date_parse s = (Ok tt, s') -> aggregated s'.
Proof.
  intros Hrun. apply setContextsTimes_inv in Hrun as (Hs' & Hlive & Hheap & Hct).
  assert (contexts s' = contexts s) as Hcs by (rewrite Hs'; reflexivity).
  assert (forall c, In c (contexts s) ->
            exists it, heap s !! c = Some it /\ heap s' !! c = Some (retime it)) as Hre.
  { intros c Hc. destruct (Hlive c Hc) as (it & ts & Hit & _). exists it.
    split; [assumption|]. rewrite Hheap.
    destruct (in_dec Pos.eq_dec c (contexts s)); [|contradiction]. now rewrite Hit. }
  unfold aggregated. rewrite Hcs. split; [|split].
  - intros c Hc. destruct (Hlive c Hc) as (it & ts & Hit & Hts).
    destruct (Hre c Hc) as (it0 & Hit0 & Hc').
    rewrite Hit in Hit0. injection Hit0 as <-.
    destruct (contextTimes_Ok _ _ Hts) as (ls & Hls & ->).
    exists (retime it), ls. split; [assumption|].
    rewrite retime_layers. split; [assumption|].
    unfold retime. now rewrite Hts.
  - intros Huniq c it' t Hc Hc' Ht. destruct (Hre c Hc) as (it & Hit & Hit').
    rewrite Hit' in Hc'. injection Hc' as <-. rewrite Hct, retime_id.
    apply (record_table_lookup_in _ _ _ c); auto.
    intros c1 c2 it1 it2 H1 H2 Hc1 Hc2 Hid.
    destruct (Hre c1 H1) as (it1' & Hit1 & Hit1').
    destruct (Hre c2 H2) as (it2' & Hit2 & Hit2').
    rewrite Hc1 in Hit1. injection Hit1 as <-. rewrite Hc2 in Hit2. injection Hit2 as <-.
    apply (Huniq c1 c2 _ _ H1 H2 Hit1' Hit2'). now rewrite !retime_id.
  - intros k t Hk. rewrite Hct in Hk.
    apply record_table_lookup_inv in Hk as [Hk|(c & it & Hc & Hit & Hid & Ht)].
    + rewrite lookup_empty in Hk. discriminate.
    + destruct (Hre c Hc) as (it0 & Hit0 & Hc'). rewrite Hit in Hit0. injection Hit0 as <-.
      exists c, (retime it). rewrite retime_id. auto.
Qed.

Lemma setContextsTimes_loop_total (cs : list loc) :
  forall (s : State) (acc : gmap Z Time),
    contexts_resolved (heap s) cs ->
    exists acc' s', setContextsTimes_loop Date_parse acc cs s = (Ok acc', s').
Proof.
  induction cs as [|c cs IH]; intros s acc Hres; simpl; [eexists; eexists; reflexivity|].
  destruct (Hres c (or_introl eq_refl)) as (it & ls & Hc & Hls).
  rewrite run_bind. unfold setContextTimes at 1.
  run_step (run_load _ _ _ Hc).
  rewrite run_bind, run_lift, (contextTimes_aggregate _ _ Hls). cbv beta iota.
  run_step (run_store _ _ _ _ Hc). cbn [mret M_ret].
  apply IH. intros c' Hc'. cbn [heap set_heap]. destruct (decide (c = c')) as [<-|Hne].
  - rewrite lookup_insert_eq. eexists. exists ls. split; [reflexivity|exact Hls].
  - rewrite lookup_insert_ne by assumption. apply Hres. now right.
Qed.

Lemma setContextsTimes_total (s : State) :
  contexts_resolved (heap s) (contexts s) ->
  exists s', setContextsTimes Date_parse s = (Ok tt, s').
Proof.
  intros Hres. unfold setContextsTimes. rewrite run_bind, run_get. cbv beta iota.
  destruct (setContextsTimes_loop_total _ s ∅ Hres) as (acc' & s' & Hloop).
  rewrite run_bind, Hloop. cbv beta iota. rewrite run_modify. eauto.
Qed.

End Aggregator.

(** ** Operations that end with the aggregator *)



Section AggregatingOps.

Variable Date_parse : string -> option Z.




End AggregatingOps.

Lemma aggregate_facts (Date_parse : string -> option Z) (ls : list Layer.t) :
  let collected := concat (map Layer.times (List.filter contributes ls)) in
  Permutation (aggregate Date_parse ls) (keep_first [] collected) /\
  (forall t, In t (aggregate Date_parse ls) <-> In t collected) /\
  List.NoDup (map iso8601 (aggregate Date_parse ls)) /\
  (Forall (parses Date_parse) (aggregate Date_parse ls) ->
   StronglySorted (instant_le Date_parse) (aggregate Date_parse ls)).
Proof.
  intros collected. unfold aggregate. fold collected.
  pose proof (sort_perm (compareTimes Date_parse) (keep_first [] collected)) as Hperm.
  split; [exact Hperm|]. split; [|split].
  - intros t. split.
    + intros H. apply (Permutation_in _ Hperm), keep_first_In in H. tauto.
    + intros H. apply (Permutation_in _ (Permutation_sym Hperm)), keep_first_In.
      split; [assumption|intros []].
  - apply (Permutation_NoDup (l := map iso8601 (keep_first [] collected))).
    + apply Permutation_map. now symmetry.
    + apply keep_first_NoDup.
  - intros Hp. apply sort_sorted. now rewrite <- Hperm.
Qed.

(** C3: the time aggregator ends normally when every context holds layers
    only.  When it ends normally, every context of the state it started from
    was an object [it0] whose [layers] held layers [ls] only, and it is left
    as that same object with only [times] replaced: [layers] and every other
    property are as they were.  The new [times] are the times of the wms
    layers among [ls] that declare at least one time, concatenated in layer
    order, with only the first occurrence of every ISO-8601 text kept,
    sorted by instant: they are a permutation of the de-duplicated
    concatenation and hold no text twice; when every text collected is a
    date [Date.parse] reads, they ascend by instant and are the stable
    ordering of the de-duplicated concatenation.  Layers A and B with times
    [2020-01-01, 2020-01-02] and [2020-01-02, 2020-01-03] give
    [2020-01-01, 2020-01-02, 2020-01-03]. *)
Theorem setContextsTimes_sorted_union (Date_parse : string -> option Z) :
  (forall s : State,
     contexts_resolved (heap s) (contexts s) ->
     exists s', setContextsTimes Date_parse s = (Ok tt, s')) /\
  (forall (s s' : State) (c : loc),
     setContextsTimes Date_parse s = (Ok tt, s') -> In c (contexts s) ->
     exists it0 ls ts,
       heap s !! c = Some it0 /\ Item.layers it0 = Some (map Some ls) /\
       heap s' !! c = Some (Item.set_times ts it0) /\
       let collected := concat (map Layer.times (List.filter contributes ls)) in
       Permutation ts (keep_first [] collected) /\
       (forall t, In t ts <-> In t collected) /\
       List.NoDup (map iso8601 ts) /\
       (Forall (parses Date_parse) collected ->
        StronglySorted (instant_le Date_parse) ts /\
        ts = JS.sort (compareTimes Date_parse) (keep_first [] collected))) /\
  (forall (localOffset : Z) (A B : Layer.t) (c : Item.t),
     Layer.type A = wms -> Layer.type B = wms ->
     Layer.times A = [mkTime "2020-01-01"; mkTime "2020-01-02"] ->
     Layer.times B = [mkTime "2020-01-02"; mkTime "2020-01-03"] ->
     Item.layers c = Some [Some A; Some B] ->
     contextTimes (JSDate.parse localOffset) c
       = Ok [mkTime "2020-01-01"; mkTime "2020-01-02"; mkTime "2020-01-03"]).
Proof.
  split; [exact (setContextsTimes_total Date_parse)|]. split.
  - intros s s' c Hrun Hc.
    apply setContextsTimes_inv in Hrun as (_ & Hlive & Hheap & _).
    destruct (Hlive c Hc) as (it0 & ts & Hit0 & Hts).
    destruct (contextTimes_Ok _ _ _ Hts) as (ls & Hls & ->).
    exists it0, ls, (aggregate Date_parse ls).
    split; [assumption|]. split; [assumption|]. split.
    { rewrite Hheap. destruct (in_dec Pos.eq_dec c (contexts s)); [|contradiction].
      rewrite Hit0. cbn [fmap option_fmap option_map]. unfold retime. now rewrite Hts. }
    intros collected.
    destruct (aggregate_facts Date_parse ls) as (Hperm & Hin & Hnodup & Hsorted).
    fold collected in Hperm, Hin.
    split; [exact Hperm|]. split; [exact Hin|]. split; [exact Hnodup|].
    intros Hparse. split; [|reflexivity].
    apply Hsorted. apply List.Forall_forall. intros t Ht.
    rewrite List.Forall_forall in Hparse. now apply Hparse, Hin.
  - intros localOffset A B c HA HB HtA HtB Hc.
    rewrite (contextTimes_aggregate _ c [A; B] Hc).
    unfold aggregate, contributes. cbn [List.filter]. rewrite HA, HB, HtA, HtB.
    rewrite bool_decide_eq_true_2 by reflexivity.
    cbn [length Nat.eqb negb andb map concat app]. rewrite HtA, HtB.
    vm_compute. reflexivity.
Qed.

(** ** Replacing the layer catalog *)

(** The re-resolution of [update_layers], as the specification words it: the
    layers of the new catalog found by the ids of the old references, in the
    order of the old references, unresolved ones left out. *)
Definition reresolve (value ls : list Layer.t) : list Layer.t :=
  omap (fun layer => find (fun l' => Layer.id l' =? Layer.id layer) value) ls.

(** The object of a context once its layers are re-resolved. *)
Definition swap_layers (value : list Layer.t) (it : Item.t) : Item.t :=
  match Item.layers it with
  | Some entries =>
      match mapM (swap_layer value) entries with
      | Ok found => Item.set_layers (Some (List.filter truthy found)) it
      | Throw _ => it
      end
  | None => it
  end.

Lemma find_Some {A} (p : A -> bool) (l : list A) (x : A) :
  find p l = Some x -> In x l /\ p x = true.
Proof.
  induction l as [|y l IH]; simpl; [discriminate|].
  destruct (p y) eqn:Hy.
  - intros H. injection H as <-. auto.
  - intros H. destruct (IH H). auto.
Qed.

Lemma find_ext {A} (p q : A -> bool) (l : list A) :
  (forall x, p x = q x) -> find p l = find q l.
Proof. intros H. induction l as [|y l IH]; simpl; [reflexivity|]. now rewrite H, IH. Qed.

(** On a layer the callback is the plain [find] by id. *)
Lemma swap_layer_Some (value : list Layer.t) (l : Layer.t) :
  swap_layer value (Some l) = Ok (find (fun l' => Layer.id l' =? Layer.id l) value).
Proof.
  unfold swap_layer. induction value as [|l' value IH]; simpl; [reflexivity|].
  now destruct (Layer.id l' =? Layer.id l).
Qed.

(** On an [undefined] entry it answers [undefined] for an empty catalog and
    raises otherwise. *)
Lemma swap_layer_None (value : list Layer.t) :
  swap_layer value None = match value with [] => Ok None | _ :: _ => Throw TypeError end.
Proof. now destruct value. Qed.

Lemma omap_id_map_Some {A} (l : list A) : omap id (map Some l) = l.
Proof. induction l as [|x l IH]; [reflexivity|]. csimpl. now rewrite IH. Qed.

Lemma mapM_swap_layer_Ok (value : list Layer.t) (entries found : list (option Layer.t)) :
  mapM (swap_layer value) entries = Ok found ->
  List.filter truthy found = map Some (reresolve value (omap id entries)).
Proof.
  revert found. induction entries as [|[l|] entries IH]; intros found;
    cbn [mapM]; [|rewrite swap_layer_Some|rewrite swap_layer_None].
  - intros H. now injection H as <-.
  - cbn [mbind result_bind].
    destruct (mapM (swap_layer value) entries) as [found'|]; [|discriminate].
    intros H. injection H as <-. pose proof (IH found' eq_refl) as Hf.
    unfold reresolve in *. csimpl.
    destruct (find _ value); simpl; now rewrite Hf.
  - destruct value; [|discriminate]. cbn [mbind result_bind].
    destruct (mapM (swap_layer []) entries) as [found'|]; [|discriminate].
    intros H. injection H as <-. csimpl. exact (IH found' eq_refl).
Qed.

Lemma mapM_swap_layer_Some (value ls : list Layer.t) :
  exists found, mapM (swap_layer value) (map Some ls) = Ok found.
Proof.
  induction ls as [|l ls [found IH]]; cbn [map mapM]; [eauto|].
  rewrite swap_layer_Some, IH. simpl. eauto.
Qed.

Lemma reresolve_In (value ls : list Layer.t) (l' : Layer.t) :
  In l' (reresolve value ls) ->
  In l' value /\ exists l, In l ls /\ Layer.id l' = Layer.id l.
Proof.
  unfold reresolve. intros H. apply list_elem_of_In, list_elem_of_omap in H as (l & Hl & Hf).
  apply list_elem_of_In in Hl. apply find_Some in Hf as (Hin & Hid).
  apply Z.eqb_eq in Hid. eauto.
Qed.

Lemma reresolve_idem (value ls : list Layer.t) :
  reresolve value (reresolve value ls) = reresolve value ls.
Proof.
  unfold reresolve. induction ls as [|l ls IH]; [reflexivity|]. csimpl.
  destruct (find (fun l' => Layer.id l' =? Layer.id l) value) as [l1|] eqn:Hf; [|exact IH].
  csimpl. rewrite IH.
  assert (find (fun l' => Layer.id l' =? Layer.id l1) value = Some l1) as ->; [|reflexivity].
  rewrite <- Hf. apply find_ext. intros x.
  apply find_Some in Hf as (_ & Hid). apply Z.eqb_eq in Hid. now rewrite Hid.
Qed.

Lemma map_Some_inj {A} (a b : list A) : map Some a = map Some b -> a = b.
Proof.
  revert b. induction a as [|x a IH]; intros [|y b]; simpl; try discriminate; [reflexivity|].
  intros H. injection H as -> H. now rewrite (IH b H).
Qed.

Lemma swap_layers_resolved (value : list Layer.t) (it : Item.t) (ls : list Layer.t) :
  Item.layers it = Some (map Some ls) ->
  swap_layers value it = Item.set_layers (Some (map Some (reresolve value ls))) it.
Proof.
  intros Hls. unfold swap_layers. rewrite Hls.
  destruct (mapM_swap_layer_Some value ls) as (found & Hfound). rewrite Hfound.
  apply mapM_swap_layer_Ok in Hfound as ->. now rewrite omap_id_map_Some.
Qed.

Lemma swap_layers_idem (value : list Layer.t) (it : Item.t) :
  swap_layers value (swap_layers value it) = swap_layers value it.
Proof.
  destruct (Item.layers it) as [entries|] eqn:Hl.
  - destruct (mapM (swap_layer value) entries) as [found|] eqn:Hfound.
    + assert (swap_layers value it
              = Item.set_layers (Some (map Some (reresolve value (omap id entries)))) it)
        as ->.
      { unfold swap_layers. rewrite Hl, Hfound.
        now rewrite (mapM_swap_layer_Ok _ _ _ Hfound). }
      rewrite (swap_layers_resolved value _ (reresolve value (omap id entries)))
        by reflexivity.
      now rewrite reresolve_idem.
    + unfold swap_layers at 2. rewrite Hl, Hfound. unfold swap_layers. now rewrite Hl, Hfound.
  - unfold swap_layers at 2. rewrite Hl. unfold swap_layers. now rewrite Hl.
Qed.

Lemma swap_layers_layers (value : list Layer.t) (it : Item.t) (ls : list Layer.t) :
  Item.layers it = Some (map Some ls) ->
  Item.layers (swap_layers value it) = Some (map Some (reresolve value ls)).
Proof. intros H. now rewrite (swap_layers_resolved _ _ _ H). Qed.

Lemma run_swap_context_layers (value : list Layer.t) (c : loc) (s : State)
    (it : Item.t) (ls : list Layer.t) :
  heap s !! c = Some it -> Item.layers it = Some (map Some ls) ->
  swap_context_layers value c s
    = (Ok tt, set_heap (<[c := swap_layers value it]> (heap s)) s).
Proof.
  intros Hc Hls. unfold swap_context_layers.
  run_step (run_load _ _ _ Hc). rewrite run_bind, run_lift, Hls. cbn [defined].
  cbv beta iota. rewrite run_bind, run_lift.
  destruct (mapM_swap_layer_Some value ls) as (found & Hfound). rewrite Hfound.
  cbv beta iota. erewrite run_store by exact Hc.
  unfold swap_layers. now rewrite Hls, Hfound.
Qed.

Lemma swap_context_layers_inv (value : list Layer.t) (c : loc) (s s' : State) :
  swap_context_layers value c s = (Ok tt, s') ->
  exists it, heap s !! c = Some it /\
             s' = set_heap (<[c := swap_layers value it]> (heap s)) s.
Proof.
  unfold swap_context_layers. intros H.
  apply run_bind_inv in H as (it & s1 & Hload & H).
  unfold load in Hload. destruct (heap s !! c) as [it0|] eqn:Hc; [|discriminate].
  injection Hload as <- <-.
  apply run_bind_inv in H as (entries & s1 & Hl & H). apply run_lift_inv in Hl as (Hl & ->).
  destruct (Item.layers it0) as [entries0|] eqn:Hls; [|discriminate]. injection Hl as <-.
  apply run_bind_inv in H as (found & s1 & Hf & H). apply run_lift_inv in Hf as (Hf & ->).
  apply run_store_inv in H as (it1 & Hit1 & ->). rewrite Hc in Hit1. injection Hit1 as <-.
  exists it0. split; [reflexivity|].
  unfold swap_layers. now rewrite Hls, Hf.
Qed.

Lemma forEach_swap_inv (value : list Layer.t) (cs : list loc) :
  forall s s' : State,
    forEach (swap_context_layers value) cs s = (Ok tt, s') ->
    s' = set_heap (heap s') s /\
    (forall c, In c cs -> is_Some (heap s !! c)) /\
    (forall l, heap s' !! l =
               if in_dec Pos.eq_dec l cs then swap_layers value <$> heap s !! l
               else heap s !! l).
Proof.
  induction cs as [|c cs IH]; intros s s'; simpl.
  - intros H. injection H as <-. destruct s. repeat split; auto. intros c [].
  - intros H. apply run_bind_inv in H as ([] & s1 & Hstep & H).
    apply swap_context_layers_inv in Hstep as (it & Hc & ->).
    apply IH in H as (Hs' & Hres & Hheap). cbn [heap set_heap] in Hs', Hres, Hheap.
    split; [|split].
    + rewrite Hs'. reflexivity.
    + intros c' [<-|Hc']; [eauto|]. destruct (Hres c' Hc') as (it' & Hit').
      destruct (decide (c = c')) as [<-|Hne]; [eauto|].
      rewrite lookup_insert_ne in Hit' by assumption. eauto.
    + intros l. rewrite Hheap. destruct (decide (c = l)) as [<-|Hne].
      * rewrite lookup_insert_eq, Hc. cbn [fmap option_fmap option_map].
        rewrite swap_layers_idem. destruct (Pos.eq_dec c c); [|congruence].
        now destruct (in_dec Pos.eq_dec c cs).
      * rewrite lookup_insert_ne by assumption.
        destruct (Pos.eq_dec c l); [congruence|]. now destruct (in_dec Pos.eq_dec l cs).
Qed.

Lemma forEach_swap_total (value : list Layer.t) (cs : list loc) :
  forall s : State,
    contexts_resolved (heap s) cs ->
    exists s', forEach (swap_context_layers value) cs s = (Ok tt, s').
Proof.
  induction cs as [|c cs IH]; intros s Hres; simpl; [eexists; reflexivity|].
  destruct (Hres c (or_introl eq_refl)) as (it & ls & Hc & Hls).
  destruct (IH (set_heap (<[c := swap_layers value it]> (heap s)) s)) as (s' & Hrun).
  { intros c' Hc'. cbn [heap set_heap]. destruct (decide (c = c')) as [<-|Hne].
    - rewrite lookup_insert_eq. eexists. eexists. split; [reflexivity|].
      exact (swap_layers_layers value it ls Hls).
    - rewrite lookup_insert_ne by assumption. apply Hres. now right. }
  exists s'. rewrite run_bind, (run_swap_context_layers _ _ _ _ _ Hc Hls). exact Hrun.
Qed.

Lemma find_None_existsb {A} (p : A -> bool) (l : list A) :
  find p l = None <-> existsb p l = false.
Proof.
  induction l as [|x l IH]; simpl; [tauto|]. destruct (p x); simpl; [|exact IH].
  split; discriminate.
Qed.

(** The ids of the re-resolved array are the ids of the old array, in the
    same order, without those the new catalog does not have. *)
Lemma reresolve_ids (value ls : list Layer.t) :
  map Layer.id (reresolve value ls)
  = List.filter (fun i => existsb (fun l' => Layer.id l' =? i) value) (map Layer.id ls).
Proof.
  unfold reresolve. induction ls as [|l ls IH]; [reflexivity|]. csimpl.
  destruct (find (fun l' => Layer.id l' =? Layer.id l) value) as [l1|] eqn:Hf.
  - assert (existsb (fun l' => Layer.id l' =? Layer.id l) value = true) as ->.
    { destruct (existsb _ value) eqn:E; [reflexivity|].
      apply find_None_existsb in E. congruence. }
    apply find_Some in Hf as (_ & Hid). apply Z.eqb_eq in Hid. csimpl.
    now rewrite Hid, IH.
  - apply find_None_existsb in Hf. now rewrite Hf.
Qed.

Section ReplaceCatalog.

Variable Date_parse : string -> option Z.

(** The run of [update_layers]: the loop over the contexts, then the
    aggregator, both ending normally. *)
Lemma update_layers_run (s : State) (L : list Layer.t) :
  contexts_resolved (heap s) (contexts s) ->
  exists s1 s',
    forEach (swap_context_layers L) (contexts s) (set_layers L s) = (Ok tt, s1) /\
    setContextsTimes Date_parse s1 = (Ok tt, s') /\
    update_layers Date_parse L s = (Ok tt, s').
Proof.
  intros Hres.
  destruct (forEach_swap_total L (contexts s) (set_layers L s) Hres) as (s1 & Hloop).
  pose proof Hloop as Hloop'.
  apply forEach_swap_inv in Hloop' as (Hs1 & _ & Hheap1). cbn [heap set_layers] in Hheap1.
  assert (contexts s1 = contexts s) as Hcs1 by (rewrite Hs1; reflexivity).
  destruct (setContextsTimes_total Date_parse s1) as (s' & Hagg).
  { rewrite Hcs1. intros c Hc. destruct (Hres c Hc) as (it & ls & Hit & Hls).
    exists (swap_layers L it), (reresolve L ls). split.
    - rewrite Hheap1. destruct (in_dec Pos.eq_dec c (contexts s)); [|contradiction].
      now rewrite Hit.
    - now apply swap_layers_layers. }
  exists s1, s'. split; [exact Hloop|]. split; [exact Hagg|].
  unfold update_layers. rewrite run_bind, run_modify. cbv beta iota.
  rewrite run_bind, run_get. cbv beta iota.
  change (contexts (set_layers L s)) with (contexts s).
  rewrite run_bind, Hloop. exact Hagg.
Qed.

(** C5: replacing the catalog by [L] when every context holds layers only
    ends normally; afterwards the catalog is [L] and the [layers] of every
    context are layers of [L] only (no empty entry): for each old entry, in
    order, the layer of [L] with the same id, entries whose id [L] lacks
    being left out. *)
Theorem update_layers_reresolves (s : State) (L : list Layer.t) :
  contexts_resolved (heap s) (contexts s) ->
  exists s',
    update_layers Date_parse L s = (Ok tt, s') /\
    layers s' = L /\ contexts s' = contexts s /\
    forall c it ls,
      In c (contexts s) -> heap s !! c = Some it -> Item.layers it = Some (map Some ls) ->
      exists it' ls',
        heap s' !! c = Some it' /\ Item.layers it' = Some (map Some ls') /\
        ls' = reresolve L ls /\
        (forall l', In l' ls' ->
           In l' L /\ exists l, In l ls /\ Layer.id l' = Layer.id l) /\
        map Layer.id ls'
        = List.filter (fun i => existsb (fun l' => Layer.id l' =? i) L) (map Layer.id ls).
Proof.
  intros Hres. destruct (update_layers_run s L Hres) as (s1 & s' & Hloop & Hagg & Hrun).
  apply forEach_swap_inv in Hloop as (Hs1 & _ & Hheap1). cbn [heap set_layers] in Hheap1.
  assert (contexts s1 = contexts s) as Hcs1 by (rewrite Hs1; reflexivity).
  apply setContextsTimes_inv in Hagg as (Hs' & _ & Hheap' & _).
  exists s'. split; [exact Hrun|]. split; [|split].
  - rewrite Hs'. cbn [layers set_contextsTimes set_heap]. rewrite Hs1. reflexivity.
  - rewrite Hs'. cbn [contexts set_contextsTimes set_heap]. exact Hcs1.
  - intros c it ls Hc Hit Hls.
    exists (retime Date_parse (swap_layers L it)), (reresolve L ls).
    split; [|split; [|split; [|split]]].
    + rewrite Hheap', Hcs1. destruct (in_dec Pos.eq_dec c (contexts s)); [|contradiction].
      rewrite Hheap1. destruct (in_dec Pos.eq_dec c (contexts s)); [|contradiction].
      now rewrite Hit.
    + rewrite retime_layers. now apply swap_layers_layers.
    + reflexivity.
    + apply reresolve_In.
    + apply reresolve_ids.
Qed.

End ReplaceCatalog.

(** ** Saving a context and loading a configuration *)

Lemma mapM_is_Ok {A B} (f : A -> result B) (l : list A) :
  (forall x, In x l -> exists y, f x = Ok y) -> exists r, mapM f l = Ok r.
Proof.
  induction l as [|x l IH]; intros H; simpl; [eauto|].
  destruct (H x (or_introl eq_refl)) as [y ->].
  destruct IH as [r ->]; [intros z Hz; apply H; now right|]. simpl. eauto.
Qed.

(** The catalog layers found for a list of ids, in the order of the ids. *)
Definition catalog_layers (catalog : list Layer.t) (layerIds : list Z)
    : list (option Layer.t) :=
  map (fun id => find (fun layer => Layer.id layer =? id) catalog) layerIds.

Lemma catalog_layers_resolved (catalog : list Layer.t) (layerIds : list Z)
    (ls : list Layer.t) :
  catalog_layers catalog layerIds = map Some ls ->
  map Layer.id ls = layerIds /\ (forall x, In x ls -> In x catalog).
Proof.
  unfold catalog_layers. revert ls.
  induction layerIds as [|id ids IH]; intros [|x ls]; simpl; try discriminate.
  - intros _. split; [reflexivity|intros x []].
  - intros H. injection H as Hx Hrest. destruct (IH ls Hrest) as (Hids & Hin).
    apply find_Some in Hx as (Hx & Hid). apply Z.eqb_eq in Hid.
    split; [now rewrite Hid, Hids|]. intros y [<-|Hy]; auto.
Qed.


Section SaveAndLoad.

Variable Date_parse : string -> option Z.

(** The run of [save_context] on a context that resolves, with layer ids
    that are all ids of catalog layers: the two stores, then the aggregator. *)
Lemma save_context_run (p : SaveContext) (s : State) (l : loc) (ls : list Layer.t) :
  resolve s (sc_id p) = Ok (Some l) ->
  catalog_layers (layers s) (sc_layerIds p) = map Some ls ->
  contexts_resolved (heap s) (contexts s) ->
  exists it s',
    heap s !! l = Some it /\
    setContextsTimes Date_parse
      (set_heap
         (<[l := Item.set_layers (Some (map Some ls))
                   (Item.set_context_fields (sc_label p) (sc_labels p) (sc_infoFile p)
                      (sc_active p) (sc_inlineLegendUrl p) it)]> (heap s)) s)
      = (Ok tt, s') /\
    save_context Date_parse p s = (Ok tt, s').
Proof.
  intros Hres Hls Hctx. destruct (resolve_Some _ _ _ Hres) as (it & Hit & _).
  set (it1 := Item.set_context_fields (sc_label p) (sc_labels p) (sc_infoFile p)
                (sc_active p) (sc_inlineLegendUrl p) it).
  set (it2 := Item.set_layers (Some (map Some ls)) it1).
  set (s2 := set_heap (<[l := it2]> (heap s)) s).
  destruct (setContextsTimes_total Date_parse s2) as (s' & Hagg).
  { intros c Hc. cbn [heap set_heap s2]. destruct (decide (l = c)) as [<-|Hne].
    - rewrite lookup_insert_eq. exists it2, ls. auto.
    - rewrite lookup_insert_ne by assumption. now apply Hctx. }
  exists it, s'. split; [exact Hit|]. split; [exact Hagg|].
  unfold save_context.
  run_step (run_groups_findById _ _ _ Hres).
  rewrite run_bind, run_lift. cbn [defined]. cbv beta iota.
  run_step (run_store _ _ _ _ Hit). fold it1.
  rewrite run_bind, run_get. cbv beta iota.
  rewrite run_bind.
  erewrite run_store by (cbn [heap set_heap]; apply lookup_insert_eq).
  cbv beta iota. cbn [heap set_heap layers].
  fold (catalog_layers (layers s) (sc_layerIds p)). rewrite Hls, insert_insert_eq.
  exact Hagg.
Qed.

(** X1: a save-context whose id resolves and whose layer ids are all ids of
    catalog layers, on a state whose contexts hold layers only, ends normally
    and leaves, as the [layers] of the context, the catalog layers with those
    ids, in the order of the ids. *)
Lemma save_context_resolves_layers (p : SaveContext) (s : State) (l : loc)
    (ls : list Layer.t) :
  resolve s (sc_id p) = Ok (Some l) ->
  catalog_layers (layers s) (sc_layerIds p) = map Some ls ->
  contexts_resolved (heap s) (contexts s) ->
  exists s' it',
    save_context Date_parse p s = (Ok tt, s') /\
    heap s' !! l = Some it' /\ Item.layers it' = Some (map Some ls) /\
    map Layer.id ls = sc_layerIds p /\ (forall x, In x ls -> In x (layers s)).
Proof.
  intros Hres Hls Hctx.
  destruct (save_context_run p s l ls Hres Hls Hctx) as (it & s' & Hit & Hagg & Hrun).
  set (it2 := Item.set_layers _ _) in Hagg.
  apply setContextsTimes_inv in Hagg as (_ & _ & Hheap & _).
  cbn [heap set_heap contexts] in Hheap.
  exists s'.
  exists (if in_dec Pos.eq_dec l (contexts s) then retime Date_parse it2 else it2).
  split; [exact Hrun|]. split; [|split].
  - rewrite Hheap, lookup_insert_eq. now destruct (in_dec Pos.eq_dec l (contexts s)).
  - destruct (in_dec Pos.eq_dec l (contexts s)); [now rewrite retime_layers|reflexivity].
  - now apply catalog_layers_resolved.
Qed.

Lemma receive_layers_total (layersConf : LayersConf) (s : State) :
  contexts_resolved (heap s) (conf_contexts layersConf) ->
  exists s', receive_layers Date_parse layersConf s = (Ok tt, s').
Proof.
  intros Hctx. unfold receive_layers.
  rewrite run_bind, run_modify. cbv beta iota.
  rewrite run_bind, run_modify. cbv beta iota.
  rewrite run_bind, run_modify. cbv beta iota.
  set (s0 := set_groups _ _).
  destruct (setContextsTimes_total Date_parse s0 Hctx) as (s1 & Hagg).
  rewrite run_bind, Hagg. cbv beta iota. rewrite run_bind, run_get. cbv beta iota.
  apply setContextsTimes_inv in Hagg as (Hs1 & Hlive & Hheap & _).
  destruct (mapM_is_Ok (fun c => defined (heap s1 !! c)) (contexts s1)) as (cs & Hcs).
  { intros c Hc. rewrite Hs1 in Hc. cbn [contexts set_contextsTimes set_heap] in Hc.
    destruct (Hlive c Hc) as (it & ts & Hit & _). rewrite Hheap.
    destruct (in_dec Pos.eq_dec c (contexts s0)); rewrite Hit; simpl; eauto. }
  rewrite run_bind, run_lift, Hcs. cbv beta iota. rewrite run_modify. eauto.
Qed.


End SaveAndLoad.


(** ** Queryable layers *)

Lemma filterM_statistics (al : list Layer.t) :
  filterM (fun layer => l ← defined layer; Ok (truthy (Layer.statistics l))) (map Some al)
  = Ok (map Some (List.filter (fun l => truthy (Layer.statistics l)) al)).
Proof.
  induction al as [|l al IH]; simpl; [reflexivity|].
  rewrite IH. simpl. now destruct (truthy (Layer.statistics l)).
Qed.

(** C7 (amended): [queryableLayers] is the sub-array of [activeLayers], in
    the same order, of the layers whose [statistics] property is present.
    A layer without [statistics] is left out; a layer whose [statistics] is
    the empty array is kept, an empty array being truthy. *)
Theorem queryableLayers_have_statistics (s : State) (al : list Layer.t) :
  activeLayers s = Ok (map Some al) ->
  exists ql,
    queryableLayers s = Ok (map Some ql) /\
    ql = List.filter (fun l => truthy (Layer.statistics l)) al /\
    (forall l, In l ql <-> In l al /\ Layer.statistics l <> None) /\
    (forall l, In l al -> Layer.statistics l = Some [] -> In l ql).
Proof.
  intros Hal. eexists. split; [|split; [reflexivity|]].
  - unfold queryableLayers. rewrite Hal. simpl. apply filterM_statistics.
  - split.
    + intros l. rewrite filter_In. destruct (Layer.statistics l); simpl; intuition congruence.
    + intros l Hl Hst. apply filter_In. rewrite Hst. auto.
Qed.

(** ** Operations on targets that do not resolve *)

(** C2 (amended): an edit-select whose id does not resolve raises nothing
    and clears both editing references, leaving the rest of the state as it
    was; a toggle-active-context whose id is the id of no context raises
    nothing and leaves the state exactly as it was. *)
Theorem unresolved_target_edit_and_toggle (s : State) (id : Z) :
  (resolve s id = Ok None ->
   edit_item id s = (Ok tt, set_editContext None (set_editGroup None s))) /\
  (context_by_id s id = Ok None -> toggle_context id s = (Ok tt, s)).
Proof.
  split; [apply edit_item_unresolved|apply toggle_context_unresolved].
Qed.

(** ** Running the aggregator again *)

Lemma fold_left_ext_in {A B} (f g : A -> B -> A) (l : list B) (a : A) :
  (forall a b, In b l -> f a b = g a b) -> fold_left f l a = fold_left g l a.
Proof.
  revert a. induction l as [|b l IH]; intros a H; simpl; [reflexivity|].
  rewrite H by now left. apply IH. intros a' b' Hb'. apply H. now right.
Qed.

(** X2: the aggregator is idempotent: run on the state it has just
    produced, it ends normally and changes nothing, neither the [times] of a
    context nor [contextsTimes]. *)
Theorem setContextsTimes_idempotent (Date_parse : string -> option Z) (s s1 : State) :
  setContextsTimes Date_parse s = (Ok tt, s1) ->
  setContextsTimes Date_parse s1 = (Ok tt, s1).
Proof.
  intros Hrun. pose proof (setContextsTimes_aggregated _ _ _ Hrun) as (Htimes & _ & _).
  apply setContextsTimes_inv in Hrun as (Hs1 & Hlive & Hheap & Hct).
  destruct (setContextsTimes_total Date_parse s1) as (s2 & Hrun2).
  { intros c Hc. destruct (Htimes c Hc) as (it & ls & Hit & Hls & _). eauto. }
  rewrite Hrun2. f_equal.
  apply setContextsTimes_inv in Hrun2 as (Hs2 & _ & Hheap2 & Hct2).
  assert (contexts s1 = contexts s) as Hcs by (rewrite Hs1; reflexivity).
  assert (heap s2 = heap s1) as Hh.
  { apply map_eq. intros l. rewrite Hheap2, Hcs, Hheap.
    destruct (in_dec Pos.eq_dec l (contexts s)); [|reflexivity].
    destruct (heap s !! l); simpl; [now rewrite retime_retime|reflexivity]. }
  assert (contextsTimes s2 = contextsTimes s1) as Ht.
  { rewrite Hct2, Hct, Hcs. apply fold_left_ext_in. intros acc c Hc.
    unfold record_time. rewrite Hheap.
    destruct (in_dec Pos.eq_dec c (contexts s)); [|contradiction].
    destruct (heap s !! c); simpl; [now rewrite retime_retime, retime_id|reflexivity]. }
  rewrite Hs2, Hh, Ht. destruct s1. reflexivity.
Qed.

(** ** Sparse arrays and [splice] *)

(** The length is a bound of the indices assigned, and the index before it
    is assigned. *)
Lemma length_spec {A} (arr : gmap Z A) :
  0 <= SparseArray.length arr <= SparseArray.max_length /\
  (forall k, is_Some (arr !! k) -> SparseArray.is_index k = true ->
     k < SparseArray.length arr) /\
  (0 < SparseArray.length arr -> is_Some (arr !! (SparseArray.length arr - 1))).
Proof.
  unfold SparseArray.length.
  apply (map_fold_weak_ind (fun len (m : gmap Z A) =>
    0 <= len <= SparseArray.max_length /\
    (forall k, is_Some (m !! k) -> SparseArray.is_index k = true -> k < len) /\
    (0 < len -> is_Some (m !! (len - 1))))).
  - split; [unfold SparseArray.max_length; lia|]. split; [|lia].
    intros k [v Hk]. rewrite lookup_empty in Hk. discriminate.
  - intros i x m len Hi (Hlen & Hkeys & Hlast).
    assert (forall k, is_Some (<[i:=x]> m !! k) -> k = i \/ is_Some (m !! k)) as Hcases.
    { intros k Hk. destruct (decide (i = k)) as [->|Hne]; [auto|].
      rewrite lookup_insert_ne in Hk by assumption. auto. }
    assert (0 < len -> is_Some (<[i:=x]> m !! (len - 1))) as Hlast'.
    { intros Hpos. destruct (Hlast Hpos) as [v Hv].
      rewrite lookup_insert_ne; [eauto|]. intros ->. rewrite Hi in Hv. discriminate. }
    destruct (SparseArray.is_index i) eqn:Hidx.
    + unfold SparseArray.is_index in Hidx. apply andb_prop in Hidx as [H0 H1].
      apply Z.leb_le in H0. apply Z.ltb_lt in H1.
      split; [lia|]. split.
      * intros k Hk Hkidx. destruct (Hcases k Hk) as [->|Hk']; [lia|].
        specialize (Hkeys k Hk' Hkidx). lia.
      * intros _. destruct (Z.max_spec len (i + 1)) as [[Hlt ->]|[Hge ->]].
        -- replace (i + 1 - 1) with i by lia. rewrite lookup_insert_eq. eauto.
        -- apply Hlast'. lia.
    + split; [assumption|]. split; [|exact Hlast'].
      intros k Hk Hkidx. destruct (Hcases k Hk) as [->|Hk']; [congruence|]. now apply Hkeys.
Qed.

Lemma length_unique {A} (arr : gmap Z A) (n : Z) :
  0 <= n <= SparseArray.max_length ->
  (forall k, is_Some (arr !! k) -> SparseArray.is_index k = true -> k < n) ->
  (0 < n -> is_Some (arr !! (n - 1))) ->
  SparseArray.length arr = n.
Proof.
  intros Hn Hkeys Hlast. destruct (length_spec arr) as (Hlen & Hkeys' & Hlast').
  assert (forall k, 0 < k <= SparseArray.max_length -> SparseArray.is_index (k - 1) = true)
    as Hidx.
  { intros k Hk. unfold SparseArray.is_index. apply andb_true_intro.
    split; [apply Z.leb_le|apply Z.ltb_lt]; lia. }
  destruct (Z.lt_trichotomy (SparseArray.length arr) n) as [Hlt|[Heq|Hgt]]; [|assumption|].
  - assert (0 < n) as Hpos by lia.
    specialize (Hkeys' (n - 1) (Hlast Hpos) (Hidx n (conj Hpos (proj2 Hn)))). lia.
  - assert (0 < SparseArray.length arr) as Hpos by lia.
    specialize (Hkeys _ (Hlast' Hpos) (Hidx _ (conj Hpos (proj2 Hlen)))). lia.
Qed.

Lemma length_insert {A} (arr : gmap Z A) (k : Z) (v : A) :
  SparseArray.length (<[k := v]> arr)
  = if SparseArray.is_index k then Z.max (SparseArray.length arr) (k + 1)
    else SparseArray.length arr.
Proof.
  destruct (length_spec arr) as (Hlen & Hkeys & Hlast).
  assert (forall j, is_Some (<[k:=v]> arr !! j) -> j = k \/ is_Some (arr !! j)) as Hcases.
  { intros j Hj. destruct (decide (k = j)) as [->|Hne]; [auto|].
    rewrite lookup_insert_ne in Hj by assumption. auto. }
  assert (forall j, is_Some (arr !! j) -> is_Some (<[k:=v]> arr !! j)) as Hmono.
  { intros j Hj. destruct (decide (k = j)) as [->|Hne].
    - rewrite lookup_insert_eq. eauto.
    - now rewrite lookup_insert_ne. }
  destruct (SparseArray.is_index k) eqn:Hidx; apply length_unique.
  - unfold SparseArray.is_index in Hidx. apply andb_prop in Hidx as [H0 H1].
    apply Z.leb_le in H0. apply Z.ltb_lt in H1. lia.
  - intros j Hj Hjidx. destruct (Hcases j Hj) as [->|Hj']; [lia|].
    specialize (Hkeys j Hj' Hjidx). lia.
  - intros _. destruct (Z.max_spec (SparseArray.length arr) (k + 1)) as [[Hlt ->]|[Hge ->]].
    + replace (k + 1 - 1) with k by lia. rewrite lookup_insert_eq. eauto.
    + apply Hmono, Hlast. unfold SparseArray.is_index in Hidx.
      apply andb_prop in Hidx as [H0 _]. apply Z.leb_le in H0. lia.
  - assumption.
  - intros j Hj Hjidx. destruct (Hcases j Hj) as [->|Hj']; [congruence|]. now apply Hkeys.
  - intros Hpos. now apply Hmono, Hlast.
Qed.

(** X3: [set_context_time] on a position below the length of [contextsTimes]
    replaces the entry there and nothing else; the length stays.  The id of
    every entry the aggregator recorded at an array index is such a
    position. *)
Theorem set_context_time_replaces_entry (s : State) (contextId : Z) (time : Time) :
  (0 <= contextId < SparseArray.length (contextsTimes s) ->
   set_context_time contextId time s
     = (Ok tt, set_contextsTimes (<[contextId := time]> (contextsTimes s)) s) /\
   SparseArray.length (<[contextId := time]> (contextsTimes s))
     = SparseArray.length (contextsTimes s)) /\
  (SparseArray.is_index contextId = true -> is_Some (contextsTimes s !! contextId) ->
   0 <= contextId < SparseArray.length (contextsTimes s)).
Proof.
  destruct (length_spec (contextsTimes s)) as (Hlen & Hkeys & _). split.
  - intros Hin. split.
    + unfold set_context_time, SparseArray.splice_one.
      destruct (contextId <? 0) eqn:Hneg; [apply Z.ltb_lt in Hneg; lia|].
      rewrite Z.min_l by lia.
      destruct (contextId =? SparseArray.max_length) eqn:Hmax;
        [apply Z.eqb_eq in Hmax; lia|reflexivity].
    + rewrite length_insert.
      assert (SparseArray.is_index contextId = true) as ->; [|lia].
      unfold SparseArray.is_index. apply andb_true_intro.
      split; [apply Z.leb_le|apply Z.ltb_lt]; lia.
  - intros Hidx Hk. split; [|now apply Hkeys].
    unfold SparseArray.is_index in Hidx. apply andb_prop in Hidx as [H0 _].
    now apply Z.leb_le in H0.
Qed.

(** X4: [set_context_time] on an id at or beyond the length of
    [contextsTimes] appends the time at the position [length], not at the
    id: unless the id is the length itself, the entry of the id stays as it
    was.  A negative id counts from the end of the array. *)
Theorem set_context_time_outside_length (s : State) (contextId : Z) (time : Time) :
  let len := SparseArray.length (contextsTimes s) in
  (len <= contextId -> len < SparseArray.max_length ->
   exists s',
     set_context_time contextId time s = (Ok tt, s') /\
     s' = set_contextsTimes (<[len := time]> (contextsTimes s)) s /\
     SparseArray.length (contextsTimes s') = len + 1 /\
     (contextId <> len -> contextsTimes s' !! contextId = contextsTimes s !! contextId)) /\
  (contextId < 0 -> 0 < len ->
   set_context_time contextId time s
     = (Ok tt, set_contextsTimes (<[Z.max (len + contextId) 0 := time]> (contextsTimes s)) s)).
Proof.
  intros len. destruct (length_spec (contextsTimes s)) as (Hlen & _ & _). fold len in Hlen.
  split.
  - intros Hge Hmax. eexists. split; [|split; [reflexivity|split]].
    + unfold set_context_time, SparseArray.splice_one. fold len.
      destruct (contextId <? 0) eqn:Hneg; [apply Z.ltb_lt in Hneg; lia|].
      rewrite Z.min_r by lia.
      destruct (len =? SparseArray.max_length) eqn:E; [apply Z.eqb_eq in E; lia|reflexivity].
    + cbn [contextsTimes set_contextsTimes]. rewrite length_insert. fold len.
      assert (SparseArray.is_index len = true) as ->; [|lia].
      unfold SparseArray.is_index. apply andb_true_intro.
      split; [apply Z.leb_le|apply Z.ltb_lt]; lia.
    + intros Hne. cbn [contextsTimes set_contextsTimes]. now rewrite lookup_insert_ne.
  - intros Hneg Hpos. unfold set_context_time, SparseArray.splice_one. fold len.
    destruct (contextId <? 0) eqn:E; [|apply Z.ltb_ge in E; lia].
    destruct (Z.max (len + contextId) 0 =? SparseArray.max_length) eqn:E';
      [apply Z.eqb_eq in E'; lia|reflexivity].
Qed.

(** ** Deleting an item *)

(** The test [i => i.id === id] on the children of a group, all live. *)
Definition has_id (h : gmap loc Item.t) (id : Z) (i : loc) : bool :=
  match h !! i with
  | Some x => Item.id x =? id
  | None => false
  end.

Lemma findIndexM_live (h : gmap loc Item.t) (id : Z) (l : list loc) :
  (forall i, In i l -> is_Some (h !! i)) ->
  findIndexM (fun i => x ← defined (h !! i); Ok (Item.id x =? id)) l
  = Ok (findIndex (has_id h id) l).
Proof.
  induction l as [|i l IH]; intros Hlive; simpl; [reflexivity|].
  destruct (Hlive i (or_introl eq_refl)) as [x Hx]. unfold has_id at 1. rewrite Hx. simpl.
  destruct (Item.id x =? id); [reflexivity|].
  rewrite IH by (intros j Hj; apply Hlive; now right). reflexivity.
Qed.

Lemma delete_item_run (s : State) (id : Z) (l p : loc) (it pit : Item.t)
    (pitems : list loc) :
  resolve s id = Ok (Some l) -> heap s !! l = Some it -> Item.parent it = Some p ->
  heap s !! p = Some pit -> Item.items pit = Some pitems ->
  (forall i, In i pitems -> is_Some (heap s !! i)) ->
  delete_item id s
  = (Ok tt,
     if findIndex (has_id (heap s) id) pitems >? -1
     then set_heap (<[p := Item.set_items
                             (Some (splice1 (findIndex (has_id (heap s) id) pitems) pitems))
                             pit]> (heap s)) s
     else s).
Proof.
  intros Hres Hl Hp Hpit Hitems Hlive. unfold delete_item.
  run_step (run_groups_findById _ _ _ Hres).
  rewrite run_bind, run_lift. cbn [defined]. cbv beta iota.
  run_step (run_load _ _ _ Hl).
  rewrite run_bind, run_lift, Hp. cbn [defined]. cbv beta iota.
  run_step (run_load _ _ _ Hpit).
  rewrite run_bind, run_lift, Hitems. cbn [defined]. cbv beta iota.
  rewrite run_bind, run_get. cbv beta iota.
  rewrite run_bind, run_lift, (findIndexM_live _ _ _ Hlive). cbv beta iota.
  destruct (findIndex (has_id (heap s) id) pitems >? -1); [|reflexivity].
  now rewrite (run_store _ _ _ _ Hpit).
Qed.

(** X5: [delete_item] on an item that has a parent group takes out of the
    parent's [items] the first child that carries the id, and writes nothing
    else: the children before and after it stay in order, the item keeps its
    [parent], and [state.contexts] is not touched.  When no child of the
    parent carries the id, nothing changes at all; when the item is among
    the children, the parent has one child less. *)
Theorem delete_item_removes_first_match (s : State) (id : Z) (l p : loc)
    (it pit : Item.t) (pitems : list loc) :
  resolve s id = Ok (Some l) -> heap s !! l = Some it -> Item.parent it = Some p ->
  heap s !! p = Some pit -> Item.items pit = Some pitems ->
  (forall i, In i pitems -> is_Some (heap s !! i)) ->
  exists s',
    delete_item id s = (Ok tt, s') /\
    ((exists pre x post,
        pitems = pre ++ x :: post /\ has_id (heap s) id x = true /\
        (forall y, In y pre -> has_id (heap s) id y = false) /\
        s' = set_heap (<[p := Item.set_items (Some (pre ++ post)) pit]> (heap s)) s) \/
     ((forall y, In y pitems -> has_id (heap s) id y = false) /\ s' = s)) /\
    (In l pitems ->
     exists rest, Item.items <$> heap s' !! p = Some (Some rest) /\
                  (length rest + 1 = length pitems)%nat).
Proof.
  intros Hres Hl Hp Hpit Hitems Hlive.
  rewrite (delete_item_run s id l p it pit pitems Hres Hl Hp Hpit Hitems Hlive).
  eexists. split; [reflexivity|].
  destruct (findIndex_range (has_id (heap s) id) pitems) as [Hnone|Hidx].
  - rewrite Hnone. simpl. split.
    + right. split; [|reflexivity]. exact (proj1 (findIndex_none _ _) Hnone).
    + intros Hin. pose proof (proj1 (findIndex_none _ _) Hnone l Hin) as Hno.
      clear Hnone. rename Hno into Hnone. unfold has_id in Hnone. rewrite Hl in Hnone.
      destruct (resolve_Some _ _ _ Hres) as (it' & Hit' & Hid).
      rewrite Hl in Hit'. injection Hit' as <-. rewrite Hid, Z.eqb_refl in Hnone. discriminate.
  - destruct (findIndex_split (has_id (heap s) id) pitems) as
      (pre & x & post & Hsplit & Hx & Hpre & _ & Hsp); [lia|].
    destruct (findIndex (has_id (heap s) id) pitems >? -1) eqn:E;
      [|rewrite Z.gtb_ltb in E; apply Z.ltb_ge in E; lia].
    rewrite Hsp. split.
    + left. exists pre, x, post. auto.
    + intros _. exists (pre ++ post). cbn [heap set_heap]. rewrite lookup_insert_eq.
      split; [reflexivity|]. rewrite Hsplit, !length_app. simpl. lia.
Qed.

(** ** The active layers *)

(** First occurrences under an equivalence test: an element is kept when
    none of the elements before it, [seen] at the start, is the same. *)
Fixpoint first_occurrences {A} (same : A -> A -> bool) (seen l : list A) : list A :=
  match l with
  | [] => []
  | x :: l' =>
      if existsb (same x) seen then first_occurrences same (seen ++ [x]) l'
      else x :: first_occurrences same (seen ++ [x]) l'
  end.

Lemma filter_from_first_occurrences {A} (same : A -> A -> bool) (pre l : list A) :
  (forall x, same x x = true) ->
  filter_from (fun elem pos => findIndex (same elem) (pre ++ l) =? pos)
              (Z.of_nat (length pre)) l
  = first_occurrences same pre l.
Proof.
  intros Hrefl. revert pre. induction l as [|x l IH]; intros pre; simpl; [reflexivity|].
  rewrite findIndex_first_occurrence by apply Hrefl.
  replace (Z.of_nat (length pre) + 1) with (Z.of_nat (length (pre ++ [x])))
    by (rewrite length_app; simpl; lia).
  replace (pre ++ x :: l) with ((pre ++ [x]) ++ l) by (now rewrite <- app_assoc).
  rewrite (IH (pre ++ [x])). now destruct (existsb (same x) pre).
Qed.

Lemma filter_pos_first_occurrences {A} (same : A -> A -> bool) (arr : list A) :
  (forall x, same x x = true) ->
  filter_pos (fun elem pos arr => findIndex (same elem) arr =? pos) arr
  = first_occurrences same [] arr.
Proof. intros Hrefl. exact (filter_from_first_occurrences same [] arr Hrefl). Qed.

Lemma first_occurrences_In {A} (same : A -> A -> bool) (seen l : list A) (y : A) :
  In y (first_occurrences same seen l) -> In y l /\ existsb (same y) seen = false.
Proof.
  revert seen. induction l as [|x l IH]; intros seen; simpl; [tauto|].
  assert (In y (first_occurrences same (seen ++ [x]) l) ->
          (x = y \/ In y l) /\ existsb (same y) seen = false) as Hrest.
  { intros H. apply IH in H as [Hin Hex]. split; [auto|].
    rewrite existsb_app in Hex. now apply orb_false_elim in Hex as [Hex _]. }
  destruct (existsb (same x) seen) eqn:E; [exact Hrest|].
  intros [<-|H]; [auto|now apply Hrest].
Qed.

Lemma first_occurrences_represent {A} (same : A -> A -> bool) (seen l : list A) (x : A) :
  (forall a, same a a = true) ->
  (forall a b c, same a b = true -> same b c = true -> same a c = true) ->
  In x l ->
  existsb (same x) seen = true \/
  exists y, In y (first_occurrences same seen l) /\ same x y = true.
Proof.
  intros Hrefl Htrans. revert seen. induction l as [|h l IH]; intros seen; simpl; [tauto|].
  intros [->|Hx].
  - destruct (existsb (same x) seen) eqn:E; [auto|]. right. exists x. simpl. auto.
  - destruct (IH (seen ++ [h]) Hx) as [Hseen|(y & Hy & Hxy)].
    + rewrite existsb_app in Hseen. apply orb_prop in Hseen as [Hseen|Hh]; [auto|].
      simpl in Hh. rewrite orb_false_r in Hh.
      destruct (existsb (same h) seen) eqn:E.
      * left. apply existsb_exists in E as (z & Hz & Hhz). apply existsb_exists.
        exists z. split; [assumption|]. now apply (Htrans x h z).
      * right. exists h. simpl. auto.
    + right. exists y. split; [|assumption]. destruct (existsb (same h) seen); simpl; auto.
Qed.

Lemma first_occurrences_distinct {A B} (same : A -> A -> bool) (key : A -> B)
    (seen l : list A) :
  (forall a b, key a = key b -> same a b = true) ->
  List.NoDup (map key (first_occurrences same seen l)).
Proof.
  intros Hkey. revert seen. induction l as [|x l IH]; intros seen; simpl; [constructor|].
  destruct (existsb (same x) seen); [apply IH|].
  simpl. constructor; [|apply IH].
  intros Hin. apply in_map_iff in Hin as (y & Hy & Hin).
  apply first_occurrences_In in Hin as [_ Hex].
  rewrite existsb_app in Hex. apply orb_false_elim in Hex as [_ Hex].
  simpl in Hex. rewrite orb_false_r in Hex. now rewrite Hkey in Hex.
Qed.

Lemma same_layer_refl (a : option Layer.t) : same_layer a a = true.
Proof. destruct a; simpl; [apply Pos.eqb_refl|reflexivity]. Qed.

Lemma same_layer_trans (a b c : option Layer.t) :
  same_layer a b = true -> same_layer b c = true -> same_layer a c = true.
Proof.
  destruct a, b, c; simpl; try discriminate; try reflexivity.
  rewrite !Pos.eqb_eq. congruence.
Qed.

(** The identity of an entry of a [layers] array: the object it refers to,
    or [undefined]. *)
Definition entry_ref (a : option Layer.t) : option loc := Layer.ref <$> a.

Lemma same_layer_ref (a b : option Layer.t) :
  entry_ref a = entry_ref b -> same_layer a b = true.
Proof.
  destruct a, b; simpl; try discriminate; [|reflexivity].
  intros H. injection H as ->. apply Pos.eqb_refl.
Qed.

Lemma same_layer_entry_ref (a b : option Layer.t) :
  same_layer a b = true -> entry_ref a = entry_ref b.
Proof.
  destruct a, b; simpl; try discriminate; [|reflexivity].
  intros H. apply Pos.eqb_eq in H. now rewrite H.
Qed.

(** The contexts a getter reads: live objects with a [layers] array. *)
Definition contexts_readable (s : State) : Prop :=
  forall c, In c (contexts s) ->
    exists it entries, heap s !! c = Some it /\ Item.layers it = Some entries.

(** [context] is an active context of [s] whose [layers] array is
    [entries]. *)
Definition active_context (s : State) (it : Item.t) (entries : list (option Layer.t))
    : Prop :=
  exists c, In c (contexts s) /\ heap s !! c = Some it /\
            In (Item.id it) (activeContextsIds s) /\ Item.layers it = Some entries.

Lemma mapM_contexts_readable (s : State) (cs : list loc) :
  (forall c, In c cs -> exists it entries, heap s !! c = Some it /\ Item.layers it = Some entries) ->
  exists its,
    mapM (fun c => defined (heap s !! c)) cs = Ok its /\
    Forall2 (fun c it => heap s !! c = Some it) cs its.
Proof.
  induction cs as [|c cs IH]; intros H; simpl; [exists []; split; [reflexivity|constructor]|].
  destruct (H c (or_introl eq_refl)) as (it & entries & Hc & _).
  destruct IH as (its & Hits & Hall); [intros c' Hc'; apply H; now right|].
  exists (it :: its). rewrite Hc, Hits. split; [reflexivity|]. now constructor.
Qed.

Lemma mapM_layers (its : list Item.t) :
  (forall it, In it its -> is_Some (Item.layers it)) ->
  exists pushed,
    mapM (fun context => defined (Item.layers context)) its = Ok pushed /\
    Forall2 (fun it entries => Item.layers it = Some entries) its pushed.
Proof.
  induction its as [|it its IH]; intros H; simpl; [exists []; split; [reflexivity|constructor]|].
  destruct (H it (or_introl eq_refl)) as [entries Hl].
  destruct IH as (pushed & Hp & Hall); [intros it' Hit'; apply H; now right|].
  exists (entries :: pushed). rewrite Hl, Hp. split; [reflexivity|]. now constructor.
Qed.

(** How [activeLayers] runs when it can read the contexts: the [layers]
    arrays of the active contexts are pushed in turn and first occurrences
    are kept. *)
Lemma activeLayers_run (s : State) :
  contexts_readable s ->
  exists pushed,
    activeLayers s = Ok (first_occurrences same_layer [] (concat pushed)) /\
    (forall e, In e (concat pushed) <->
       exists it entries, active_context s it entries /\ In e entries).
Proof.
  intros Hread. unfold activeLayers.
  destruct (mapM_contexts_readable s (contexts s) Hread) as (its & Hits & Hall).
  rewrite Hits. simpl.
  set (active := fun context : Item.t =>
                   negb (indexOf (Item.id context) (activeContextsIds s) =? -1)).
  assert (forall it, active it = true <-> In (Item.id it) (activeContextsIds s)) as Hactive.
  { intros it. unfold active. rewrite negb_true_iff, Z.eqb_neq.
    pose proof (indexOf_absent (Item.id it) (activeContextsIds s)) as Habs.
    destruct (in_dec Z.eq_dec (Item.id it) (activeContextsIds s)); tauto. }
  assert (forall it, In it its -> exists c, In c (contexts s) /\ heap s !! c = Some it) as Hback.
  { intros it Hit. apply list_elem_of_In in Hit.
    destruct (list_elem_of_lookup_1 _ _ Hit) as [i Hi].
    destruct (Forall2_lookup_r _ _ _ _ _ Hall Hi) as (c & Hc & Hlook).
    exists c. split; [|assumption]. apply list_elem_of_In. eapply list_elem_of_lookup_2, Hc. }
  assert (forall c it, In c (contexts s) -> heap s !! c = Some it -> In it its) as Hforth.
  { intros c it Hc Hlook. apply list_elem_of_In in Hc.
    destruct (list_elem_of_lookup_1 _ _ Hc) as [i Hi].
    destruct (Forall2_lookup_l _ _ _ _ _ Hall Hi) as (it' & Hit' & Hlook').
    rewrite Hlook in Hlook'. injection Hlook' as <-.
    apply list_elem_of_In. eapply list_elem_of_lookup_2, Hit'. }
  destruct (mapM_layers (List.filter active its)) as (pushed & Hpushed & Hall2).
  { intros it Hit. apply filter_In in Hit as [Hit _].
    destruct (Hback it Hit) as (c & Hc & Hlook).
    destruct (Hread c Hc) as (it' & entries & Hlook' & Hl).
    rewrite Hlook in Hlook'. injection Hlook' as <-. eauto. }
  rewrite Hpushed. simpl. exists pushed.
  rewrite (filter_pos_first_occurrences same_layer (concat pushed) same_layer_refl).
  split; [reflexivity|].
  intros e. rewrite in_concat. split.
  - intros (entries & Hentries & He). apply list_elem_of_In in Hentries.
    destruct (list_elem_of_lookup_1 _ _ Hentries) as [i Hi].
    destruct (Forall2_lookup_r _ _ _ _ _ Hall2 Hi) as (it & Hit & Hl).
    assert (In it (List.filter active its)) as Hin
      by (apply list_elem_of_In; eapply list_elem_of_lookup_2, Hit).
    apply filter_In in Hin as [Hin Hact]. destruct (Hback it Hin) as (c & Hc & Hlook).
    exists it, entries. split; [|assumption]. exists c. repeat split; auto.
    now apply Hactive.
  - intros (it & entries & (c & Hc & Hlook & Hact & Hl) & He).
    assert (In it (List.filter active its)) as Hin
      by (apply filter_In; split; [now apply (Hforth c)|now apply Hactive]).
    apply list_elem_of_In in Hin. destruct (list_elem_of_lookup_1 _ _ Hin) as [i Hi].
    destruct (Forall2_lookup_l _ _ _ _ _ Hall2 Hi) as (entries' & Hentries' & Hl').
    rewrite Hl in Hl'. injection Hl' as <-.
    exists entries. split; [|assumption].
    apply list_elem_of_In. eapply list_elem_of_lookup_2, Hentries'.
Qed.

(** In the first occurrences of the pushed entries, every pushed entry has
    its object. *)
Lemma first_occurrences_layer (arr : list (option Layer.t)) (e : option Layer.t) :
  In e arr ->
  exists e', In e' (first_occurrences same_layer [] arr) /\ entry_ref e' = entry_ref e.
Proof.
  intros Hin.
  destruct (first_occurrences_represent same_layer [] _ e same_layer_refl same_layer_trans Hin)
    as [Hseen|(y & Hy & Hey)]; [discriminate|].
  exists y. split; [assumption|]. symmetry. now apply same_layer_entry_ref.
Qed.

(** X6: when the contexts can be read, [activeLayers] returns the entries of
    the [layers] arrays of the contexts whose id is in [activeContextsIds],
    and nothing else, each layer object once however many active contexts
    hold it.  Without active ids it is empty. *)
Theorem activeLayers_each_layer_once (s : State) :
  contexts_readable s ->
  exists al,
    activeLayers s = Ok al /\
    List.NoDup (map entry_ref al) /\
    (forall e, In e al -> exists it entries, active_context s it entries /\ In e entries) /\
    (forall it entries e, active_context s it entries -> In e entries ->
       exists e', In e' al /\ entry_ref e' = entry_ref e) /\
    (activeContextsIds s = [] -> al = []).
Proof.
  intros Hread. destruct (activeLayers_run s Hread) as (pushed & Hrun & Hpushed).
  eexists. split; [exact Hrun|]. split; [|split; [|split]].
  - apply first_occurrences_distinct, same_layer_ref.
  - intros e He. apply first_occurrences_In in He as [He _]. now apply Hpushed.
  - intros it entries e Hact He. apply first_occurrences_layer, Hpushed. eauto.
  - intros Hnone.
    destruct (first_occurrences same_layer [] (concat pushed)) as [|e al] eqn:E; [reflexivity|].
    assert (In e (first_occurrences same_layer [] (concat pushed))) as He
      by (rewrite E; now left).
    apply first_occurrences_In in He as [He _].
    apply Hpushed in He as (it & entries & (c & _ & _ & Hact & _) & _).
    rewrite Hnone in Hact. destruct Hact.
Qed.

Lemma filterM_undefined (al : list (option Layer.t)) :
  In None al ->
  filterM (fun layer => l ← defined layer; Ok (truthy (Layer.statistics l))) al
  = Throw TypeError.
Proof.
  induction al as [|[l|] al IH]; simpl; [tauto| |reflexivity].
  intros [H|H]; [discriminate|]. now rewrite (IH H).
Qed.

(** X7: when the [layers] array of an active context holds an [undefined]
    entry, as [save_context] leaves one for a layer id that is not in the
    catalog, [activeLayers] ends normally and returns the [undefined] entry
    among the layers, and [queryableLayers] raises a [TypeError] reading
    [statistics] of it. *)
Theorem queryableLayers_raises_on_undefined_layer (s : State) (it : Item.t)
    (entries : list (option Layer.t)) :
  contexts_readable s -> active_context s it entries -> In None entries ->
  (exists al, activeLayers s = Ok al /\ In None al) /\
  queryableLayers s = Throw TypeError.
Proof.
  intros Hread Hact Hnone. destruct (activeLayers_run s Hread) as (pushed & Hrun & Hpushed).
  assert (In None (first_occurrences same_layer [] (concat pushed))) as Hin.
  { destruct (first_occurrences_layer (concat pushed) None) as (e' & He' & Href).
    - apply Hpushed. eauto.
    - destruct e'; [discriminate|assumption]. }
  split; [eauto|]. unfold queryableLayers. rewrite Hrun. simpl.
  now apply filterM_undefined.
Qed.

(** The contexts of [s] that carry [contextId]. *)
Definition context_with_id (s : State) (contextId : Z) (it : Item.t)
    (entries : list (option Layer.t)) : Prop :=
  exists c, In c (contexts s) /\ heap s !! c = Some it /\
            Item.id it = contextId /\ Item.layers it = Some entries.

(** X8: toggling a context on puts the layers of every context with that id
    among the active layers; toggling it off leaves among the active layers
    only those that another active context holds. *)
Theorem toggle_context_shows_and_hides_layers (s : State) (contextId : Z) (c : loc) :
  context_by_id s contextId = Ok (Some c) -> contexts_readable s ->
  List.NoDup (activeContextsIds s) ->
  exists s1 al1,
    toggle_context contextId s = (Ok tt, s1) /\ activeLayers s1 = Ok al1 /\
    (~ In contextId (activeContextsIds s) ->
     forall it entries e, context_with_id s contextId it entries -> In e entries ->
       exists e', In e' al1 /\ entry_ref e' = entry_ref e) /\
    (In contextId (activeContextsIds s) ->
     forall e, In e al1 ->
       exists it entries, active_context s it entries /\ Item.id it <> contextId /\
                          In e entries).
Proof.
  intros Hc Hread Hnd.
  destruct (in_dec Z.eq_dec contextId (activeContextsIds s)) as [Hin|Hout].
  - destruct (toggle_context_present _ _ _ Hc Hin) as (l1 & l2 & Hl & Hl1 & Hrun).
    set (s1 := set_activeContextsIds (l1 ++ l2) s) in *.
    destruct (activeLayers_run s1 Hread) as (pushed & Hal & Hpushed).
    exists s1. eexists. split; [exact Hrun|]. split; [exact Hal|]. split; [tauto|].
    intros _ e He. apply first_occurrences_In in He as [He _].
    apply Hpushed in He as (it & entries & (c' & Hc' & Hlook & Hact & Hlayers) & He).
    cbn [contexts heap activeContextsIds set_activeContextsIds s1] in *.
    exists it, entries. split; [|split; [|assumption]].
    + exists c'. repeat split; auto. rewrite Hl. rewrite in_app_iff in *. simpl. tauto.
    + intros Hid. rewrite Hl in Hnd. apply List.NoDup_remove_2 in Hnd. congruence.
  - pose proof (toggle_context_absent _ _ _ Hc Hout) as Hrun.
    set (s1 := set_activeContextsIds (activeContextsIds s ++ [contextId]) s) in *.
    destruct (activeLayers_run s1 Hread) as (pushed & Hal & Hpushed).
    exists s1. eexists. split; [exact Hrun|]. split; [exact Hal|]. split; [|tauto].
    intros _ it entries e (c' & Hc' & Hlook & Hid & Hlayers) He.
    apply first_occurrences_layer, Hpushed. exists it, entries. split; [|assumption].
    exists c'. cbn [contexts heap activeContextsIds set_activeContextsIds s1].
    repeat split; auto. apply in_app_iff. right. rewrite Hid. now left.
Qed.

(** ** What a handler leaves alone *)

Section Frames.

Variable R : State -> State -> Prop.
Hypothesis R_refl : forall s, R s s.
Hypothesis R_trans : forall s1 s2 s3, R s1 s2 -> R s2 s3 -> R s1 s3.

(** However [m] ends, normally or with an exception, the state it leaves is
    related to the state it started from. *)
Definition keeps {A} (m : M A) : Prop :=
  forall s r s', m s = (r, s') -> R s s'.

Lemma keeps_reads {A} (m : M A) : (forall s, snd (m s) = s) -> keeps m.
Proof.
  intros H s r s' Hm. specialize (H s). rewrite Hm in H. simpl in H. subst s'. apply R_refl.
Qed.

Lemma keeps_ret {A} (a : A) : keeps (mret a).
Proof. now apply keeps_reads. Qed.

Lemma keeps_get : keeps get.
Proof. now apply keeps_reads. Qed.

Lemma keeps_lift {A} (r : result A) : keeps (lift r).
Proof. now apply keeps_reads. Qed.

Lemma keeps_load (l : loc) : keeps (load l).
Proof. now apply keeps_reads. Qed.

Lemma keeps_groups_findById (id : Z) : keeps (groups_findById id).
Proof. now apply keeps_reads. Qed.

Lemma keeps_bind {A B} (m : M A) (f : A -> M B) :
  keeps m -> (forall a, keeps (f a)) -> keeps (m ≫= f).
Proof.
  intros Hm Hf s r s' H. rewrite run_bind in H.
  destruct (m s) as [[a|e] s1] eqn:E.
  - exact (R_trans _ _ _ (Hm _ _ _ E) (Hf a _ _ _ H)).
  - injection H as <- <-. exact (Hm _ _ _ E).
Qed.

Lemma keeps_modify (f : State -> State) : (forall s, R s (f s)) -> keeps (modify f).
Proof. intros H s r s' Hm. injection Hm as <- <-. apply H. Qed.

Lemma keeps_store (l : loc) (f : Item.t -> Item.t) :
  (forall s it, heap s !! l = Some it -> R s (set_heap (<[l := f it]> (heap s)) s)) ->
  keeps (store l f).
Proof.
  intros H s r s'. unfold store. destruct (heap s !! l) as [it|] eqn:E; intros Hm.
  - injection Hm as <- <-. now apply H.
  - injection Hm as <- <-. apply R_refl.
Qed.

Lemma keeps_forEach {A} (f : A -> M unit) (l : list A) :
  (forall x, keeps (f x)) -> keeps (forEach f l).
Proof.
  intros H. induction l as [|x l IH]; simpl; [apply keeps_ret|].
  apply keeps_bind; [apply H|intros _; exact IH].
Qed.

End Frames.

(** *** The properties and fields a mutation may write *)

(** The object properties a mutation may write, blanked. *)
Definition written_properties (m : Mutation) : Item.t -> Item.t :=
  match m with
  | Delete_item _ => Item.set_items None
  | Save_group _ => Item.set_group_fields "" [] false None
  | Save_context _ =>
      fun it => Item.set_context_fields "" [] None false None
                  (Item.set_layers None (Item.set_times [] it))
  | Receive_layers _ => Item.set_times []
  | Update_group _ _ => fun it => Item.set_items None (Item.set_parent None it)
  | Update_layers _ => fun it => Item.set_layers None (Item.set_times [] it)
  | _ => fun it => it
  end.

(** The fields of the state a mutation may write, blanked; the heap is
    blanked for all. *)
Definition written_fields (m : Mutation) (s : State) : State :=
  set_heap ∅
    match m with
    | Enable_edit _ => set_editing false s
    | Edit_item _ => set_editGroup None (set_editContext None s)
    | Edit_layers _ => set_editLayers false s
    | Save_context _ => set_contextsTimes ∅ s
    | Receive_layers _ =>
        set_layers [] (set_contexts [] (set_groups None
          (set_contextsTimes ∅ (set_activeContextsIds [] s))))
    | Toggle_context _ => set_activeContextsIds [] s
    | Show_layer_info _ _ => set_layerInfo None s
    | Set_context_time _ _ => set_contextsTimes ∅ s
    | Overlay_kml _ => set_kmlOverlay None s
    | Enable_feedback _ => set_enableFeedback false s
    | Update_layers _ => set_layers [] (set_contextsTimes ∅ s)
    | Delete_item _ | Save_group _ | Update_group _ _ => s
    end.

(** [s'] differs from [s] in nothing but what [m] may write: the same
    objects are live, and they and the state agree on everything else. *)
Definition frame (m : Mutation) (s s' : State) : Prop :=
  written_fields m s' = written_fields m s /\
  forall l, written_properties m <$> heap s' !! l = written_properties m <$> heap s !! l.

Lemma frame_refl (m : Mutation) (s : State) : frame m s s.
Proof. split; reflexivity. Qed.

Lemma frame_trans (m : Mutation) (s1 s2 s3 : State) :
  frame m s1 s2 -> frame m s2 s3 -> frame m s1 s3.
Proof.
  intros [H1 H1'] [H2 H2']. split; [congruence|]. intros l. now rewrite H2', H1'.
Qed.

Lemma frame_store (m : Mutation) (f : Item.t -> Item.t) (s : State) (l : loc) (it : Item.t) :
  (forall x, written_properties m (f x) = written_properties m x) ->
  heap s !! l = Some it -> frame m s (set_heap (<[l := f it]> (heap s)) s).
Proof.
  intros Hf Hl. split.
  - destruct m, s; reflexivity.
  - intros l'. cbn [heap set_heap]. destruct (decide (l = l')) as [<-|Hne].
    + rewrite lookup_insert_eq, Hl. simpl. now rewrite Hf.
    + now rewrite lookup_insert_ne.
Qed.

Lemma frame_fields (m : Mutation) (s s' : State) :
  heap s' = heap s -> written_fields m s' = written_fields m s -> frame m s s'.
Proof. intros Hh Hf. split; [exact Hf|]. intros l. now rewrite Hh. Qed.

Section FrameOfMutations.

Variable Date_parse : string -> option Z.

Lemma keeps_setContextsTimes_loop (R : State -> State -> Prop) :
  (forall s, R s s) -> (forall s1 s2 s3, R s1 s2 -> R s2 s3 -> R s1 s3) ->
  (forall s l it ts, heap s !! l = Some it ->
     R s (set_heap (<[l := Item.set_times ts it]> (heap s)) s)) ->
  forall cs acc, keeps R (setContextsTimes_loop Date_parse acc cs).
Proof.
  intros Hrefl Htrans Hstore cs.
  induction cs as [|c cs IH]; intros acc; simpl; [now apply keeps_ret|].
  apply keeps_bind; [assumption| |intros acc'; apply IH].
  unfold setContextTimes.
  apply keeps_bind; [assumption|now apply keeps_load|intros it].
  apply keeps_bind; [assumption|now apply keeps_lift|intros ts].
  apply keeps_bind; [assumption| |intros _; now apply keeps_ret].
  apply keeps_store; [assumption|]. intros s it' Hit'. now apply Hstore.
Qed.

Lemma keeps_setContextsTimes (R : State -> State -> Prop) :
  (forall s, R s s) -> (forall s1 s2 s3, R s1 s2 -> R s2 s3 -> R s1 s3) ->
  (forall s l it ts, heap s !! l = Some it ->
     R s (set_heap (<[l := Item.set_times ts it]> (heap s)) s)) ->
  (forall s v, R s (set_contextsTimes v s)) ->
  keeps R (setContextsTimes Date_parse).
Proof.
  intros Hrefl Htrans Hstore Hmod. unfold setContextsTimes.
  apply keeps_bind; [assumption|now apply keeps_get|intros s0].
  apply keeps_bind; [assumption|now apply keeps_setContextsTimes_loop|intros acc].
  apply keeps_modify. intros s. apply Hmod.
Qed.

(** One step of a proof that a handler stays within the frame of [m]. *)
Ltac frame_step m :=
  lazymatch goal with
  | |- keeps _ (_ ≫= _) => apply keeps_bind; [apply (frame_trans m)| |intros ?]
  | |- keeps _ (mret _) => apply keeps_ret, (frame_refl m)
  | |- keeps _ get => apply keeps_get, (frame_refl m)
  | |- keeps _ (lift _) => apply keeps_lift, (frame_refl m)
  | |- keeps _ (load _) => apply keeps_load, (frame_refl m)
  | |- keeps _ (groups_findById _) => apply keeps_groups_findById, (frame_refl m)
  | |- keeps _ (modify _) =>
      apply keeps_modify; intros ?; apply frame_fields; [reflexivity|];
      match goal with s : State |- _ => destruct s; reflexivity end
  | |- keeps _ (store _ _) =>
      apply keeps_store; [apply (frame_refl m)|]; intros ? ? ?;
      apply frame_store; [intros []; reflexivity|assumption]
  | |- keeps _ (forEach _ _) =>
      apply keeps_forEach; [apply (frame_refl m)|apply (frame_trans m)|intros ?]
  | |- keeps _ (setContextsTimes _) =>
      apply keeps_setContextsTimes;
      [apply (frame_refl m)|apply (frame_trans m)
      |intros ? ? ? ? ?; apply frame_store; [intros []; reflexivity|assumption]
      |intros [] ?; apply frame_fields; reflexivity]
  | |- keeps _ (match ?x with _ => _ end) => destruct x
  end.

(** Every mutation, however it ends, stays within its frame. *)
Lemma commit_frame (m : Mutation) : keeps (frame m) (commit Date_parse m).
Proof.
  destruct m as [editing|id|id|edit|p|p|layersConf|contextId|fileName label
                |contextId time|kml|enable|groupId value|value]; cbn [commit].
  - unfold enable_edit. repeat frame_step (Enable_edit editing).
  - unfold edit_item. repeat frame_step (Edit_item id).
  - unfold delete_item. repeat frame_step (Delete_item id).
  - unfold edit_layers. repeat frame_step (Edit_layers edit).
  - unfold save_group. repeat frame_step (Save_group p).
  - unfold save_context. repeat frame_step (Save_context p).
  - unfold receive_layers. repeat frame_step (Receive_layers layersConf).
  - unfold toggle_context. repeat frame_step (Toggle_context contextId).
  - unfold show_layer_info. repeat frame_step (Show_layer_info fileName label).
  - intros s r s' H. unfold set_context_time in H.
    destruct (SparseArray.splice_one _ _ _) as [r0 arr]. injection H as <- <-.
    apply frame_fields; [reflexivity|]. destruct s; reflexivity.
  - unfold overlay_kml. repeat frame_step (Overlay_kml kml).
  - unfold enable_feedback. repeat frame_step (Enable_feedback enable).
  - unfold update_group, swap_context_layers. repeat frame_step (Update_group groupId value).
  - unfold update_layers, swap_context_layers. repeat frame_step (Update_layers value).
Qed.

End FrameOfMutations.

(** ** The tree lookup reads ids and items only *)

Lemma first_hit_ext {A B} (f g : A -> result (option B)) (l : list A) :
  (forall x, f x = g x) -> first_hit f l = first_hit g l.
Proof. intros H. induction l as [|x l IH]; simpl; [reflexivity|]. now rewrite H, IH. Qed.

Lemma findById_from_ext (fuel : nat) (h h' : gmap loc Item.t) (root : loc) (id : Z) :
  (forall l, Item.id <$> h' !! l = Item.id <$> h !! l) ->
  (forall l, Item.items <$> h' !! l = Item.items <$> h !! l) ->
  findById_from fuel h' root id = findById_from fuel h root id.
Proof.
  intros Hid Hitems. revert root. induction fuel as [|n IH]; intros root; simpl; [reflexivity|].
  specialize (Hid root). specialize (Hitems root).
  destruct (h' !! root) as [it'|], (h !! root) as [it|]; simpl in *;
    try discriminate; [|reflexivity].
  injection Hid as ->. injection Hitems as ->.
  destruct (Item.id it =? id); [reflexivity|].
  destruct (Item.items it); [|reflexivity]. now apply first_hit_ext.
Qed.

Lemma size_ext (h h' : gmap loc Item.t) :
  (forall l, Item.id <$> h' !! l = Item.id <$> h !! l) -> size h' = size h.
Proof.
  intros H. rewrite <- !(size_dom (D := gset loc)). f_equal. apply set_eq. intros l.
  rewrite !elem_of_dom, <- !(fmap_is_Some Item.id). now rewrite H.
Qed.

Lemma findById_ext (h h' : gmap loc Item.t) (root : loc) (id : Z) :
  (forall l, Item.id <$> h' !! l = Item.id <$> h !! l) ->
  (forall l, Item.items <$> h' !! l = Item.items <$> h !! l) ->
  findById h' root id = findById h root id.
Proof.
  intros Hid Hitems. unfold findById. rewrite (size_ext h h' Hid).
  now apply findById_from_ext.
Qed.

(** ** The getters read ids and layers only *)

Lemma mapM_lookup_ext {B} (proj : Item.t -> B) (h h' : gmap loc Item.t) (cs : list loc) :
  (forall l, proj <$> h' !! l = proj <$> h !! l) ->
  match mapM (fun c => defined (h' !! c)) cs, mapM (fun c => defined (h !! c)) cs with
  | Ok its', Ok its => map proj its' = map proj its
  | Throw e', Throw e => e' = e
  | _, _ => False
  end.
Proof.
  intros H. induction cs as [|c cs IH]; simpl; [reflexivity|].
  specialize (H c).
  destruct (h' !! c) as [it'|], (h !! c) as [it|]; simpl in *; try discriminate;
    [|reflexivity].
  injection H as H.
  destruct (mapM (fun c => defined (h' !! c)) cs) as [its'|e'],
           (mapM (fun c => defined (h !! c)) cs) as [its|e]; simpl; try tauto.
  now rewrite H, IH.
Qed.

Lemma activeLayers_projected (active : list Z) (its its' : list Item.t) :
  map (fun it => (Item.id it, Item.layers it)) its'
  = map (fun it => (Item.id it, Item.layers it)) its ->
  mapM (fun context => defined (Item.layers context))
       (List.filter (fun context => negb (indexOf (Item.id context) active =? -1)) its')
  = mapM (fun context => defined (Item.layers context))
         (List.filter (fun context => negb (indexOf (Item.id context) active =? -1)) its).
Proof.
  revert its'. induction its as [|it its IH]; intros [|it' its']; simpl; try discriminate;
    [reflexivity|].
  intros H. injection H as Hid Hl Hrest. rewrite Hid.
  destruct (negb (indexOf (Item.id it) active =? -1)); simpl; rewrite ?Hl, (IH its' Hrest);
    reflexivity.
Qed.

Lemma activeLayers_ext (s s' : State) :
  contexts s' = contexts s -> activeContextsIds s' = activeContextsIds s ->
  (forall l, (fun it => (Item.id it, Item.layers it)) <$> heap s' !! l
             = (fun it => (Item.id it, Item.layers it)) <$> heap s !! l) ->
  activeLayers s' = activeLayers s.
Proof.
  intros Hcs Hact Hheap. unfold activeLayers. rewrite Hcs, Hact.
  pose proof (mapM_lookup_ext _ (heap s) (heap s') (contexts s) Hheap) as H.
  destruct (mapM (fun c => defined (heap s' !! c)) (contexts s)) as [its'|e'],
           (mapM (fun c => defined (heap s !! c)) (contexts s)) as [its|e];
    try contradiction; [|now subst].
  simpl. now rewrite (activeLayers_projected _ _ _ H).
Qed.

(** ** What the mutations leave alone *)

Section Invariants.

Variable Date_parse : string -> option Z.

(** The state after a commit, however the handler ended. *)
Definition after (m : Mutation) (s : State) : State := snd (commit Date_parse m s).

Lemma after_frame (m : Mutation) (s : State) : frame m s (after m s).
Proof.
  unfold after. destruct (commit Date_parse m s) as [r s'] eqn:E.
  exact (commit_frame Date_parse m s r s' E).
Qed.

Lemma frame_property {B} (m : Mutation) (proj : Item.t -> B) (s s' : State) (l : loc) :
  (forall it, proj (written_properties m it) = proj it) ->
  frame m s s' -> proj <$> heap s' !! l = proj <$> heap s !! l.
Proof.
  intros Hproj [_ Hobj]. specialize (Hobj l).
  destruct (heap s' !! l) as [it'|], (heap s !! l) as [it|]; simpl in *;
    try discriminate; [|reflexivity].
  injection Hobj as Hobj. f_equal. rewrite <- (Hproj it'), <- (Hproj it). now rewrite Hobj.
Qed.

Lemma frame_field {B} (m : Mutation) (field : State -> B) (s s' : State) :
  (forall s, field (written_fields m s) = field s) ->
  frame m s s' -> field s' = field s.
Proof. intros Hfield [Hf _]. rewrite <- (Hfield s'), <- (Hfield s). now rewrite Hf. Qed.

(** X9: no mutation creates or destroys an object, changes the [id] of an
    object or turns a group into a context or a context into a group,
    however it ends. *)
Theorem mutations_keep_objects (m : Mutation) (s : State) (l : loc) :
  (is_Some (heap (after m s) !! l) <-> is_Some (heap s !! l)) /\
  Item.id <$> heap (after m s) !! l = Item.id <$> heap s !! l /\
  Item.isGroup <$> heap (after m s) !! l = Item.isGroup <$> heap s !! l.
Proof.
  pose proof (after_frame m s) as Hframe.
  assert (Item.id <$> heap (after m s) !! l = Item.id <$> heap s !! l) as Hid
    by (apply (frame_property m); [destruct m; reflexivity|assumption]).
  split; [|split; [exact Hid|]].
  - rewrite <- !(fmap_is_Some Item.id). now rewrite Hid.
  - apply (frame_property m); [destruct m; reflexivity|assumption].
Qed.

(** The mutations that rearrange the tree of groups and contexts. *)
Definition rearranges_tree (m : Mutation) : bool :=
  match m with
  | Delete_item _ | Update_group _ _ | Receive_layers _ => true
  | _ => false
  end.

Lemma frame_findById (m : Mutation) (s s' : State) (root : loc) (id : Z) :
  rearranges_tree m = false -> frame m s s' ->
  findById (heap s') root id = findById (heap s) root id.
Proof.
  intros Hm Hframe.
  apply findById_ext; intros l; apply (frame_property m); try assumption;
    destruct m; reflexivity || discriminate.
Qed.

(** X10: a mutation other than [delete_item], [update_group] and
    [receive_layers] leaves the tree as it is, however it ends: every id
    resolves afterwards to the object it resolved to before. *)
Theorem lookup_stable (m : Mutation) (s : State) (id : Z) :
  rearranges_tree m = false -> resolve (after m s) id = resolve s id.
Proof.
  intros Hm. unfold resolve.
  assert (groups (after m s) = groups s) as ->
    by (apply (frame_field m); [destruct m, s; reflexivity || discriminate|apply after_frame]).
  destruct (groups s) as [root|]; [simpl|reflexivity].
  apply (frame_findById m); [exact Hm|apply after_frame].
Qed.

(** The mutations that write what the getters read. *)
Definition changes_view (m : Mutation) : bool :=
  match m with
  | Save_context _ | Receive_layers _ | Toggle_context _ | Update_layers _ => true
  | _ => false
  end.

(** X11: a mutation other than [save_context], [receive_layers],
    [toggle_context] and [update_layers] changes the result of neither
    getter, however it ends.  So the layers of a context deleted from the
    tree stay active, [delete_item] leaving [state.contexts] and
    [state.activeContextsIds] alone. *)
Theorem getters_unchanged (m : Mutation) (s : State) :
  changes_view m = false ->
  activeLayers (after m s) = activeLayers s /\
  queryableLayers (after m s) = queryableLayers s.
Proof.
  intros Hm. pose proof (after_frame m s) as Hframe.
  assert (activeLayers (after m s) = activeLayers s) as Hal.
  { apply activeLayers_ext.
    - apply (frame_field m); [destruct m, s; reflexivity || discriminate|assumption].
    - apply (frame_field m); [destruct m, s; reflexivity || discriminate|assumption].
    - intros l. apply (frame_property m); [|assumption].
      destruct m; reflexivity || discriminate. }
  split; [exact Hal|]. unfold queryableLayers. now rewrite Hal.
Qed.

(** The state after a sequence of commits. *)
Definition after_all (ms : list Mutation) (s : State) : State :=
  fold_left (fun s m => after m s) ms s.

Lemma toggle_context_distinct (contextId : Z) (s : State) :
  List.NoDup (activeContextsIds s) ->
  List.NoDup (activeContextsIds (snd (toggle_context contextId s))).
Proof.
  intros Hnd. unfold toggle_context. rewrite run_bind, run_get. cbv beta iota.
  rewrite run_bind, run_lift.
  destruct (context_by_id s contextId) as [[c|]|e]; simpl; try assumption.
  destruct (in_dec Z.eq_dec contextId (activeContextsIds s)) as [Hin|Hout].
  - destruct (indexOf_split _ _ Hin) as (l1 & l2 & Hl & Hl1 & Hsp).
    destruct (indexOf contextId (activeContextsIds s) =? -1) eqn:E.
    + apply Z.eqb_eq, indexOf_absent in E. contradiction.
    + simpl. rewrite Hsp. rewrite Hl in Hnd. now apply List.NoDup_remove_1 in Hnd.
  - pose proof Hout as Habs. apply indexOf_absent in Habs. rewrite Habs. simpl.
    apply List.NoDup_app; [exact Hnd|repeat constructor; intros []|].
    intros x Hx [<-|[]]. contradiction.
Qed.

(** The mutation is no [receive_layers]. *)
Definition no_reload (m : Mutation) : bool :=
  match m with
  | Receive_layers _ => false
  | _ => true
  end.

(** X12: [activeContextsIds] holding no id twice is an invariant of every
    sequence of mutations without [receive_layers], whatever the payloads
    and however the handlers end. *)
Theorem active_ids_stay_distinct (ms : list Mutation) (s : State) :
  forallb no_reload ms = true ->
  List.NoDup (activeContextsIds s) ->
  List.NoDup (activeContextsIds (after_all ms s)).
Proof.
  revert s. induction ms as [|m ms IH]; intros s Hms Hnd; [exact Hnd|].
  simpl in Hms. apply andb_prop in Hms as [Hm Hms]. simpl. apply IH; [exact Hms|].
  destruct m as [| | | | | | |contextId| | | | | |];
    try discriminate; try (now apply toggle_context_distinct);
    match goal with
    | |- List.NoDup (activeContextsIds (after ?m s)) =>
        assert (activeContextsIds (after m s) = activeContextsIds s) as ->;
        [apply (frame_field m); [now intros []|apply after_frame]|exact Hnd]
    end.
Qed.

End Invariants.

(** ** Targets that do not resolve *)

Lemma run_groups_findById_throw (id : Z) (s : State) (e : Exn) :
  resolve s id = Throw e -> groups_findById id s = (Throw e, s).
Proof. intros H. unfold groups_findById. now rewrite H. Qed.

(** X13: the mutations that look their target up in the tree raise what the
    lookup raises and write nothing, so a [TypeError] before a configuration
    is loaded; [delete_item], [save_group], [save_context] and
    [update_group] raise a [TypeError] and write nothing when the id
    resolves to no object, and so does [delete_item] on an object without
    [parent], as the root group is. *)
Theorem tree_mutations_raise_on_unresolved_id (Date_parse : string -> option Z)
    (s : State) (id : Z) :
  (forall e, resolve s id = Throw e ->
     edit_item id s = (Throw e, s) /\ delete_item id s = (Throw e, s) /\
     (forall p, sg_id p = id -> save_group p s = (Throw e, s)) /\
     (forall p, sc_id p = id -> save_context Date_parse p s = (Throw e, s)) /\
     (forall value, update_group id value s = (Throw e, s))) /\
  (groups s = None -> resolve s id = Throw TypeError) /\
  (resolve s id = Ok None ->
     delete_item id s = (Throw TypeError, s) /\
     (forall p, sg_id p = id -> save_group p s = (Throw TypeError, s)) /\
     (forall p, sc_id p = id -> save_context Date_parse p s = (Throw TypeError, s)) /\
     (forall value, update_group id value s = (Throw TypeError, s))) /\
  (forall l it, resolve s id = Ok (Some l) -> heap s !! l = Some it ->
     Item.parent it = None -> delete_item id s = (Throw TypeError, s)).
Proof.
  split; [|split; [|split]].
  - intros e Hres. pose proof (run_groups_findById_throw _ _ _ Hres) as Hrun.
    repeat split.
    + unfold edit_item. now rewrite run_bind, Hrun.
    + unfold delete_item. now rewrite run_bind, Hrun.
    + intros p <-. unfold save_group. now rewrite run_bind, Hrun.
    + intros p <-. unfold save_context. now rewrite run_bind, Hrun.
    + intros value. unfold update_group. now rewrite run_bind, Hrun.
  - intros Hg. unfold resolve. now rewrite Hg.
  - intros Hres. pose proof (run_groups_findById _ _ _ Hres) as Hrun.
    repeat split.
    + unfold delete_item. now rewrite run_bind, Hrun.
    + intros p <-. unfold save_group. now rewrite run_bind, Hrun.
    + intros p <-. unfold save_context. now rewrite run_bind, Hrun.
    + intros value. unfold update_group. now rewrite run_bind, Hrun.
  - intros l it Hres Hl Hp. unfold delete_item.
    run_step (run_groups_findById _ _ _ Hres).
    rewrite run_bind, run_lift. cbn [defined]. cbv beta iota.
    run_step (run_load _ _ _ Hl).
    rewrite run_bind, run_lift, Hp. reflexivity.
Qed.

(** X14: [update_group] writes the group and the items of the new list only.
    An item that was dragged out of the group, being no longer in the list,
    keeps every property, its [parent] too, which goes on naming the group
    until the update of the group the item was dropped on. *)
Theorem update_group_keeps_dropped_items (s : State) (groupId : Z) (G : loc)
    (value : list loc) :
  resolve s groupId = Ok (Some G) ->
  (forall item, In item value -> is_Some (heap s !! item)) ->
  exists s',
    update_group groupId value s = (Ok tt, s') /\
    forall x, ~ In x value -> x <> G -> heap s' !! x = heap s !! x.
Proof.
  intros Hres Hlive.
  destruct (update_group_resolved _ _ _ _ Hres Hlive) as (h' & git & Hrun & _ & _ & Hout).
  exists (set_heap h' s). split; [exact Hrun|]. intros x Hx Hne. cbn [heap set_heap].
  rewrite (Hout x Hx). now rewrite lookup_insert_ne.
Qed.

(** ** States the aggregator has settled *)

Section Settled.

Variable Date_parse : string -> option Z.

(** Every context holds the times of its layers and [contextsTimes] is the
    array the contexts record. *)
Definition settled (s : State) : Prop :=
  (forall c, In c (contexts s) ->
     exists it, heap s !! c = Some it /\
                contextTimes Date_parse it = Ok (Item.times it)) /\
  contextsTimes s = fold_left (record_time Date_parse (heap s)) (contexts s) ∅.

Lemma retime_settled (it : Item.t) :
  contextTimes Date_parse it = Ok (Item.times it) -> retime Date_parse it = it.
Proof. intros H. unfold retime. rewrite H. now destruct it. Qed.

Lemma contextTimes_retime (it : Item.t) (ts : list Time) :
  contextTimes Date_parse it = Ok ts ->
  contextTimes Date_parse (retime Date_parse it) = Ok (Item.times (retime Date_parse it)).
Proof.
  intros H. unfold retime. rewrite H.
  change (contextTimes Date_parse (Item.set_times ts it)) with (contextTimes Date_parse it).
  now rewrite H.
Qed.

Lemma setContextsTimes_settles (s s' : State) :
  setContextsTimes Date_parse s = (Ok tt, s') -> settled s'.
Proof.
  intros Hrun. apply setContextsTimes_inv in Hrun as (Hs' & Hlive & Hheap & Hct).
  assert (contexts s' = contexts s) as Hcs by (rewrite Hs'; reflexivity).
  split; rewrite Hcs.
  - intros c Hc. destruct (Hlive c Hc) as (it & ts & Hit & Hts).
    exists (retime Date_parse it). split.
    + rewrite Hheap. destruct (in_dec Pos.eq_dec c (contexts s)); [|contradiction].
      now rewrite Hit.
    + now apply (contextTimes_retime it ts).
  - rewrite Hct. apply fold_left_ext_in. intros acc c Hc. unfold record_time.
    rewrite Hheap. destruct (in_dec Pos.eq_dec c (contexts s)); [|contradiction].
    destruct (heap s !! c); simpl; [now rewrite retime_retime, retime_id|reflexivity].
Qed.

Lemma settled_fixed (s : State) : settled s -> setContextsTimes Date_parse s = (Ok tt, s).
Proof.
  intros [Htimes Htable].
  destruct (setContextsTimes_total Date_parse s) as (s' & Hrun).
  { intros c Hc. destruct (Htimes c Hc) as (it & Hit & Hts).
    destruct (contextTimes_Ok _ _ _ Hts) as (ls & Hls & _). eauto. }
  rewrite Hrun. f_equal.
  apply setContextsTimes_inv in Hrun as (Hs' & _ & Hheap & Hct).
  assert (heap s' = heap s) as Hh.
  { apply map_eq. intros l. rewrite Hheap.
    destruct (in_dec Pos.eq_dec l (contexts s)) as [Hl|]; [|reflexivity].
    destruct (Htimes l Hl) as (it & Hit & Hts). rewrite Hit. simpl.
    now rewrite (retime_settled it Hts). }
  rewrite Hs', Hh, Hct, <- Htable. now destruct s.
Qed.

(** An object whose layers are layers of the catalog [value] found by their
    own ids is left as it is by the re-resolution. *)
Lemma swap_layers_fixed (value : list Layer.t) (it : Item.t) (ls : list Layer.t) :
  Item.layers it = Some (map Some (reresolve value ls)) -> swap_layers value it = it.
Proof.
  intros Hl. rewrite (swap_layers_resolved value it _ Hl), reresolve_idem, <- Hl.
  now destruct it.
Qed.

(** X15: replacing the catalog by the same catalog again changes nothing: the
    second [update_layers] ends normally on the state the first one left and
    leaves it as it is. *)
Theorem update_layers_idempotent (s : State) (L : list Layer.t) :
  contexts_resolved (heap s) (contexts s) ->
  exists s',
    update_layers Date_parse L s = (Ok tt, s') /\
    update_layers Date_parse L s' = (Ok tt, s').
Proof.
  intros Hres.
  destruct (update_layers_run Date_parse s L Hres) as (s1 & s' & Hloop & Hagg & Hrun).
  exists s'. split; [exact Hrun|].
  pose proof (setContextsTimes_settles _ _ Hagg) as Hsettled.
  apply forEach_swap_inv in Hloop as (Hs1 & _ & Hheap1). cbn [heap set_layers] in Hheap1.
  apply setContextsTimes_inv in Hagg as (Hs' & _ & Hheap' & _).
  assert (contexts s1 = contexts s) as Hcs1 by (rewrite Hs1; reflexivity).
  assert (contexts s' = contexts s) as Hcs' by (rewrite Hs'; exact Hcs1).
  assert (layers s' = L) as HL by (rewrite Hs'; simpl; rewrite Hs1; reflexivity).
  assert (forall c, In c (contexts s) ->
            exists it ls, heap s' !! c = Some it /\
                          Item.layers it = Some (map Some (reresolve L ls))) as Hnow.
  { intros c Hc. destruct (Hres c Hc) as (it & ls & Hit & Hls).
    exists (retime Date_parse (swap_layers L it)), ls. split.
    - rewrite Hheap', Hcs1. destruct (in_dec Pos.eq_dec c (contexts s)); [|contradiction].
      rewrite Hheap1. destruct (in_dec Pos.eq_dec c (contexts s)); [|contradiction].
      now rewrite Hit.
    - rewrite retime_layers. now apply swap_layers_layers. }
  assert (set_layers L s' = s') as Hsame by (rewrite <- HL; now destruct s').
  destruct (forEach_swap_total L (contexts s') s') as (s2 & Hloop2).
  { rewrite Hcs'. intros c Hc. destruct (Hnow c Hc) as (it & ls & Hit & Hls). eauto. }
  pose proof Hloop2 as Hloop2'.
  apply forEach_swap_inv in Hloop2' as (Hs2 & _ & Hheap2).
  assert (s2 = s') as ->.
  { rewrite Hs2. assert (heap s2 = heap s') as ->; [|now destruct s'].
    apply map_eq. intros l. rewrite Hheap2, Hcs'.
    destruct (in_dec Pos.eq_dec l (contexts s)) as [Hl|]; [|reflexivity].
    destruct (Hnow l Hl) as (it & ls & Hit & Hls). rewrite Hit. simpl.
    now rewrite (swap_layers_fixed L it ls Hls). }
  unfold update_layers. rewrite run_bind, run_modify. cbv beta iota.
  rewrite Hsame, run_bind, run_get. cbv beta iota.
  rewrite run_bind, Hloop2. now apply settled_fixed.
Qed.

End Settled.

(** ** Loads and saves that fail *)

Section Failures.

Variable Date_parse : string -> option Z.

(** The loop of the aggregator writes objects only, keeps their [layers],
    and raises nothing but a [TypeError]. *)
Definition loop_frame (s s' : State) : Prop :=
  s' = set_heap (heap s') s /\
  forall l, Item.layers <$> heap s' !! l = Item.layers <$> heap s !! l.

Lemma loop_frame_refl (s : State) : loop_frame s s.
Proof. split; [now destruct s|reflexivity]. Qed.

Lemma loop_frame_trans (s1 s2 s3 : State) :
  loop_frame s1 s2 -> loop_frame s2 s3 -> loop_frame s1 s3.
Proof.
  intros [H1 H1'] [H2 H2']. split.
  - rewrite H2, H1. reflexivity.
  - intros l. now rewrite H2', H1'.
Qed.

Lemma setContextsTimes_loop_frame (cs : list loc) (acc : gmap Z Time) :
  keeps loop_frame (setContextsTimes_loop Date_parse acc cs).
Proof.
  apply keeps_setContextsTimes_loop;
    [exact loop_frame_refl|exact loop_frame_trans|].
  intros s l it ts Hl. split; [reflexivity|]. intros l'. cbn [heap set_heap].
  destruct (decide (l = l')) as [<-|Hne].
  - now rewrite lookup_insert_eq, Hl.
  - now rewrite lookup_insert_ne.
Qed.

Lemma mapM_defined_throws {A} (l : list (option A)) (e : Exn) :
  mapM defined l = Throw e -> e = TypeError.
Proof.
  induction l as [|[x|] l IH]; simpl; [discriminate| |congruence].
  destruct (mapM defined l); simpl; [discriminate|]. intros H. apply IH. congruence.
Qed.

Lemma contextTimes_throws (it : Item.t) (e : Exn) :
  contextTimes Date_parse it = Throw e -> e = TypeError.
Proof.
  unfold contextTimes. destruct (Item.layers it) as [ls|]; simpl; [|congruence].
  destruct (mapM defined ls) eqn:E; simpl; [discriminate|]. intros H.
  apply (mapM_defined_throws ls). congruence.
Qed.

Lemma setContextsTimes_loop_throws (cs : list loc) :
  forall (acc : gmap Z Time) (s s' : State) (e : Exn),
    setContextsTimes_loop Date_parse acc cs s = (Throw e, s') -> e = TypeError.
Proof.
  induction cs as [|c cs IH]; intros acc s s' e; simpl; [discriminate|].
  rewrite run_bind. unfold setContextTimes at 1. rewrite run_bind. unfold load at 1.
  destruct (heap s !! c) as [it|] eqn:Hc; simpl; [|congruence].
  rewrite run_bind, run_lift.
  destruct (contextTimes Date_parse it) as [ts|e'] eqn:Hts.
  - cbv beta iota. rewrite run_bind. erewrite run_store by exact Hc. cbv beta iota.
    apply IH.
  - intros H. injection H as <- _. now apply (contextTimes_throws it).
Qed.

(** How the aggregator ends when it raises: with a [TypeError], the array
    [contextsTimes] as it was and the [layers] of every object as they
    were. *)
Lemma setContextsTimes_throws (s s' : State) (e : Exn) :
  setContextsTimes Date_parse s = (Throw e, s') -> e = TypeError /\ loop_frame s s'.
Proof.
  unfold setContextsTimes. rewrite run_bind, run_get. cbv beta iota. rewrite run_bind.
  destruct (setContextsTimes_loop Date_parse ∅ (contexts s) s) as [[acc|e'] s1] eqn:Hloop.
  - rewrite run_modify. discriminate.
  - intros H. injection H as <- <-. split.
    + exact (setContextsTimes_loop_throws _ _ _ _ _ Hloop).
    + exact (setContextsTimes_loop_frame _ _ _ _ _ Hloop).
Qed.

(** A context of the list whose [layers] hold an [undefined] entry makes
    the aggregator raise. *)
Lemma setContextsTimes_undefined_layer (s : State) (c : loc) (it : Item.t)
    (entries : list (option Layer.t)) :
  In c (contexts s) -> heap s !! c = Some it -> Item.layers it = Some entries ->
  In None entries ->
  exists s', setContextsTimes Date_parse s = (Throw TypeError, s').
Proof.
  intros Hc Hit Hl Hnone.
  destruct (setContextsTimes Date_parse s) as [[[]|e] s'] eqn:Hrun.
  - apply setContextsTimes_inv in Hrun as (_ & Hlive & _).
    destruct (Hlive c Hc) as (it' & ts & Hit' & Hts).
    rewrite Hit in Hit'. injection Hit' as <-.
    destruct (contextTimes_Ok _ _ _ Hts) as (ls & Hls & _).
    rewrite Hl in Hls. injection Hls as ->.
    apply in_map_iff in Hnone as (x & Hx & _). discriminate.
  - destruct (setContextsTimes_throws _ _ _ Hrun) as [-> _]. eauto.
Qed.

(** X16: a [save_context] with a layer id that is the id of no catalog layer,
    on a context of [state.contexts], raises a [TypeError] after it has
    written the context: its [layers] then hold [undefined] at the place of
    that id, and [contextsTimes] is not recomputed. *)
Theorem save_context_raises_on_unknown_layer (p : SaveContext) (s : State) (l : loc)
    (id : Z) :
  resolve s (sc_id p) = Ok (Some l) -> In l (contexts s) ->
  In id (sc_layerIds p) ->
  find (fun layer => Layer.id layer =? id) (layers s) = None ->
  exists s' it',
    save_context Date_parse p s = (Throw TypeError, s') /\
    heap s' !! l = Some it' /\
    Item.layers it' = Some (catalog_layers (layers s) (sc_layerIds p)) /\
    In None (catalog_layers (layers s) (sc_layerIds p)) /\
    contextsTimes s' = contextsTimes s.
Proof.
  intros Hres Hl Hid Hfind. destruct (resolve_Some _ _ _ Hres) as (it & Hit & _).
  set (it2 := Item.set_layers (Some (catalog_layers (layers s) (sc_layerIds p)))
                (Item.set_context_fields (sc_label p) (sc_labels p) (sc_infoFile p)
                   (sc_active p) (sc_inlineLegendUrl p) it)).
  set (s2 := set_heap (<[l := it2]> (heap s)) s).
  assert (In None (catalog_layers (layers s) (sc_layerIds p))) as Hnone.
  { unfold catalog_layers. apply in_map_iff. exists id. auto. }
  assert (heap s2 !! l = Some it2) as Hl2 by (cbn [heap set_heap s2]; apply lookup_insert_eq).
  destruct (setContextsTimes_undefined_layer s2 l it2 _ Hl Hl2 eq_refl Hnone) as (s' & Hagg).
  destruct (setContextsTimes_throws _ _ _ Hagg) as (_ & Hs' & Hlayers).
  specialize (Hlayers l). rewrite Hl2 in Hlayers.
  destruct (heap s' !! l) as [it'|] eqn:Hl'; [|discriminate].
  exists s', it'. split; [|split; [exact Hl'|split; [|split; [exact Hnone|]]]].
  - unfold save_context.
    run_step (run_groups_findById _ _ _ Hres).
    rewrite run_bind, run_lift. cbn [defined]. cbv beta iota.
    run_step (run_store _ _ _ _ Hit).
    rewrite run_bind, run_get. cbv beta iota.
    rewrite run_bind.
    erewrite run_store by (cbn [heap set_heap]; apply lookup_insert_eq).
    cbv beta iota. cbn [heap set_heap layers]. rewrite insert_insert_eq.
    exact Hagg.
  - simpl in Hlayers. now injection Hlayers as ->.
  - rewrite Hs'. reflexivity.
Qed.

(** What [receive_layers] runs once the payload is installed. *)
Definition receive_layers_rest : M unit :=
  setContextsTimes Date_parse;;
  s ← get;
  cs ← lift (mapM (fun c => defined (heap s !! c)) (contexts s));
  modify (set_activeContextsIds
            (reduce (fun a c => if Item.active c then a ++ [Item.id c] else a) [] cs)).

Lemma receive_layers_start (layersConf : LayersConf) (s : State) :
  receive_layers Date_parse layersConf s
  = receive_layers_rest
      (set_groups (conf_groups layersConf)
         (set_contexts (conf_contexts layersConf)
            (set_layers (conf_layers layersConf) s))).
Proof. reflexivity. Qed.

(** The payload installed stays installed. *)
Definition installed (s s' : State) : Prop :=
  layers s' = layers s /\ contexts s' = contexts s /\ groups s' = groups s.

Lemma installed_refl (s : State) : installed s s.
Proof. repeat split. Qed.

Lemma installed_trans (s1 s2 s3 : State) :
  installed s1 s2 -> installed s2 s3 -> installed s1 s3.
Proof. unfold installed. intuition congruence. Qed.

Lemma receive_layers_rest_installed : keeps installed receive_layers_rest.
Proof.
  unfold receive_layers_rest.
  apply keeps_bind; [exact installed_trans| |intros _].
  { apply keeps_setContextsTimes; [exact installed_refl|exact installed_trans| |];
      intros; repeat split. }
  apply keeps_bind; [exact installed_trans|apply keeps_get, installed_refl|intros s0].
  apply keeps_bind; [exact installed_trans|apply keeps_lift, installed_refl|intros cs].
  apply keeps_modify. intros; repeat split.
Qed.

Lemma mapM_lookup_Forall2 (h : gmap loc Item.t) (cs : list loc) (its : list Item.t) :
  mapM (fun c => defined (h !! c)) cs = Ok its ->
  Forall2 (fun c it => h !! c = Some it) cs its.
Proof.
  revert its. induction cs as [|c cs IH]; intros its; simpl.
  - intros H. injection H as <-. constructor.
  - destruct (h !! c) as [it|] eqn:E; simpl; [|discriminate].
    destruct (mapM _ cs) as [its'|]; simpl; [|discriminate].
    intros H. injection H as <-. constructor; [assumption|]. now apply IH.
Qed.

(** X17: a load that ends normally installs the catalog, the contexts and the
    tree of the payload, and makes [activeContextsIds] the ids of the
    contexts the payload flags active, in the order of the contexts: what
    was toggled before the load is forgotten, and no id is there twice when
    the contexts have distinct ids.  The load ends normally when the
    contexts of the payload hold layers only. *)
Theorem receive_layers_installs (layersConf : LayersConf) (s : State) :
  contexts_resolved (heap s) (conf_contexts layersConf) ->
  exists s' cs,
    receive_layers Date_parse layersConf s = (Ok tt, s') /\
    layers s' = conf_layers layersConf /\
    contexts s' = conf_contexts layersConf /\
    groups s' = conf_groups layersConf /\
    Forall2 (fun c it => heap s' !! c = Some it) (contexts s') cs /\
    activeContextsIds s' = map Item.id (List.filter Item.active cs) /\
    (List.NoDup (map Item.id cs) -> List.NoDup (activeContextsIds s')).
Proof.
  intros Hres. destruct (receive_layers_total Date_parse layersConf s Hres) as (s' & Hrun).
  destruct (receive_layers_active_ids _ _ _ _ Hrun) as (cs & Hcs & Hids & Hnd).
  exists s', cs. split; [exact Hrun|].
  rewrite receive_layers_start in Hrun.
  destruct (receive_layers_rest_installed _ _ _ Hrun) as (Hl & Hc & Hg).
  repeat split; try assumption. now apply mapM_lookup_Forall2.
Qed.

(** X18: a load that raises leaves the store half written: the catalog, the
    contexts and the tree are those of the payload, [contextsTimes] and
    [activeContextsIds] are still those of the state before.  What it raises
    is a [TypeError], and it does so whenever a context of the payload holds
    an [undefined] layer. *)
Theorem receive_layers_failure_half_written (layersConf : LayersConf) (s : State) :
  (forall e s', receive_layers Date_parse layersConf s = (Throw e, s') ->
     e = TypeError /\
     layers s' = conf_layers layersConf /\
     contexts s' = conf_contexts layersConf /\
     groups s' = conf_groups layersConf /\
     contextsTimes s' = contextsTimes s /\
     activeContextsIds s' = activeContextsIds s) /\
  (forall c it entries,
     In c (conf_contexts layersConf) -> heap s !! c = Some it ->
     Item.layers it = Some entries -> In None entries ->
     exists s', receive_layers Date_parse layersConf s = (Throw TypeError, s')).
Proof.
  set (s3 := set_groups (conf_groups layersConf)
               (set_contexts (conf_contexts layersConf)
                  (set_layers (conf_layers layersConf) s))).
  split.
  - intros e s' Hrun. rewrite receive_layers_start in Hrun. fold s3 in Hrun.
    destruct (receive_layers_rest_installed _ _ _ Hrun) as (Hl & Hc & Hg).
    unfold receive_layers_rest in Hrun. rewrite run_bind in Hrun.
    destruct (setContextsTimes Date_parse s3) as [[[]|e'] s4] eqn:Hagg.
    + exfalso. pose proof Hagg as Hinv.
      apply setContextsTimes_inv in Hinv as (Hs4 & Hlive & Hheap & _).
      rewrite run_bind, run_get in Hrun. cbv beta iota in Hrun.
      rewrite run_bind, run_lift in Hrun.
      destruct (mapM_is_Ok (fun c => defined (heap s4 !! c)) (contexts s4)) as (cs & Hcs).
      { intros c Hc4. rewrite Hs4 in Hc4. cbn [contexts set_contextsTimes set_heap] in Hc4.
        destruct (Hlive c Hc4) as (it & ts & Hit & _). rewrite Hheap.
        destruct (in_dec Pos.eq_dec c (contexts s3)); rewrite Hit; simpl; eauto. }
      rewrite Hcs in Hrun. discriminate.
    + injection Hrun as <- <-.
      destruct (setContextsTimes_throws _ _ _ Hagg) as (-> & Hs4 & _).
      repeat split; try assumption; rewrite Hs4; reflexivity.
  - intros c it entries Hc Hit Hl Hnone.
    destruct (setContextsTimes_undefined_layer s3 c it entries Hc Hit Hl Hnone)
      as (s' & Hagg).
    exists s'. rewrite receive_layers_start. fold s3. unfold receive_layers_rest.
    now rewrite run_bind, Hagg.
Qed.

End Failures.

(** ** The fields of the state and the mutations that write them *)

Inductive Field :=
| F_layers | F_contexts | F_groups | F_layerInfo | F_contextsTimes | F_kmlOverlay
| F_enableFeedback | F_activeContextsIds | F_editing | F_editGroup | F_editContext
| F_editLayers.

(** The fields a mutation assigns, or mutates in place. *)
Definition assigns (m : Mutation) (f : Field) : bool :=
  match m, f with
  | Enable_edit _, F_editing => true
  | Edit_item _, (F_editGroup | F_editContext) => true
  | Edit_layers _, F_editLayers => true
  | Save_context _, F_contextsTimes => true
  | Receive_layers _,
    (F_layers | F_contexts | F_groups | F_contextsTimes | F_activeContextsIds) => true
  | Toggle_context _, F_activeContextsIds => true
  | Show_layer_info _ _, F_layerInfo => true
  | Set_context_time _ _, F_contextsTimes => true
  | Overlay_kml _, F_kmlOverlay => true
  | Enable_feedback _, F_enableFeedback => true
  | Update_layers _, (F_layers | F_contextsTimes) => true
  | _, _ => false
  end.

(** The field [f] of [s'] is that of [s]. *)
Definition same_field (f : Field) (s s' : State) : Prop :=
  match f with
  | F_layers => layers s' = layers s
  | F_contexts => contexts s' = contexts s
  | F_groups => groups s' = groups s
  | F_layerInfo => layerInfo s' = layerInfo s
  | F_contextsTimes => contextsTimes s' = contextsTimes s
  | F_kmlOverlay => kmlOverlay s' = kmlOverlay s
  | F_enableFeedback => enableFeedback s' = enableFeedback s
  | F_activeContextsIds => activeContextsIds s' = activeContextsIds s
  | F_editing => editing s' = editing s
  | F_editGroup => editGroup s' = editGroup s
  | F_editContext => editContext s' = editContext s
  | F_editLayers => editLayers s' = editLayers s
  end.

(** X19: a mutation leaves every field of the state it does not assign as
    it was, however it ends.  Only [edit_item] moves the edit selection, so
    [editGroup] and [editContext] go on naming an item after [delete_item]
    took it out of the tree, and an object of the old tree after
    [receive_layers]; only [receive_layers] and [toggle_context] write
    [activeContextsIds]. *)
Theorem unassigned_fields_kept (Date_parse : string -> option Z) (m : Mutation)
    (f : Field) (s : State) :
  assigns m f = false -> same_field f s (after Date_parse m s).
Proof.
  intros Hm. pose proof (after_frame Date_parse m s) as Hframe.
  destruct f; cbn [same_field]; apply (frame_field m); try assumption;
    destruct m; try discriminate; now intros [].
Qed.

(** ** Saving and loading twice *)

Section Twice.

Variable Date_parse : string -> option Z.

Lemma settled_ext (s s' : State) :
  heap s' = heap s -> contexts s' = contexts s -> contextsTimes s' = contextsTimes s ->
  settled Date_parse s -> settled Date_parse s'.
Proof. unfold settled. intros -> -> ->. auto. Qed.

(** Writing to a context the properties and layers it was saved with
    leaves it as it is, its times recomputed or not. *)
Lemma resave_fixed (p : SaveContext) (v : option (list (option Layer.t))) (it x : Item.t) :
  let saved := Item.set_layers v
                 (Item.set_context_fields (sc_label p) (sc_labels p) (sc_infoFile p)
                    (sc_active p) (sc_inlineLegendUrl p) it) in
  x = saved \/ x = retime Date_parse saved ->
  Item.set_layers v
    (Item.set_context_fields (sc_label p) (sc_labels p) (sc_infoFile p)
       (sc_active p) (sc_inlineLegendUrl p) x) = x.
Proof.
  intros saved [->| ->]; unfold saved; [now destruct it|].
  unfold retime. destruct (contextTimes Date_parse _); now destruct it.
Qed.

(** X20: saving a context twice with the same payload is saving it once:
    the second [save_context] ends normally on the state the first one left
    and changes nothing. *)
Theorem save_context_idempotent (p : SaveContext) (s : State) (l : loc)
    (ls : list Layer.t) :
  resolve s (sc_id p) = Ok (Some l) ->
  catalog_layers (layers s) (sc_layerIds p) = map Some ls ->
  contexts_resolved (heap s) (contexts s) ->
  exists s',
    save_context Date_parse p s = (Ok tt, s') /\
    save_context Date_parse p s' = (Ok tt, s').
Proof.
  intros Hres Hls Hctx.
  destruct (save_context_run Date_parse p s l ls Hres Hls Hctx)
    as (it & s' & Hit & Hagg & Hrun).
  exists s'. split; [exact Hrun|].
  pose proof (commit_frame Date_parse (Save_context p) s (Ok tt) s' Hrun) as Hframe.
  pose proof (setContextsTimes_settles _ _ _ Hagg) as Hsettled.
  set (it2 := Item.set_layers _ _) in Hagg.
  apply setContextsTimes_inv in Hagg as (Hs' & _ & Hheap & _).
  cbn [heap set_heap contexts] in Hheap.
  assert (layers s' = layers s) as Hlayers by (rewrite Hs'; reflexivity).
  assert (resolve s' (sc_id p) = Ok (Some l)) as Hres'.
  { rewrite <- Hres. unfold resolve.
    assert (groups s' = groups s) as -> by (rewrite Hs'; reflexivity).
    destruct (groups s) as [root|]; [simpl|reflexivity].
    now apply (frame_findById (Save_context p)). }
  set (it' := if in_dec Pos.eq_dec l (contexts s) then retime Date_parse it2 else it2).
  assert (heap s' !! l = Some it') as Hl'.
  { rewrite Hheap, lookup_insert_eq. unfold it'.
    now destruct (in_dec Pos.eq_dec l (contexts s)). }
  assert (Item.set_layers (Some (map Some ls))
            (Item.set_context_fields (sc_label p) (sc_labels p) (sc_infoFile p)
               (sc_active p) (sc_inlineLegendUrl p) it') = it') as Hfixed.
  { apply (resave_fixed p (Some (map Some ls)) it). unfold it'. fold it2.
    destruct (in_dec Pos.eq_dec l (contexts s)); auto. }
  unfold save_context.
  run_step (run_groups_findById _ _ _ Hres').
  rewrite run_bind, run_lift. cbn [defined]. cbv beta iota.
  run_step (run_store _ _ _ _ Hl').
  rewrite run_bind, run_get. cbv beta iota.
  rewrite run_bind.
  erewrite run_store by (cbn [heap set_heap]; apply lookup_insert_eq).
  cbv beta iota. cbn [heap set_heap layers]. rewrite Hlayers.
  fold (catalog_layers (layers s) (sc_layerIds p)). rewrite Hls, insert_insert_eq, Hfixed.
  rewrite (insert_id _ _ _ Hl').
  match goal with
  | |- setContextsTimes Date_parse ?x = _ => assert (x = s') as -> by now destruct s'
  end.
  now apply settled_fixed.
Qed.

Lemma receive_layers_rest_inv (s s' : State) :
  receive_layers_rest Date_parse s = (Ok tt, s') ->
  exists s4 cs,
    setContextsTimes Date_parse s = (Ok tt, s4) /\
    mapM (fun c => defined (heap s4 !! c)) (contexts s4) = Ok cs /\
    s' = set_activeContextsIds
           (reduce (fun a c => if Item.active c then a ++ [Item.id c] else a) [] cs) s4.
Proof.
  unfold receive_layers_rest. intros H.
  apply run_bind_inv in H as ([] & s4 & Hagg & H).
  apply run_bind_inv in H as (s5 & s6 & Hget & H).
  rewrite run_get in Hget. injection Hget as Hs5 Hs6. subst s5 s6.
  apply run_bind_inv in H as (cs & s6 & Hcs & H).
  apply run_lift_inv in Hcs as (Hcs & ->).
  rewrite run_modify in H. injection H as <-. eauto.
Qed.

(** X21: loading the same configuration twice is loading it once: the
    second [receive_layers] ends normally on the state the first one left
    and changes nothing. *)
Theorem receive_layers_idempotent (layersConf : LayersConf) (s : State) :
  contexts_resolved (heap s) (conf_contexts layersConf) ->
  exists s',
    receive_layers Date_parse layersConf s = (Ok tt, s') /\
    receive_layers Date_parse layersConf s' = (Ok tt, s').
Proof.
  intros Hres. destruct (receive_layers_total Date_parse layersConf s Hres) as (s' & Hrun).
  exists s'. split; [exact Hrun|].
  rewrite receive_layers_start in Hrun.
  destruct (receive_layers_rest_installed _ _ _ _ Hrun) as (Hl & Hc & Hg).
  cbn [layers contexts groups set_groups set_contexts set_layers] in Hl, Hc, Hg.
  apply receive_layers_rest_inv in Hrun as (s4 & cs & Hagg & Hcs & Hs').
  pose proof (setContextsTimes_settles _ _ _ Hagg) as Hsettled.
  assert (settled Date_parse s') as Hsettled'
    by (apply (settled_ext s4); [rewrite Hs'; reflexivity..|exact Hsettled]).
  rewrite receive_layers_start.
  assert (set_groups (conf_groups layersConf)
            (set_contexts (conf_contexts layersConf)
               (set_layers (conf_layers layersConf) s')) = s') as ->
    by (rewrite <- Hl, <- Hc, <- Hg; now destruct s').
  unfold receive_layers_rest.
  rewrite run_bind, (settled_fixed _ _ Hsettled'). cbv beta iota.
  rewrite run_bind, run_get. cbv beta iota.
  assert (mapM (fun c => defined (heap s' !! c)) (contexts s') = Ok cs) as Hcs'
    by (rewrite Hs'; exact Hcs).
  rewrite run_bind, run_lift, Hcs'. cbv beta iota. rewrite run_modify.
  f_equal. rewrite Hs' at 2. rewrite Hs'. reflexivity.
Qed.

End Twice.

(** * Properties of the schema *)

(** ** Validation comes to an end *)

Lemma all_results_is_Some {A B} (f : A -> option B) (l : list A) :
  (forall x, In x l -> is_Some (f x)) -> is_Some (all_results f l).
Proof.
  induction l as [|x l IH]; intros H; simpl; [eauto|].
  destruct (H x (or_introl eq_refl)) as [y ->].
  destruct IH as [ys ->]; [intros z Hz; apply H; now right|]. eauto.
Qed.

Lemma all_violations_is_Some {A B} (f : A -> option (list B)) (l : list A) :
  (forall x, In x l -> is_Some (f x)) -> is_Some (all_violations f l).
Proof.
  intros H. unfold all_violations.
  destruct (all_results_is_Some f l H) as [rs ->]. eauto.
Qed.

Lemma depth_element (es : list json) (e : json) :
  In e es -> (depth e < depth (JArr es))%nat.
Proof.
  intros H. simpl. apply Nat.lt_succ_r.
  assert (Forall (fun k => (k <= list_max (map depth es))%nat) (map depth es)) as Hall
    by now apply list_max_le.
  rewrite List.Forall_forall in Hall. apply Hall. now apply in_map.
Qed.

Lemma depth_member (ms : list (string * json)) (m : string * json) :
  In m ms -> (depth (snd m) < depth (JObj ms))%nat.
Proof.
  intros H. simpl. apply Nat.lt_succ_r.
  assert (Forall (fun k => (k <= list_max (map (fun m => depth (snd m)) ms))%nat)
                 (map (fun m => depth (snd m)) ms)) as Hall by now apply list_max_le.
  rewrite List.Forall_forall in Hall. apply Hall.
  now apply (in_map (fun m => depth (snd m))).
Qed.

Lemma property_In (k : string) (ps : list (string * schema)) (s : schema) :
  property k ps = Some s -> exists k', In (k', s) ps.
Proof.
  induction ps as [|[k' s'] ps IH]; simpl; [discriminate|].
  destruct (String.eqb k' k).
  - intros H. injection H as <-. eauto.
  - intros H. destruct (IH H) as [k'' Hin]. eauto.
Qed.

Lemma indexed_from_In {A} (l : list A) (i : nat) (ie : nat * A) :
  In ie (indexed_from i l) -> In (snd ie) l.
Proof.
  revert i. induction l as [|x l IH]; intros i; simpl; [tauto|].
  intros [<-|H]; [now left|right; now apply (IH (S i))].
Qed.

Section Termination.

Variable regex_match : string -> string -> bool.
Variable definitions : list (string * schema).

(** With fuel [n] or more, validation against [s] of a document of depth
    [d] at most comes to an end. *)
Definition okd (d n : nat) (s : schema) : Prop :=
  forall m, (n <= m)%nat -> forall j path, (depth j <= d)%nat ->
    is_Some (validate regex_match definitions m path s j).

(** The same for the parts of such a document. *)
Definition child_ok (d n : nat) (s : schema) : Prop :=
  match d with
  | O => True
  | S d' => okd d' n s
  end.

Definition kw_ok (d n : nat) (k : keyword) : Prop :=
  match k with
  | KProperties ps => Forall (fun p => child_ok d n (snd p)) ps
  | KItems s' => child_ok d n s'
  | KOneOf ss => Forall (okd d n) ss
  | _ => True
  end.

Lemma okd_weaken (d d' n n' : nat) (s : schema) :
  (d' <= d)%nat -> (n <= n')%nat -> okd d n s -> okd d' n' s.
Proof. intros Hd Hn H m Hm j path Hj. apply H; lia. Qed.

Lemma validate_keyword_is_Some (d n m : nat) (siblings : schema) (path : list segment)
    (k : keyword) (j : json) :
  kw_ok d n k -> (n <= m)%nat -> (depth j <= d)%nat ->
  is_Some (validate_keyword regex_match
             (validate regex_match definitions m) siblings path k j).
Proof.
  intros Hk Hm Hj. destruct k as [t|vs|re|ps|ks|b|s'|ss|p]; simpl; eauto.
  - destruct j as [| | | |es|ms]; eauto. apply all_violations_is_Some.
    intros m0 Hm0. destruct (property (fst m0) ps) as [s'|] eqn:Hp; [|eauto].
    apply property_In in Hp as [k' Hin]. simpl in Hk.
    rewrite List.Forall_forall in Hk. specialize (Hk _ Hin). simpl in Hk.
    pose proof (depth_member _ _ Hm0) as Hlt.
    destruct d as [|d']; [lia|]. apply Hk; [assumption|lia].
  - destruct j as [| | | |es|ms]; eauto. apply all_violations_is_Some.
    intros ie Hie. apply indexed_from_In in Hie.
    pose proof (depth_element _ _ Hie) as Hlt. simpl in Hk.
    destruct d as [|d']; [lia|]. apply Hk; [assumption|lia].
  - simpl in Hk. rewrite List.Forall_forall in Hk.
    destruct (all_results_is_Some (fun s' => validate regex_match definitions m path s' j) ss)
      as [rs ->]; [|simpl; eauto].
    intros s' Hs'. now apply (Hk s' Hs').
Qed.

Lemma okd_step_keywords (d N : nat) (s : schema) :
  find_ref s = None -> (1 <= N)%nat -> Forall (kw_ok d (N - 1)) s -> okd d N s.
Proof.
  intros Href HN Hall m Hm j path Hj. destruct m as [|m]; [lia|]. simpl. rewrite Href.
  apply all_violations_is_Some. intros k Hk. rewrite List.Forall_forall in Hall.
  apply (validate_keyword_is_Some d (N - 1)); [auto|lia|assumption].
Qed.

Lemma okd_step_ref (d N : nat) (s s' : schema) (pointer : string) :
  find_ref s = Some pointer -> resolve_ref definitions pointer = Some s' ->
  (1 <= N)%nat -> okd d (N - 1) s' -> okd d N s.
Proof.
  intros Href Hres HN Hs' m Hm j path Hj. destruct m as [|m]; [lia|]. simpl.
  rewrite Href, Hres. apply Hs'; [lia|assumption].
Qed.

End Termination.

(** One step of a proof that validation against a closed schema ends:
    enter the keywords of the schema, or follow its [$ref]; at a part of the
    document, tell the document that has parts from the one that has none. *)
Ltac ok_step :=
  match goal with
  | |- True => exact I
  | |- Forall _ [] => constructor
  | |- Forall _ (_ :: _) => constructor
  | |- Forall ?P ?l => let l' := eval hnf in l in progress change (Forall P l')
  | |- kw_ok _ _ _ _ _ => cbn [kw_ok snd]
  | |- child_ok _ _ O _ _ => exact I
  | |- child_ok _ _ (S _) _ _ => cbn [child_ok]
  | |- child_ok _ _ ?d _ _ => is_var d; destruct d
  | |- okd _ _ _ _ _ =>
      first [ apply okd_step_keywords; [reflexivity|lia|]
            | eapply okd_step_ref; [reflexivity|reflexivity|lia|] ]
  end.

(** The same, with [known] closing the goals it can. *)
Ltac ok_steps known := repeat first [ solve [known] | ok_step ].

Lemma items_ok_at (regex_match : string -> string -> bool) (d : nat) :
  okd regex_match ConfigSchema.definitions d (6 * d + 6) ConfigSchema.items.
Proof.
  induction d as [|d IH]; 
    ok_steps ltac:(eapply okd_weaken; [| |exact IH]; lia).
Qed.

Lemma items_ok (regex_match : string -> string -> bool) (d n : nat) :
  (6 * d + 6 <= n)%nat -> okd regex_match ConfigSchema.definitions d n ConfigSchema.items.
Proof. intros Hn. apply (okd_weaken _ _ d d (6 * d + 6)); [lia|lia|apply items_ok_at]. Qed.

Lemma document_ok (regex_match : string -> string -> bool) (d : nat) :
  okd regex_match ConfigSchema.definitions d (6 * d + 12) ConfigSchema.document.
Proof.
  ok_steps ltac:(apply items_ok; lia).
Qed.

(** Every document is validated to the end. *)
Lemma validate_document_total (regex_match : string -> string -> bool) (doc : json) :
  is_Some (validate_document regex_match doc).
Proof. apply (document_ok regex_match (depth doc)); unfold fuel_for; lia. Qed.

(** ** What a validation reports *)

Lemma all_results_In {A B} (f : A -> option B) (l : list A) (rs : list B) (x : A) :
  all_results f l = Some rs -> In x l -> exists r, f x = Some r /\ In r rs.
Proof.
  revert rs. induction l as [|y l IH]; intros rs; simpl; [intros _ []|].
  destruct (f y) as [ry|] eqn:Hy; [|discriminate].
  destruct (all_results f l) as [rs'|]; [|discriminate].
  intros H. injection H as <-. intros [<-|Hx].
  - exists ry. simpl. auto.
  - destruct (IH rs' eq_refl Hx) as (r & Hr & Hin). exists r. simpl. auto.
Qed.

Lemma all_violations_In {A B} (f : A -> option (list B)) (l : list A) (vs : list B) (x : A) :
  all_violations f l = Some vs -> In x l ->
  exists r, f x = Some r /\ incl r vs.
Proof.
  unfold all_violations. destruct (all_results f l) as [rs|] eqn:Hrs; [|discriminate].
  intros H Hx. injection H as <-.
  destruct (all_results_In _ _ _ _ Hrs Hx) as (r & Hr & Hin). exists r.
  split; [assumption|]. intros v Hv. apply in_concat. eauto.
Qed.

Lemma indexed_from_nth {A} (l : list A) (k i : nat) (x : A) :
  nth_error l i = Some x -> In ((k + i)%nat, x) (indexed_from k l).
Proof.
  revert k i. induction l as [|y l IH]; intros k [|i]; simpl; try discriminate.
  - intros H. injection H as <-. left. f_equal. lia.
  - intros H. right. replace (k + S i)%nat with (S k + i)%nat by lia. now apply IH.
Qed.

Section Reports.

Variable regex_match : string -> string -> bool.
Variable definitions : list (string * schema).


(** The violations of a keyword of a schema are violations of the schema. *)
Lemma validate_keyword_incl (n : nat) (path : list segment) (s : schema) (j : json)
    (vs : list violation) (k : keyword) :
  find_ref s = None -> validate regex_match definitions (S n) path s j = Some vs -> In k s ->
  exists r, validate_keyword regex_match (validate regex_match definitions n) s path k j = Some r /\ incl r vs.
Proof.
  intros Href H Hk. simpl in H. rewrite Href in H.
  exact (all_violations_In _ s vs k H Hk).
Qed.

Lemma validate_ref (n : nat) (path : list segment) (s s' : schema) (j : json)
    (pointer : string) :
  find_ref s = Some pointer -> resolve_ref definitions pointer = Some s' ->
  validate regex_match definitions (S n) path s j = validate regex_match definitions n path s' j.
Proof. intros Href Hres. simpl. now rewrite Href, Hres. Qed.

(** The violations of a member of an object are violations of the object. *)
Lemma validate_property_incl (rec : list segment -> schema -> json -> option (list violation))
    (siblings : schema) (path : list segment) (ps : list (string * schema))
    (ms : list (string * json)) (r : list violation) (m : string * json) (s' : schema) :
  validate_keyword regex_match rec siblings path (KProperties ps) (JObj ms) = Some r ->
  In m ms -> property (fst m) ps = Some s' ->
  exists r', rec (path ++ [Key (fst m)]) s' (snd m) = Some r' /\ incl r' r.
Proof.
  simpl. intros H Hm Hp.
  destruct (all_violations_In _ _ _ _ H Hm) as (r' & Hr' & Hincl).
  cbv beta in Hr'. rewrite Hp in Hr'. eauto.
Qed.

(** The violations of an element of an array are violations of the array. *)
Lemma validate_item_incl (rec : list segment -> schema -> json -> option (list violation))
    (siblings : schema) (path : list segment) (s' : schema) (es : list json)
    (r : list violation) (i : nat) (e : json) :
  validate_keyword regex_match rec siblings path (KItems s') (JArr es) = Some r ->
  nth_error es i = Some e ->
  exists r', rec (path ++ [Index i]) s' e = Some r' /\ incl r' r.
Proof.
  simpl. intros H He.
  apply (all_violations_In _ _ _ ((0 + i)%nat, e) H), (indexed_from_nth es 0 i e He).
Qed.

(** When no alternative accepts the document, [oneOf] reports it. *)
Lemma validate_oneOf_none (rec : list segment -> schema -> json -> option (list violation))
    (siblings : schema) (path : list segment) (ss : list schema) (j : json)
    (r : list violation) :
  validate_keyword regex_match rec siblings path (KOneOf ss) j = Some r ->
  (forall s' r', In s' ss -> rec path s' j = Some r' -> r' <> []) ->
  r = [mkViolation path (OneOfMismatch 0)].
Proof.
  simpl.
  destruct (all_results (fun s' => rec path s' j) ss) as [rs|] eqn:Hrs; [|discriminate].
  simpl. intros H Hnone. injection H as <-.
  assert (count_valid rs = 0%nat) as ->; [|reflexivity].
  revert rs Hrs. induction ss as [|s' ss IH]; intros rs; simpl.
  - intros H. now injection H as <-.
  - destruct (rec path s' j) as [r'|] eqn:Hr'; [|discriminate].
    destruct (all_results _ ss) as [rs'|]; [|discriminate].
    intros H. injection H as <-. unfold count_valid in *. simpl.
    destruct r' as [|v r']; [now destruct (Hnone s' [] (or_introl eq_refl) Hr')|].
    apply (IH (fun s'' r'' Hs'' => Hnone s'' r'' (or_intror Hs'')) rs' eq_refl).
Qed.

(** With [additionalProperties] false, a member the schema does not declare
    is reported at its own path. *)
Lemma validate_additional_reported
    (rec : list segment -> schema -> json -> option (list violation))
    (siblings : schema) (path : list segment) (ms : list (string * json))
    (r : list violation) (m : string * json) :
  validate_keyword regex_match rec siblings path (KAdditionalProperties false) (JObj ms)
    = Some r ->
  In m ms -> property (fst m) (declared siblings) = None ->
  In (mkViolation (path ++ [Key (fst m)]) (AdditionalProperty (fst m))) r.
Proof.
  cbn [validate_keyword]. intros H Hm Hp. injection H as <-.
  apply in_flat_map. exists m. split; [assumption|]. rewrite Hp. now left.
Qed.

End Reports.

Lemma property_None (k : string) (ps : list (string * schema)) :
  ~ In k (map fst ps) -> property k ps = None.
Proof.
  induction ps as [|[k' s] ps IH]; simpl; [reflexivity|]. intros H.
  destruct (String.eqb_spec k' k); [tauto|]. apply IH. tauto.
Qed.

(** ** Rejections *)

(** The entry lacks the property [k]. *)
Definition lacks (k : string) (e : json) : Prop :=
  match e with
  | JObj em => has_key k em = false
  | _ => True
  end.

(** The entry has [type] equal to [t]. *)
Definition typed (t : string) (e : json) : Prop :=
  match e with
  | JObj em => In ("type", JStr t) em
  | _ => False
  end.

Lemma fuel_for_S (doc : json) : exists n, fuel_for doc = S (S (S (S (S n)))).
Proof. exists (6 * depth doc + 7)%nat. unfold fuel_for. lia. Qed.

Lemma has_key_false_missing (k : string) (ks : list string) (em : list (string * json))
    (path : list segment) :
  In k ks -> has_key k em = false ->
  In (mkViolation path (MissingProperty k))
     (flat_map (fun k => if has_key k em then [] else [mkViolation path (MissingProperty k)])
               ks).
Proof. intros Hk Hno. apply in_flat_map. exists k. rewrite Hno. simpl. auto. Qed.

Lemma has_key_true_member (k : string) (em : list (string * json)) :
  has_key k em = true -> exists v, In (k, v) em.
Proof.
  unfold has_key. intros H. apply existsb_exists in H as ([k' v] & Hin & Heq).
  apply String.eqb_eq in Heq. simpl in Heq. subst. eauto.
Qed.

Section Rejections.

Variable regex_match : string -> string -> bool.

(** An object schema with [required] does not accept an entry that is no
    object or lacks a required property. *)
Lemma required_rejects (n : nat) (path : list segment) (s : schema) (e : json)
    (r : list violation) (k : string) (ks : list string) :
  find_ref s = None -> In (KType TObject) s -> In (KRequired ks) s -> In k ks ->
  lacks k e ->
  validate regex_match ConfigSchema.definitions (S n) path s e = Some r -> r <> [].
Proof.
  intros Href Htype Hreq Hk Hlacks Hr.
  destruct e as [| | | |es|em].
  1-5: destruct (validate_keyword_incl _ _ _ _ _ _ _ _ Href Hr Htype) as (r' & Hr' & Hincl);
       simpl in Hr'; injection Hr' as <-; intros ->;
       apply (Hincl (mkViolation path (WrongType TObject))); simpl; auto.
  destruct (validate_keyword_incl _ _ _ _ _ _ _ _ Href Hr Hreq) as (r' & Hr' & Hincl).
  simpl in Hr'. injection Hr' as <-. intros ->.
  apply (Hincl (mkViolation path (MissingProperty k))).
  now apply has_key_false_missing.
Qed.

(** An object schema whose [type] property is an enumeration of [t] alone
    and is required does not accept an entry that is not typed [t]. *)
Lemma type_enum_rejects (n : nat) (path : list segment) (s : schema) (e : json)
    (r : list violation) (t : string) (ps : list (string * schema)) (ks : list string) :
  find_ref s = None -> In (KType TObject) s -> In (KProperties ps) s ->
  property "type" ps = Some [KEnum [t]] -> In (KRequired ks) s -> In "type" ks ->
  ~ typed t e ->
  validate regex_match ConfigSchema.definitions (S n) path s e = Some r -> r <> [].
Proof.
  intros Href Htype Hprops Hp Hreq Hk Hnot Hr.
  destruct e as [| | | |es|em];
    try (match type of Hr with
         | validate _ _ _ _ _ ?e = _ =>
             exact (required_rejects n path s e r "type" ks Href Htype Hreq Hk I Hr)
         end).
  destruct (has_key "type" em) eqn:Hkey;
    [|exact (required_rejects n path s (JObj em) r "type" ks Href Htype Hreq Hk Hkey Hr)].
  apply has_key_true_member in Hkey as [v Hv].
  destruct (validate_keyword_incl _ _ _ _ _ _ _ _ Href Hr Hprops) as (r1 & Hr1 & Hincl1).
  destruct (validate_property_incl _ _ _ _ _ _ _ ("type", v) _ Hr1 Hv Hp)
    as (r2 & Hr2 & Hincl2).
  destruct n as [|n]; [discriminate|]. simpl in Hr2.
  assert (In (mkViolation (path ++ [Key "type"]) (NotInEnum [t])) r2) as Hin.
  { destruct v as [| | |s0| |]; injection Hr2 as <-; simpl; auto.
    destruct (String.eqb s0 t) eqn:E; simpl; auto.
    apply String.eqb_eq in E. subst s0. simpl in Hnot. contradiction. }
  intros ->. apply (Hincl1 _ (Hincl2 _ Hin)).
Qed.

End Rejections.

(** C9: the validator rejects every document object that has a top-level
    key other than [$schema], [layers], [contexts] and [group], with a
    violation at that key; and it rejects every document with a [layers]
    entry that is not typed [bing-aerial] or [osm] and lacks [serverUrls],
    [name] or [id], with a violation at the path of that entry.  In both
    cases the validation comes to an end and reports the violation. *)
Theorem schema_rejects_undeclared_and_incomplete
    (regex_match : string -> string -> bool) :
  (forall (ms : list (string * json)) (k : string) (v : json),
     In (k, v) ms -> ~ In k ["$schema"; "layers"; "contexts"; "group"] ->
     exists vs,
       validate_document regex_match (JObj ms) = Some vs /\
       In (mkViolation [Key k] (AdditionalProperty k)) vs) /\
  (forall (ms : list (string * json)) (ls : list json) (i : nat) (e : json) (k : string),
     In ("layers", JArr ls) ms -> nth_error ls i = Some e ->
     ~ typed "bing-aerial" e -> ~ typed "osm" e ->
     In k ["serverUrls"; "name"; "id"] -> lacks k e ->
     exists vs,
       validate_document regex_match (JObj ms) = Some vs /\
       In (mkViolation [Key "layers"; Index i] (OneOfMismatch 0)) vs).
Proof.
  split.
  - intros ms k v Hin Hnew.
    destruct (validate_document_total regex_match (JObj ms)) as [vs Hvs].
    exists vs. split; [exact Hvs|].
    unfold validate_document in Hvs. destruct (fuel_for_S (JObj ms)) as [n Hn].
    rewrite Hn in Hvs.
    destruct (validate_keyword_incl _ _ _ _ ConfigSchema.document _ _
                (KAdditionalProperties false) eq_refl Hvs) as (r & Hr & Hincl);
      [right; right; left; reflexivity|].
    apply Hincl.
    apply (validate_additional_reported _ _ _ [] _ _ (k, v) Hr Hin).
    apply property_None. exact Hnew.
  - intros ms ls i e k Hin Hnth Hbing Hosm Hk Hlacks.
    destruct (validate_document_total regex_match (JObj ms)) as [vs Hvs].
    exists vs. split; [exact Hvs|].
    unfold validate_document in Hvs. destruct (fuel_for_S (JObj ms)) as [n Hn].
    rewrite Hn in Hvs.
    eapply validate_keyword_incl in Hvs as (r1 & Hr1 & Hincl1);
      [|reflexivity|right; left; reflexivity].
    eapply (validate_property_incl _ _ _ _ _ _ _ ("layers", JArr ls)) in Hr1
      as (r2 & Hr2 & Hincl2); [|exact Hin|reflexivity].
    eapply validate_keyword_incl in Hr2 as (r3 & Hr3 & Hincl3);
      [|reflexivity|right; left; reflexivity].
    eapply validate_item_incl in Hr3 as (r4 & Hr4 & Hincl4); [|exact Hnth].
    eapply validate_keyword_incl in Hr4 as (r5 & Hr5 & Hincl5);
      [|reflexivity|left; reflexivity].
    apply Hincl1, Hincl2, Hincl3, Hincl4, Hincl5.
    rewrite (validate_oneOf_none _ _ _ _ _ _ _ Hr5); [simpl; auto|].
    intros s' r' Hs' Hr'. simpl in Hs'. destruct Hs' as [<-|[<-|[<-|[]]]].
    + erewrite validate_ref in Hr'; [|reflexivity|reflexivity].
      eapply (required_rejects _ _ _ ConfigSchema.wms _ _ k); [| | | |exact Hlacks|exact Hr'];
        [reflexivity|left; reflexivity|right; right; left; reflexivity|].
      simpl in Hk. simpl. tauto.
    + erewrite validate_ref in Hr'; [|reflexivity|reflexivity].
      eapply (type_enum_rejects _ _ _ ConfigSchema.bingAerial _ _ "bing-aerial");
        [| | | | | |exact Hbing|exact Hr'];
        [reflexivity|left; reflexivity|right; left; reflexivity|reflexivity
        |right; right; left; reflexivity|left; reflexivity].
    + erewrite validate_ref in Hr'; [|reflexivity|reflexivity].
      eapply (type_enum_rejects _ _ _ ConfigSchema.osm _ _ "osm");
        [| | | | | |exact Hosm|exact Hr'];
        [reflexivity|left; reflexivity|right; left; reflexivity|reflexivity
        |right; right; left; reflexivity|left; reflexivity].
Qed.

(** ** Acceptance *)

Lemma all_results_Forall {A B} (f : A -> option B) (l : list A) (y : B) :
  Forall (fun x => f x = Some y) l -> all_results f l = Some (map (fun _ => y) l).
Proof.
  induction 1 as [|x l Hx _ IH]; simpl; [reflexivity|]. now rewrite Hx, IH.
Qed.

Lemma all_violations_none {A B} (f : A -> option (list B)) (l : list A) :
  Forall (fun x => f x = Some []) l -> all_violations f l = Some [].
Proof.
  intros H. unfold all_violations. rewrite (all_results_Forall f l [] H). f_equal.
  induction l; simpl; auto. apply IHl. now inversion H.
Qed.

Section Acceptance.

Variable regex_match : string -> string -> bool.
Variable definitions : list (string * schema).

(** A schema without [$ref] accepts what each of its keywords accepts. *)
Lemma validate_keywords_accept (n : nat) (path : list segment) (s : schema) (j : json) :
  find_ref s = None ->
  Forall (fun k => validate_keyword regex_match (validate regex_match definitions n)
                     s path k j = Some []) s ->
  validate regex_match definitions (S n) path s j = Some [].
Proof. intros Href H. simpl. rewrite Href. now apply all_violations_none. Qed.

Lemma properties_accept (rec : list segment -> schema -> json -> option (list violation))
    (siblings : schema) (path : list segment) (ps : list (string * schema))
    (ms : list (string * json)) :
  Forall (fun m => match property (fst m) ps with
                   | Some s' => rec (path ++ [Key (fst m)]) s' (snd m) = Some []
                   | None => True
                   end) ms ->
  validate_keyword regex_match rec siblings path (KProperties ps) (JObj ms) = Some [].
Proof.
  intros H. cbn [validate_keyword]. apply all_violations_none.
  eapply List.Forall_impl; [|exact H]. intros m Hm. cbv beta in *.
  now destruct (property (fst m) ps).
Qed.

Lemma items_accept (rec : list segment -> schema -> json -> option (list violation))
    (siblings : schema) (path : list segment) (s' : schema) (es : list json) :
  (forall p e, In e es -> rec p s' e = Some []) ->
  validate_keyword regex_match rec siblings path (KItems s') (JArr es) = Some [].
Proof.
  intros H. cbn [validate_keyword]. apply all_violations_none.
  apply List.Forall_forall. intros ie Hie. apply H. now apply indexed_from_In in Hie.
Qed.

End Acceptance.

(** ** Configurations written with the required properties *)

(** A layer entry with the properties its kind requires; a wms entry needs
    no [type]. *)
Inductive LayerEntry :=
| WmsEntry (id : Q) (name : string) (serverUrls : list string)
| BingAerialEntry (id : Q)
| OsmEntry (id : Q).

Record ContextEntry := mkContextEntry { entry_id : Q; entry_layers : list Q }.

(** The tree of the configuration: a context by its id, or a group with its
    labels (language and text) and its items. *)
Inductive TreeItem :=
| ContextRef (context : Q)
| GroupNode (labels : list (string * string)) (items : list TreeItem).

Definition encode_layer (l : LayerEntry) : json :=
  match l with
  | WmsEntry id name serverUrls =>
      JObj [("id", JNum id); ("name", JStr name);
            ("serverUrls", JArr (map JStr serverUrls))]
  | BingAerialEntry id => JObj [("type", JStr "bing-aerial"); ("id", JNum id)]
  | OsmEntry id => JObj [("type", JStr "osm"); ("id", JNum id)]
  end.

Definition encode_context (c : ContextEntry) : json :=
  JObj [("id", JNum (entry_id c)); ("layers", JArr (map JNum (entry_layers c)))].

Definition encode_label (l : string * string) : json :=
  JObj [("language", JStr (fst l)); ("label", JStr (snd l))].

Fixpoint encode_item (t : TreeItem) : json :=
  match t with
  | ContextRef context => JObj [("context", JNum context)]
  | GroupNode labels items =>
      JObj [("group", JObj [("labels", JArr (map encode_label labels));
                            ("items", JArr (map encode_item items))])]
  end.

Definition encode (layers : list LayerEntry) (contexts : list ContextEntry)
    (tree : list TreeItem) : json :=
  JObj [("layers", JArr (map encode_layer layers));
        ("contexts", JArr (map encode_context contexts));
        ("group", JObj [("items", JArr (map encode_item tree))])].

(** The nesting of groups in an item. *)
Fixpoint height (t : TreeItem) : nat :=
  match t with
  | ContextRef _ => O
  | GroupNode _ items => S (list_max (map height items))
  end.

Section TypedConfiguration.

Variable regex_match : string -> string -> bool.

Abbreviation validate_at n path s j :=
  (validate regex_match ConfigSchema.definitions n path s j).

Lemma string_accepted (n : nat) (path : list segment) (s : string) :
  validate_at (S n) path ConfigSchema.string_ (JStr s) = Some [].
Proof. reflexivity. Qed.

Lemma number_accepted (n : nat) (path : list segment) (q : Q) :
  validate_at (S n) path ConfigSchema.number_ (JNum q) = Some [].
Proof. reflexivity. Qed.

Lemma strings_accepted (n : nat) (path : list segment) (l : list string) :
  validate_at (S (S n)) path [KType TArray; KItems ConfigSchema.string_] (JArr (map JStr l))
  = Some [].
Proof.
  apply validate_keywords_accept; [reflexivity|].
  constructor; [reflexivity|]. constructor; [|constructor].
  apply items_accept. intros p e He. apply in_map_iff in He as (s & <- & _).
  apply string_accepted.
Qed.

Lemma numbers_accepted (n : nat) (path : list segment) (l : list Q) :
  validate_at (S (S n)) path [KType TArray; KItems ConfigSchema.number_] (JArr (map JNum l))
  = Some [].
Proof.
  apply validate_keywords_accept; [reflexivity|].
  constructor; [reflexivity|]. constructor; [|constructor].
  apply items_accept. intros p e He. apply in_map_iff in He as (s & <- & _).
  apply number_accepted.
Qed.

Lemma labels_accepted (n : nat) (path : list segment) (l : list (string * string)) :
  validate_at (S (S (S n))) path ConfigSchema.labels (JArr (map encode_label l)) = Some [].
Proof.
  apply validate_keywords_accept; [reflexivity|].
  constructor; [reflexivity|]. constructor; [|constructor].
  apply items_accept. intros p e He. apply in_map_iff in He as ([language label] & <- & _).
  reflexivity.
Qed.

(** The schema of an entry of [layers]. *)
Definition layer_schema : schema :=
  [KOneOf [ConfigSchema.ref "wms"; ConfigSchema.ref "bingAerial"; ConfigSchema.ref "osm"]].

Lemma layer_accepted (n : nat) (path : list segment) (l : LayerEntry) :
  validate_at (S (S (S (S (S n))))) path layer_schema (encode_layer l) = Some [].
Proof.
  apply validate_keywords_accept; [reflexivity|]. constructor; [|constructor].
  destruct l as [id name serverUrls|id|id]; cbn [validate_keyword all_results layer_schema].
  - assert (validate_at (S (S (S (S n)))) path (ConfigSchema.ref "wms")
              (encode_layer (WmsEntry id name serverUrls)) = Some []) as ->.
    { erewrite validate_ref; [|reflexivity|reflexivity].
      apply validate_keywords_accept; [reflexivity|].
      constructor; [reflexivity|]. constructor; [|repeat constructor].
      apply properties_accept. repeat constructor. apply strings_accepted. }
    reflexivity.
  - reflexivity.
  - reflexivity.
Qed.

(** The schema of an entry of [contexts]. *)
Definition context_schema : schema :=
  [KType TObject;
   KProperties
     [("id", ConfigSchema.number_); ("infoFile", ConfigSchema.string_);
      ("labels", ConfigSchema.ref "labels");
      ("inlineLegendUrl", ConfigSchema.string_); ("downloadUrl", ConfigSchema.string_);
      ("layers", [KType TArray; KItems ConfigSchema.number_]);
      ("active", ConfigSchema.boolean_)];
   KRequired ["id"];
   KAdditionalProperties false].

Lemma context_accepted (n : nat) (path : list segment) (c : ContextEntry) :
  validate_at (S (S (S n))) path context_schema (encode_context c) = Some [].
Proof.
  apply validate_keywords_accept; [reflexivity|].
  constructor; [reflexivity|]. constructor; [|repeat constructor].
  apply properties_accept. repeat constructor. apply numbers_accepted.
Qed.

(** The schema of an item of a group. *)
Definition item_schema : schema :=
  [KType TObject; KOneOf [ConfigSchema.ref "group"; ConfigSchema.ref "context"]].

Lemma TreeItem_induction (P : TreeItem -> Prop) :
  (forall context, P (ContextRef context)) ->
  (forall labels items, Forall P items -> P (GroupNode labels items)) ->
  forall t, P t.
Proof.
  intros Hcontext Hgroup. fix IH 1. intros [context|labels items]; [apply Hcontext|].
  apply Hgroup. induction items as [|t items IHitems]; constructor; [apply IH|exact IHitems].
Qed.

Lemma height_item (items : list TreeItem) (t : TreeItem) :
  In t items -> (height t <= list_max (map height items))%nat.
Proof.
  intros H.
  assert (Forall (fun k => (k <= list_max (map height items))%nat) (map height items)) as Hall
    by now apply list_max_le.
  rewrite List.Forall_forall in Hall. apply Hall. now apply in_map.
Qed.

(** An item is accepted with fuel for its nesting. *)
Lemma item_accepted (t : TreeItem) :
  forall (n : nat) (path : list segment),
    validate_at (6 * height t + 9 + n) path item_schema (encode_item t) = Some [].
Proof.
  induction t as [context|labels items IH] using TreeItem_induction; intros n path.
  - reflexivity.
  - cbn [height encode_item].
    set (m := list_max (map height items)).
    replace (6 * S m + 9 + n)%nat
      with (S (S (S (S (S (S (S (S (S (6 * m + 6 + n))))))))))%nat by lia.
    apply validate_keywords_accept; [reflexivity|].
    constructor; [reflexivity|]. constructor; [|constructor].
    cbn [validate_keyword all_results item_schema].
    match goal with
    | |- context [validate ?r ?d ?k path (ConfigSchema.ref "group") ?j] =>
        assert (validate r d k path (ConfigSchema.ref "group") j = Some []) as ->
    end.
    { erewrite validate_ref; [|reflexivity|reflexivity].
      apply validate_keywords_accept; [reflexivity|].
      constructor; [reflexivity|]. constructor; [|repeat constructor].
      apply properties_accept. constructor; [|constructor]. cbn [fst snd property].
      change (property "group" _) with (Some (A := schema)
        [KType TObject;
         KProperties [("labels", ConfigSchema.ref "labels");
                      ("infoFile", ConfigSchema.string_);
                      ("exclusive", ConfigSchema.boolean_);
                      ("items", ConfigSchema.ref "items")];
         KRequired ["labels"];
         KAdditionalProperties false]).
      apply validate_keywords_accept; [reflexivity|].
      constructor; [reflexivity|]. constructor; [|repeat constructor].
      apply properties_accept. constructor; [|constructor; [|constructor]].
      - change (property (fst ("labels", JArr (map encode_label labels))) _)
          with (Some (ConfigSchema.ref "labels")).
        cbv beta iota. cbn [fst snd].
        erewrite validate_ref; [|reflexivity|reflexivity]. apply labels_accepted.
      - change (property (fst ("items", JArr (map encode_item items))) _)
          with (Some (ConfigSchema.ref "items")).
        cbv beta iota. cbn [fst snd].
        erewrite validate_ref; [|reflexivity|reflexivity].
        apply validate_keywords_accept; [reflexivity|].
        constructor; [reflexivity|]. constructor; [|constructor].
        apply items_accept. intros p e He. apply in_map_iff in He as (t & <- & Ht).
        rewrite List.Forall_forall in IH. pose proof (height_item items t Ht) as Hle.
        fold m in Hle.
        replace (S (S (S (6 * m + 6 + n))))%nat
          with (6 * height t + 9 + (6 * (m - height t) + n))%nat by lia.
        apply (IH t Ht). }
    reflexivity.
Qed.

Lemma list_max_map_le {A} (f g : A -> nat) (l : list A) :
  Forall (fun x => (f x <= g x)%nat) l ->
  (list_max (map f l) <= list_max (map g l))%nat.
Proof. induction 1 as [|x l Hx _ IH]; simpl; lia. Qed.

Lemma list_max_first (x : nat) (l : list nat) :
  list_max (x :: l) = Nat.max x (list_max l).
Proof. reflexivity. Qed.

Lemma height_depth (t : TreeItem) : (height t <= depth (encode_item t))%nat.
Proof.
  induction t as [context|labels items IH] using TreeItem_induction; [simpl; lia|].
  pose proof (list_max_map_le height (fun t => depth (encode_item t)) items IH) as Hle.
  cbn [height encode_item depth map snd]. rewrite !list_max_first, (map_map encode_item depth). lia.
Qed.

(** The fuel of the document covers the nesting of its tree. *)
Lemma fuel_for_encode (layers : list LayerEntry) (contexts : list ContextEntry)
    (tree : list TreeItem) :
  exists k, fuel_for (encode layers contexts tree)
            = S (S (S (S (S (6 * list_max (map height tree) + 9 + k))))).
Proof.
  assert (list_max (map height tree) + 3 <= depth (encode layers contexts tree))%nat as Hd.
  { pose proof (list_max_map_le height (fun t => depth (encode_item t)) tree) as Hle.
    cbn [encode depth map snd]. rewrite !list_max_first, (map_map encode_item depth).
    assert (list_max (map height tree)
            <= list_max (map (fun t => depth (encode_item t)) tree))%nat
      by (apply Hle, List.Forall_forall; intros t _; apply height_depth).
    lia. }
  exists (fuel_for (encode layers contexts tree) - (6 * list_max (map height tree) + 14))%nat.
  unfold fuel_for. lia.
Qed.

End TypedConfiguration.

(** X22: every configuration written with the required properties is a
    valid document: whatever the layers (a wms layer with [id], [name] and
    [serverUrls] and no [type]; a bing-aerial or osm layer with [type] and
    [id]), whatever the contexts (with [id] and layer ids), and whatever the
    tree of groups and contexts, however deep and wide, the validator ends
    and reports no violation. *)
Theorem schema_accepts_typed_configuration (regex_match : string -> string -> bool)
    (layers : list LayerEntry) (contexts : list ContextEntry) (tree : list TreeItem) :
  validate_document regex_match (encode layers contexts tree) = Some [].
Proof.
  unfold validate_document.
  destruct (fuel_for_encode layers contexts tree) as [k ->].
  set (m := list_max (map height tree)).
  apply validate_keywords_accept; [reflexivity|].
  constructor; [reflexivity|]. constructor; [|repeat constructor].
  apply properties_accept. constructor; [|constructor; [|constructor; [|constructor]]].
  - change (property (fst ("layers", JArr (map encode_layer layers))) _)
      with (Some [KType TArray; KItems layer_schema]).
    cbv beta iota. cbn [fst snd].
    apply validate_keywords_accept; [reflexivity|].
    constructor; [reflexivity|]. constructor; [|constructor].
    apply items_accept. intros p e He. apply in_map_iff in He as (l & <- & _).
    replace (S (S (6 * m + 9 + k)))%nat
      with (S (S (S (S (S (6 * m + 6 + k))))))%nat by lia.
    apply layer_accepted.
  - change (property (fst ("contexts", JArr (map encode_context contexts))) _)
      with (Some [KType TArray; KItems context_schema]).
    cbv beta iota. cbn [fst snd].
    apply validate_keywords_accept; [reflexivity|].
    constructor; [reflexivity|]. constructor; [|constructor].
    apply items_accept. intros p e He. apply in_map_iff in He as (c & <- & _).
    replace (S (S (6 * m + 9 + k)))%nat with (S (S (S (6 * m + 8 + k))))%nat by lia.
    apply context_accepted.
  - change (property (fst ("group", JObj [("items", JArr (map encode_item tree))])) _)
      with (Some [KType TObject;
                  KProperties [("items", ConfigSchema.ref "items");
                               ("exclusive", ConfigSchema.boolean_)];
                  KAdditionalProperties false]).
    cbv beta iota. cbn [fst snd].
    apply validate_keywords_accept; [reflexivity|].
    constructor; [reflexivity|]. constructor; [|repeat constructor].
    apply properties_accept. constructor; [|constructor].
    change (property (fst ("items", JArr (map encode_item tree))) _)
      with (Some (ConfigSchema.ref "items")).
    cbv beta iota. cbn [fst snd].
    erewrite validate_ref; [|reflexivity|reflexivity].
    apply validate_keywords_accept; [reflexivity|].
    constructor; [reflexivity|]. constructor; [|constructor].
    apply items_accept. intros p e He. apply in_map_iff in He as (t & <- & Ht).
    pose proof (height_item tree t Ht) as Hle. fold m in Hle.
    replace (S (6 * m + 9 + k))%nat
      with (6 * height t + 9 + (6 * (m - height t) + k + 1))%nat by lia.
    apply item_accepted.
Qed.

(** X23: the validator reports a document that is no object, a document
    object without [layers], [contexts] or [group], and every entry of
    [contexts] that is no object, has no [id] or has a member the schema of
    a context does not declare, each at its own path. *)
Theorem schema_requires_sections_and_context_ids (regex_match : string -> string -> bool) :
  (forall doc, type_of doc <> TObject ->
     exists vs, validate_document regex_match doc = Some vs /\
                In (mkViolation [] (WrongType TObject)) vs) /\
  (forall ms k, In k ["layers"; "contexts"; "group"] -> has_key k ms = false ->
     exists vs, validate_document regex_match (JObj ms) = Some vs /\
                In (mkViolation [] (MissingProperty k)) vs) /\
  (forall ms cs i e,
     In ("contexts", JArr cs) ms -> nth_error cs i = Some e ->
     exists vs,
       validate_document regex_match (JObj ms) = Some vs /\
       (type_of e <> TObject ->
        In (mkViolation [Key "contexts"; Index i] (WrongType TObject)) vs) /\
       (forall em, e = JObj em -> has_key "id" em = false ->
        In (mkViolation [Key "contexts"; Index i] (MissingProperty "id")) vs) /\
       (forall em k v, e = JObj em -> In (k, v) em ->
        ~ In k ["id"; "infoFile"; "labels"; "inlineLegendUrl"; "downloadUrl"; "layers";
                "active"] ->
        In (mkViolation [Key "contexts"; Index i; Key k] (AdditionalProperty k)) vs)).
Proof.
  split; [|split].
  - intros doc Hdoc. destruct (validate_document_total regex_match doc) as [vs Hvs].
    exists vs. split; [exact Hvs|].
    unfold validate_document in Hvs. destruct (fuel_for_S doc) as [n Hn]. rewrite Hn in Hvs.
    eapply validate_keyword_incl in Hvs as (r & Hr & Hincl);
      [|reflexivity|left; reflexivity].
    apply Hincl. cbn [validate_keyword] in Hr. injection Hr as <-.
    destruct (decide (type_of doc = TObject)); [contradiction|now left].
  - intros ms k Hk Hno. destruct (validate_document_total regex_match (JObj ms)) as [vs Hvs].
    exists vs. split; [exact Hvs|].
    unfold validate_document in Hvs. destruct (fuel_for_S (JObj ms)) as [n Hn].
    rewrite Hn in Hvs.
    eapply validate_keyword_incl in Hvs as (r & Hr & Hincl);
      [|reflexivity|right; right; right; left; reflexivity].
    apply Hincl. cbn [validate_keyword] in Hr. injection Hr as <-.
    exact (has_key_false_missing k ["layers"; "contexts"; "group"] ms [] Hk Hno).
  - intros ms cs i e Hin Hnth.
    destruct (validate_document_total regex_match (JObj ms)) as [vs Hvs].
    exists vs. split; [exact Hvs|].
    unfold validate_document in Hvs. destruct (fuel_for_S (JObj ms)) as [n Hn].
    rewrite Hn in Hvs.
    eapply validate_keyword_incl in Hvs as (r1 & Hr1 & Hincl1);
      [|reflexivity|right; left; reflexivity].
    eapply (validate_property_incl _ _ _ _ _ _ _ ("contexts", JArr cs)) in Hr1
      as (r2 & Hr2 & Hincl2); [|exact Hin|reflexivity].
    eapply validate_keyword_incl in Hr2 as (r3 & Hr3 & Hincl3);
      [|reflexivity|right; left; reflexivity].
    eapply validate_item_incl in Hr3 as (r4 & Hr4 & Hincl4); [|exact Hnth].
    cbn [app fst] in Hr4.
    assert (incl r4 vs) as Hincl
      by (intros v Hv; apply Hincl1, Hincl2, Hincl3, Hincl4, Hv).
    split; [|split].
    + intros He. apply Hincl.
      eapply validate_keyword_incl in Hr4 as (r5 & Hr5 & Hincl5);
        [|reflexivity|left; reflexivity].
      apply Hincl5. cbn [validate_keyword] in Hr5. injection Hr5 as <-.
      destruct (decide (type_of e = TObject)); [contradiction|now left].
    + intros em -> Hno. apply Hincl.
      eapply validate_keyword_incl in Hr4 as (r5 & Hr5 & Hincl5);
        [|reflexivity|right; right; left; reflexivity].
      apply Hincl5. cbn [validate_keyword] in Hr5. injection Hr5 as <-.
      exact (has_key_false_missing "id" ["id"] em [Key "contexts"; Index i]
               (or_introl eq_refl) Hno).
    + intros em k v -> Hkv Hnew. apply Hincl.
      eapply validate_keyword_incl in Hr4 as (r5 & Hr5 & Hincl5);
        [|reflexivity|right; right; right; left; reflexivity].
      apply Hincl5.
      apply (validate_additional_reported _ _ _ _ _ _ (k, v) Hr5 Hkv).
      apply property_None. exact Hnew.
Qed.

(** * The properties at the sample configuration *)

Ltac by_computation := vm_compute; reflexivity.

(** Facts about every context of a two-element list, by cases. *)
Ltac each_context :=
  repeat match goal with
         | H : In _ (_ :: _) |- _ => destruct H as [<-|H]
         | H : In _ [] |- _ => destruct H
         end.

Lemma sample_contexts_resolved :
  contexts_resolved (heap Sample.state) (contexts Sample.state).
Proof.
  intros c Hc. cbn [contexts Sample.state] in Hc. each_context.
  - exists (Sample.context 10 true [Some Sample.layerA; Some Sample.layerB] (Some 1%positive)),
           [Sample.layerA; Sample.layerB]. split; by_computation.
  - exists (Sample.context 11 false [Some Sample.layerB; Some Sample.layerC] (Some 2%positive)),
           [Sample.layerB; Sample.layerC]. split; by_computation.
Qed.


(** The edit-select of C10 on the sample: the subgroup, then context 11. *)
Lemma edit_item_updates_reference_of_kind_witness :
  exists s2,
    (edit_item 101;; edit_item 11) Sample.state = (Ok tt, s2) /\
    editGroup s2 = Some 2%positive /\ editContext s2 = Some 4%positive.
Proof.
  destruct (edit_item_updates_reference_of_kind Sample.state 101) as (_ & H & _).
  apply (H 11 2%positive 4%positive
           (Sample.group 101 [4%positive] (Some 1%positive))
           (Sample.context 11 false [Some Sample.layerB; Some Sample.layerC]
              (Some 2%positive))); by_computation.
Defined.

(** The toggle of C6 on the sample, where context 10 is active. *)
Lemma toggle_context_flips_membership_witness :
  exists s1 s2,
    toggle_context 10 Sample.state = (Ok tt, s1) /\
    toggle_context 10 s1 = (Ok tt, s2) /\
    (In 10 (activeContextsIds s1) <-> ~ In 10 (activeContextsIds Sample.state)) /\
    (forall x, x <> 10 ->
       (In x (activeContextsIds s1) <-> In x (activeContextsIds Sample.state))) /\
    List.NoDup (activeContextsIds s1) /\
    Permutation (activeContextsIds s2) (activeContextsIds Sample.state) /\
    s1 = set_activeContextsIds (activeContextsIds s1) Sample.state /\
    s2 = set_activeContextsIds (activeContextsIds s2) Sample.state.
Proof.
  apply (toggle_context_flips_membership Sample.state 10 3%positive).
  - by_computation.
  - repeat constructor. intros [].
Defined.

(** The unresolved targets of C2 on the sample: no item and no context has
    id 99. *)
Lemma unresolved_target_edit_and_toggle_witness :
  edit_item 99 Sample.state
    = (Ok tt, set_editContext None (set_editGroup None Sample.state)) /\
  toggle_context 99 Sample.state = (Ok tt, Sample.state).
Proof.
  destruct (unresolved_target_edit_and_toggle Sample.state 99) as (Hedit & Htoggle).
  split; [apply Hedit|apply Htoggle]; by_computation.
Defined.

(** Against C2 as stated: the edit-select of an id that does not resolve is
    not a no-op; it clears [editGroup], which held the subgroup. *)
Lemma edit_item_unresolved_changes_state :
  exists s',
    resolve Sample.state 99 = Ok None /\
    edit_item 99 Sample.state = (Ok tt, s') /\
    editGroup Sample.state = Some 2%positive /\ editGroup s' = None /\
    s' <> Sample.state.
Proof.
  eexists. split; [by_computation|]. split; [by_computation|].
  split; [reflexivity|]. split; [reflexivity|]. intros H.
  apply (f_equal editGroup) in H. discriminate.
Qed.

(** The other targets C2 names raise a [TypeError]: a delete-item whose id
    does not resolve reads [parent] of no object, a delete-item of the root
    reads [items] of no parent, and a reparent whose group id does not
    resolve reads [items] of no group. *)
Example delete_item_unresolved_raises :
  delete_item 99 Sample.state = (Throw TypeError, Sample.state).
Proof. by_computation. Qed.

Example delete_item_root_raises :
  resolve Sample.state 100 = Ok (Some 1%positive) /\
  delete_item 100 Sample.state = (Throw TypeError, Sample.state).
Proof. split; by_computation. Qed.

Example update_group_unresolved_raises :
  update_group 99 [4%positive] Sample.state = (Throw TypeError, Sample.state).
Proof. by_computation. Qed.

(** The queryable layers of C7 on the sample. *)
Lemma queryableLayers_have_statistics_witness :
  exists ql,
    queryableLayers Sample.state = Ok (map Some ql) /\
    ql = List.filter (fun l => truthy (Layer.statistics l)) [Sample.layerA; Sample.layerB] /\
    (forall l, In l ql <->
               In l [Sample.layerA; Sample.layerB] /\ Layer.statistics l <> None) /\
    (forall l, In l [Sample.layerA; Sample.layerB] ->
               Layer.statistics l = Some [] -> In l ql).
Proof.
  apply (queryableLayers_have_statistics Sample.state [Sample.layerA; Sample.layerB]).
  by_computation.
Defined.

(** Against C7 as stated: layer A, whose [statistics] is the empty array, is
    active and is among the queryable layers. *)
Lemma queryableLayers_keeps_empty_statistics :
  Layer.statistics Sample.layerA = Some [] /\
  activeLayers Sample.state = Ok [Some Sample.layerA; Some Sample.layerB] /\
  queryableLayers Sample.state = Ok [Some Sample.layerA; Some Sample.layerB].
Proof. repeat split; by_computation. Qed.

(** The reparenting of C8 on the sample: the root's items reordered, and
    context 11 moved from the subgroup to the root. *)
Lemma update_group_restamps_parent_witness :
  (exists s',
     update_group 100 [3; 2]%positive Sample.state = (Ok tt, s') /\
     (exists git, heap s' !! 1%positive = Some git /\
                  Item.items git = Some [3; 2]%positive) /\
     (forall item, In item [3; 2]%positive ->
        exists it, heap s' !! item = Some it /\ Item.parent it = Some 1%positive)) /\
  (exists s2 it1' it2' itx,
     update_group 100 (take 1 [2; 3]%positive ++ 4%positive :: drop 1 [2; 3]%positive)
       (snd (update_group 101 ([] ++ []) Sample.state)) = (Ok tt, s2) /\
     heap s2 !! 2%positive = Some it1' /\ heap s2 !! 1%positive = Some it2' /\
     heap s2 !! 4%positive = Some itx /\
     (exists l1, Item.items it1' = Some l1 /\
                 (length l1 + 1 = length ([] ++ 4%positive :: []))%nat) /\
     (exists l2, Item.items it2' = Some l2 /\
                 (length l2 = length [2; 3]%positive + 1)%nat) /\
     Item.parent itx = Some 1%positive).
Proof.
  destruct update_group_restamps_parent as (Hone & Hmove). split.
  - apply (Hone Sample.state 100 1%positive [3; 2]%positive); [by_computation|].
    intros item Hitem. each_context; eexists; by_computation.
  - apply (Hmove Sample.state _ 101 100 2%positive 1%positive 4%positive
             (Sample.group 101 [4%positive] (Some 1%positive))
             (Sample.group 100 [2; 3]%positive None) [] [] [2; 3]%positive 1%nat);
      try by_computation; [discriminate|].
    intros item Hitem. cbn [app] in Hitem. each_context; eexists; by_computation.
Defined.

(** The sample with the layers of context 10 in the order B, A: the times
    collected are 2020-01-02, 2020-01-03, 2020-01-01, 2020-01-02. *)
Definition sample_layers_reversed : State :=
  set_heap
    (<[3%positive := Sample.context 10 true [Some Sample.layerB; Some Sample.layerA]
                       (Some 1%positive)]> (heap Sample.state))
    Sample.state.

(** The aggregation of C3 on that state: context 10 keeps its layers B and A
    and gets the times 2020-01-01, 2020-01-02, 2020-01-03. *)
Lemma setContextsTimes_sorted_union_witness :
  exists s',
    setContextsTimes Sample.parse sample_layers_reversed = (Ok tt, s') /\
    heap s' !! 3%positive
      = Some (Item.set_times [Sample.t01; Sample.t02; Sample.t03]
                (Sample.context 10 true [Some Sample.layerB; Some Sample.layerA]
                   (Some 1%positive))) /\
    contextTimes (JSDate.parse 0)
      (Sample.context 10 true [Some Sample.layerA; Some Sample.layerB] (Some 1%positive))
    = Ok [Sample.t01; Sample.t02; Sample.t03].
Proof.
  destruct (setContextsTimes_sorted_union Sample.parse) as (Htotal & Hall & Hexample).
  destruct (Htotal sample_layers_reversed) as (s' & Hrun).
  { intros c Hc. cbn [contexts sample_layers_reversed set_heap Sample.state] in Hc.
    each_context.
    - exists (Sample.context 10 true [Some Sample.layerB; Some Sample.layerA]
                (Some 1%positive)), [Sample.layerB; Sample.layerA].
      split; by_computation.
    - exists (Sample.context 11 false [Some Sample.layerB; Some Sample.layerC]
                (Some 2%positive)), [Sample.layerB; Sample.layerC].
      split; by_computation. }
  exists s'. split; [exact Hrun|]. split.
  - destruct (Hall sample_layers_reversed s' 3%positive Hrun)
      as (it0 & ls & ts & Hit0 & Hls & Hit & _ & _ & _ & Hsorted).
    { vm_compute. auto. }
    vm_compute in Hit0. injection Hit0 as <-.
    cbn [Item.layers Sample.context] in Hls. injection Hls as Hls.
    apply (map_Some_inj [Sample.layerB; Sample.layerA]) in Hls. subst ls.
    destruct Hsorted as (_ & Hts).
    { repeat constructor; eexists; by_computation. }
    rewrite Hit, Hts. by_computation.
  - apply (Hexample 0 Sample.layerA Sample.layerB); reflexivity.
Defined.


(** The catalog replacement of C5 on the sample: layer B gives way to a new
    object with the same id, layer C goes. *)
Lemma update_layers_reresolves_witness :
  exists s',
    update_layers Sample.parse [Sample.layerA; Sample.layerB'] Sample.state = (Ok tt, s') /\
    layers s' = [Sample.layerA; Sample.layerB'] /\
    contexts s' = contexts Sample.state /\
    forall c it ls,
      In c (contexts Sample.state) -> heap Sample.state !! c = Some it ->
      Item.layers it = Some (map Some ls) ->
      exists it' ls',
        heap s' !! c = Some it' /\ Item.layers it' = Some (map Some ls') /\
        ls' = reresolve [Sample.layerA; Sample.layerB'] ls /\
        (forall l', In l' ls' ->
           In l' [Sample.layerA; Sample.layerB'] /\
           exists l, In l ls /\ Layer.id l' = Layer.id l) /\
        map Layer.id ls'
        = List.filter
            (fun i => existsb (fun l' => Layer.id l' =? i) [Sample.layerA; Sample.layerB'])
            (map Layer.id ls).
Proof.
  apply (update_layers_reresolves Sample.parse Sample.state
           [Sample.layerA; Sample.layerB']).
  exact sample_contexts_resolved.
Defined.

(** C1: a save-context whose [layerIds] has an id of no catalog layer does
    not drop it.  On the sample, saving context 10 with ids 1 and 99 leaves
    [layers] of the context as layer A followed by [undefined], and the
    aggregator then raises a [TypeError] reading [type] of that entry. *)
Theorem save_context_keeps_unresolved_id (Date_parse : string -> option Z) :
  exists s',
    save_context Date_parse (mkSaveContext 10 "c" [] None true None [1; 99]) Sample.state
      = (Throw TypeError, s') /\
    (Item.layers <$> heap s' !! 3%positive) = Some (Some [Some Sample.layerA; None]) /\
    find (fun layer => Layer.id layer =? 99) (layers Sample.state) = None.
Proof. eexists. repeat split; by_computation. Qed.

(** The save of X1 on the sample: context 10 with the ids of layers B and A. *)
Lemma save_context_resolves_layers_witness :
  exists s' it',
    save_context Sample.parse (mkSaveContext 10 "c" [] None true None [2; 1]) Sample.state
      = (Ok tt, s') /\
    heap s' !! 3%positive = Some it' /\
    Item.layers it' = Some (map Some [Sample.layerB; Sample.layerA]) /\
    map Layer.id [Sample.layerB; Sample.layerA] = [2; 1] /\
    (forall x, In x [Sample.layerB; Sample.layerA] -> In x (layers Sample.state)).
Proof.
  apply (save_context_resolves_layers Sample.parse
           (mkSaveContext 10 "c" [] None true None [2; 1]) Sample.state 3%positive
           [Sample.layerB; Sample.layerA]).
  - by_computation.
  - by_computation.
  - exact sample_contexts_resolved.
Defined.

(** The second run of X2 on the sample. *)
Lemma setContextsTimes_idempotent_witness :
  setContextsTimes Sample.parse (snd (setContextsTimes Sample.parse Sample.state))
  = (Ok tt, snd (setContextsTimes Sample.parse Sample.state)).
Proof.
  apply (setContextsTimes_idempotent Sample.parse Sample.state). by_computation.
Defined.

(** The rejections of C9 on two documents: one with the top-level key
    [extra], one whose only layer has no [serverUrls]. *)
Lemma schema_rejects_undeclared_and_incomplete_witness :
  (exists vs,
     validate_document (fun _ _ => true)
       (JObj [("layers", JArr []); ("contexts", JArr []); ("group", JObj []);
              ("extra", JNull)]) = Some vs /\
     In (mkViolation [Key "extra"] (AdditionalProperty "extra")) vs) /\
  (exists vs,
     validate_document (fun _ _ => true)
       (JObj [("layers", JArr [JObj [("type", JStr "osm"); ("id", JNum 1)];
                               JObj [("id", JNum 2); ("name", JStr "forest")]]);
              ("contexts", JArr []); ("group", JObj [])]) = Some vs /\
     In (mkViolation [Key "layers"; Index 1] (OneOfMismatch 0)) vs).
Proof.
  destruct (schema_rejects_undeclared_and_incomplete (fun _ _ => true))
    as (Hkey & Hlayer). split.
  - apply (Hkey _ "extra" JNull).
    + simpl. auto.
    + simpl. intros [H|[H|[H|[H|[]]]]]; discriminate.
  - apply (Hlayer _ [JObj [("type", JStr "osm"); ("id", JNum 1)];
                     JObj [("id", JNum 2); ("name", JStr "forest")]]
                    1%nat (JObj [("id", JNum 2); ("name", JStr "forest")]) "serverUrls").
    + simpl. auto.
    + reflexivity.
    + simpl. intros [H|[H|[]]]; discriminate.
    + simpl. intros [H|[H|[]]]; discriminate.
    + simpl. auto.
    + reflexivity.
Defined.

(** A document the validator accepts. *)
Example schema_accepts_sample :
  validate_document (fun _ _ => true)
    (JObj [("layers",
            JArr [JObj [("id", JNum 1); ("name", JStr "forest");
                        ("serverUrls", JArr [JStr "http://example.org/wms"]);
                        ("times", JArr [JStr "2020-01-01"]);
                        ("statistics",
                         JArr [JObj [("type", JStr "url"); ("url", JStr "stats")]])];
                  JObj [("type", JStr "osm"); ("id", JNum 2)]]);
           ("contexts", JArr [JObj [("id", JNum 10); ("layers", JArr [JNum 1])]]);
           ("group",
            JObj [("items",
                   JArr [JObj [("context", JNum 10)];
                         JObj [("group",
                                JObj [("labels",
                                       JArr [JObj [("language", JStr "en");
                                                   ("label", JStr "Maps")]]);
                                      ("items", JArr [])])]])])])
  = Some [].
Proof. vm_compute. reflexivity. Qed.

(** ** Further properties at the sample *)

(** A state whose [contextsTimes] has entries at 10 and 11, as the
    aggregator leaves it on the sample. *)
Definition sample_timed : State :=
  set_contextsTimes (<[10 := Sample.t03]> (<[11 := Sample.t03]> ∅)) Sample.state.

Lemma sample_contexts_readable : contexts_readable Sample.state.
Proof.
  intros c Hc. destruct (sample_contexts_resolved c Hc) as (it & ls & Hit & Hls). eauto.
Qed.

(** X3 on the sample: the time of context 10 is set. *)
Lemma set_context_time_replaces_entry_witness :
  set_context_time 10 Sample.t01 sample_timed
    = (Ok tt, set_contextsTimes (<[10 := Sample.t01]> (contextsTimes sample_timed))
                sample_timed) /\
  SparseArray.length (<[10 := Sample.t01]> (contextsTimes sample_timed))
    = SparseArray.length (contextsTimes sample_timed).
Proof.
  destruct (set_context_time_replaces_entry sample_timed 10 Sample.t01) as [H _].
  apply H. assert (SparseArray.length (contextsTimes sample_timed) = 12) as ->
    by by_computation. lia.
Defined.

(** X4 on the sample: a time for the id 20, beyond the length 12, lands at
    index 12. *)
Lemma set_context_time_outside_length_witness :
  exists s',
    set_context_time 20 Sample.t01 sample_timed = (Ok tt, s') /\
    s' = set_contextsTimes
           (<[SparseArray.length (contextsTimes sample_timed) := Sample.t01]>
              (contextsTimes sample_timed)) sample_timed /\
    SparseArray.length (contextsTimes s')
      = SparseArray.length (contextsTimes sample_timed) + 1 /\
    (20 <> SparseArray.length (contextsTimes sample_timed) ->
     contextsTimes s' !! 20 = contextsTimes sample_timed !! 20).
Proof.
  destruct (set_context_time_outside_length sample_timed 20 Sample.t01) as [H _].
  assert (SparseArray.length (contextsTimes sample_timed) = 12) as Hlen by by_computation.
  apply H; rewrite Hlen; [lia|reflexivity].
Defined.

(** X5 on the sample: context 11 is taken out of the subgroup. *)
Lemma delete_item_removes_first_match_witness :
  exists s',
    delete_item 11 Sample.state = (Ok tt, s') /\
    exists rest, Item.items <$> heap s' !! 2%positive = Some (Some rest) /\
                 (length rest + 1 = length [4%positive])%nat.
Proof.
  destruct (delete_item_removes_first_match Sample.state 11 4 2
              (Sample.context 11 false [Some Sample.layerB; Some Sample.layerC]
                 (Some 2%positive))
              (Sample.group 101 [4%positive] (Some 1%positive)) [4%positive])
    as (s' & Hrun & _ & Hless); try by_computation.
  - intros i [<-|[]]. eexists. by_computation.
  - exists s'. split; [exact Hrun|]. apply Hless. now left.
Defined.

(** X13 before a configuration is loaded: the edit-select of any id raises. *)
Lemma tree_mutations_raise_on_unresolved_id_witness :
  edit_item 10 state = (Throw TypeError, state) /\
  delete_item 10 state = (Throw TypeError, state) /\
  delete_item 99 Sample.state = (Throw TypeError, Sample.state) /\
  delete_item 100 Sample.state = (Throw TypeError, Sample.state).
Proof.
  destruct (tree_mutations_raise_on_unresolved_id Sample.parse state 10)
    as (Hthrow & Hnone & _ & _).
  destruct (Hthrow TypeError (Hnone eq_refl)) as (Hedit & Hdelete & _).
  destruct (tree_mutations_raise_on_unresolved_id Sample.parse Sample.state 99)
    as (_ & _ & Hmissing & _).
  destruct (tree_mutations_raise_on_unresolved_id Sample.parse Sample.state 100)
    as (_ & _ & _ & Hroot).
  split; [exact Hedit|]. split; [exact Hdelete|]. split.
  - apply Hmissing. by_computation.
  - apply (Hroot 1%positive (Sample.group 100 [2; 3]%positive None)); by_computation.
Defined.

(** X14 on the sample: the subgroup is dragged out of the root and keeps
    naming the root as its parent. *)
Lemma update_group_keeps_dropped_items_witness :
  exists s',
    update_group 100 [3%positive] Sample.state = (Ok tt, s') /\
    forall x, ~ In x [3%positive] -> x <> 1%positive ->
      heap s' !! x = heap Sample.state !! x.
Proof.
  apply (update_group_keeps_dropped_items Sample.state 100 1 [3%positive]).
  - by_computation.
  - intros item [<-|[]]. eexists. by_computation.
Defined.

(** X6 on the sample, where context 10 alone is active. *)
Lemma activeLayers_each_layer_once_witness :
  exists al,
    activeLayers Sample.state = Ok al /\
    List.NoDup (map entry_ref al) /\
    (forall e, In e al ->
       exists it entries, active_context Sample.state it entries /\ In e entries) /\
    (forall it entries e, active_context Sample.state it entries -> In e entries ->
       exists e', In e' al /\ entry_ref e' = entry_ref e) /\
    (activeContextsIds Sample.state = [] -> al = []).
Proof. exact (activeLayers_each_layer_once Sample.state sample_contexts_readable). Defined.

(** The sample with an [undefined] layer in context 10. *)
Definition sample_undefined : State :=
  set_heap (<[3%positive := Sample.context 10 true [Some Sample.layerA; None]
                              (Some 1%positive)]> Sample.objects) Sample.state.

Lemma sample_undefined_readable : contexts_readable sample_undefined.
Proof.
  intros c Hc. cbn [contexts sample_undefined set_heap Sample.state] in Hc. each_context.
  - eexists. eexists. split; by_computation.
  - eexists. eexists. split; by_computation.
Qed.

Lemma sample_undefined_active :
  active_context sample_undefined
    (Sample.context 10 true [Some Sample.layerA; None] (Some 1%positive))
    [Some Sample.layerA; None].
Proof. exists 3%positive. repeat split; try by_computation; simpl; auto. Qed.

(** X7 on that state. *)
Lemma queryableLayers_raises_on_undefined_layer_witness :
  (exists al, activeLayers sample_undefined = Ok al /\ In None al) /\
  queryableLayers sample_undefined = Throw TypeError.
Proof.
  apply (queryableLayers_raises_on_undefined_layer sample_undefined
           (Sample.context 10 true [Some Sample.layerA; None] (Some 1%positive))
           [Some Sample.layerA; None]).
  - exact sample_undefined_readable.
  - exact sample_undefined_active.
  - simpl. auto.
Defined.

(** X8 on the sample: context 10, active, is toggled off. *)
Lemma toggle_context_shows_and_hides_layers_witness :
  exists s1 al1,
    toggle_context 10 Sample.state = (Ok tt, s1) /\ activeLayers s1 = Ok al1 /\
    (~ In 10 (activeContextsIds Sample.state) ->
     forall it entries e, context_with_id Sample.state 10 it entries -> In e entries ->
       exists e', In e' al1 /\ entry_ref e' = entry_ref e) /\
    (In 10 (activeContextsIds Sample.state) ->
     forall e, In e al1 ->
       exists it entries, active_context Sample.state it entries /\ Item.id it <> 10 /\
                          In e entries).
Proof.
  apply (toggle_context_shows_and_hides_layers Sample.state 10 3%positive).
  - by_computation.
  - exact sample_contexts_readable.
  - repeat constructor. intros [].
Defined.

(** X10 on the sample: saving the subgroup moves no id. *)
Lemma lookup_stable_witness :
  resolve (after Sample.parse (Save_group (mkSaveGroup 101 "g" [] true None)) Sample.state) 11
  = resolve Sample.state 11.
Proof.
  apply (lookup_stable Sample.parse (Save_group (mkSaveGroup 101 "g" [] true None))).
  reflexivity.
Defined.

(** X11 on the sample: context 10 is deleted from the tree and its layers
    stay active. *)
Lemma getters_unchanged_witness :
  activeLayers (after Sample.parse (Delete_item 10) Sample.state)
    = activeLayers Sample.state /\
  queryableLayers (after Sample.parse (Delete_item 10) Sample.state)
    = queryableLayers Sample.state.
Proof. apply (getters_unchanged Sample.parse (Delete_item 10)). reflexivity. Defined.

(** X12 on the sample: toggles and a deletion. *)
Lemma active_ids_stay_distinct_witness :
  List.NoDup (activeContextsIds
                (after_all Sample.parse
                   [Toggle_context 11; Delete_item 10; Toggle_context 10; Toggle_context 11]
                   Sample.state)).
Proof.
  apply (active_ids_stay_distinct Sample.parse); [reflexivity|].
  repeat constructor. intros [].
Defined.

(** X15 on the sample. *)
Lemma update_layers_idempotent_witness :
  exists s',
    update_layers Sample.parse [Sample.layerA; Sample.layerB'] Sample.state = (Ok tt, s') /\
    update_layers Sample.parse [Sample.layerA; Sample.layerB'] s' = (Ok tt, s').
Proof.
  apply (update_layers_idempotent Sample.parse Sample.state). exact sample_contexts_resolved.
Defined.

(** X16 on the sample: context 10 saved with the ids 1 and 99. *)
Lemma save_context_raises_on_unknown_layer_witness :
  exists s' it',
    save_context Sample.parse (mkSaveContext 10 "c" [] None true None [1; 99]) Sample.state
      = (Throw TypeError, s') /\
    heap s' !! 3%positive = Some it' /\
    Item.layers it' = Some (catalog_layers (layers Sample.state) [1; 99]) /\
    In None (catalog_layers (layers Sample.state) [1; 99]) /\
    contextsTimes s' = contextsTimes Sample.state.
Proof.
  apply (save_context_raises_on_unknown_layer Sample.parse
           (mkSaveContext 10 "c" [] None true None [1; 99]) Sample.state 3%positive 99).
  - by_computation.
  - simpl. auto.
  - simpl. auto.
  - by_computation.
Defined.

(** X17 on the sample: its own contexts and tree loaded with a catalog of
    one layer. *)
Lemma receive_layers_installs_witness :
  exists s' cs,
    receive_layers Sample.parse
      (mkLayersConf [Sample.layerA] [3; 4]%positive (Some 1%positive)) Sample.state
      = (Ok tt, s') /\
    layers s' = [Sample.layerA] /\
    contexts s' = [3; 4]%positive /\
    groups s' = Some 1%positive /\
    Forall2 (fun c it => heap s' !! c = Some it) (contexts s') cs /\
    activeContextsIds s' = map Item.id (List.filter Item.active cs) /\
    (List.NoDup (map Item.id cs) -> List.NoDup (activeContextsIds s')).
Proof.
  apply (receive_layers_installs Sample.parse
           (mkLayersConf [Sample.layerA] [3; 4]%positive (Some 1%positive)) Sample.state).
  exact sample_contexts_resolved.
Defined.

(** X18 on the sample with an [undefined] layer in context 10. *)
Lemma receive_layers_failure_half_written_witness :
  exists s',
    receive_layers Sample.parse
      (mkLayersConf [Sample.layerA] [3; 4]%positive (Some 1%positive)) sample_undefined
      = (Throw TypeError, s') /\
    layers s' = [Sample.layerA] /\
    contextsTimes s' = contextsTimes sample_undefined /\
    activeContextsIds s' = activeContextsIds sample_undefined.
Proof.
  destruct (receive_layers_failure_half_written Sample.parse
              (mkLayersConf [Sample.layerA] [3; 4]%positive (Some 1%positive))
              sample_undefined) as (Hhalf & Hraises).
  destruct (Hraises 3%positive
              (Sample.context 10 true [Some Sample.layerA; None] (Some 1%positive))
              [Some Sample.layerA; None]) as (s' & Hrun);
    [simpl; auto|by_computation|reflexivity|simpl; auto|].
  destruct (Hhalf TypeError s' Hrun) as (_ & Hl & _ & _ & Ht & Ha).
  exists s'. auto.
Defined.

(** X19 on the sample: the subgroup is selected for editing, then
    deleted. *)
Lemma unassigned_fields_kept_witness :
  editGroup (after Sample.parse (Delete_item 101) Sample.state) = Some 2%positive.
Proof.
  exact (unassigned_fields_kept Sample.parse (Delete_item 101) F_editGroup Sample.state
           eq_refl).
Defined.

(** X23 on a document without [group] whose only context has no [id]. *)
Lemma schema_requires_sections_and_context_ids_witness :
  (exists vs,
     validate_document (fun _ _ => true)
       (JObj [("layers", JArr []); ("contexts", JArr [JObj [("name", JStr "c")]])])
     = Some vs /\
     In (mkViolation [] (MissingProperty "group")) vs) /\
  (exists vs,
     validate_document (fun _ _ => true)
       (JObj [("layers", JArr []); ("contexts", JArr [JObj [("name", JStr "c")]])])
     = Some vs /\
     In (mkViolation [Key "contexts"; Index 0] (MissingProperty "id")) vs /\
     In (mkViolation [Key "contexts"; Index 0; Key "name"] (AdditionalProperty "name")) vs).
Proof.
  destruct (schema_requires_sections_and_context_ids (fun _ _ => true))
    as (_ & Hsection & Hcontext).
  split.
  - apply Hsection; [simpl; auto|reflexivity].
  - destruct (Hcontext [("layers", JArr []); ("contexts", JArr [JObj [("name", JStr "c")]])]
                [JObj [("name", JStr "c")]] 0%nat (JObj [("name", JStr "c")]))
      as (vs & Hvs & _ & Hid & Hextra); [simpl; auto|reflexivity|].
    exists vs. split; [exact Hvs|]. split.
    + apply (Hid [("name", JStr "c")]); reflexivity.
    + apply (Hextra [("name", JStr "c")] "name" (JStr "c")); [reflexivity|simpl; auto|].
      simpl. intuition discriminate.
Defined.

(** X20 on the sample: context 10 saved with the layers B and A. *)
Lemma save_context_idempotent_witness :
  exists s',
    save_context Sample.parse (mkSaveContext 10 "c" [] None true None [2; 1]) Sample.state
      = (Ok tt, s') /\
    save_context Sample.parse (mkSaveContext 10 "c" [] None true None [2; 1]) s'
      = (Ok tt, s').
Proof.
  apply (save_context_idempotent Sample.parse
           (mkSaveContext 10 "c" [] None true None [2; 1]) Sample.state 3%positive
           [Sample.layerB; Sample.layerA]).
  - by_computation.
  - by_computation.
  - exact sample_contexts_resolved.
Defined.

(** X21 on the sample: its own contexts and tree loaded with a catalog of
    one layer. *)
Lemma receive_layers_idempotent_witness :
  exists s',
    receive_layers Sample.parse
      (mkLayersConf [Sample.layerA] [3; 4]%positive (Some 1%positive)) Sample.state
      = (Ok tt, s') /\
    receive_layers Sample.parse
      (mkLayersConf [Sample.layerA] [3; 4]%positive (Some 1%positive)) s'
      = (Ok tt, s').
Proof.
  apply (receive_layers_idempotent Sample.parse
           (mkLayersConf [Sample.layerA] [3; 4]%positive (Some 1%positive)) Sample.state).
  exact sample_contexts_resolved.
Defined.
